(** * axionlib: field-boundary tracing and axion-photon conversion probability

    A shallow embedding of

    - [TRestAxionPhotonConversion] (BL, BLHalfSquared and the two overloads of
      GammaTransmissionProbability),
    - [TRestAxionFieldPropagationProcess] (FindOneVolume, FindFieldBoundaries,
      GetFieldVector, ProcessEvent), and
    - the later [TRestAxionFieldPropagationProcess::ProcessEvent] that fills
      the observables fieldAverage, probability, coherenceLength, transmission.

    Numbers.  The C++ code computes with [Double_t] (and with [mpreal] in the
    scalar overload).  Here every such value is a real number of [R] and the
    arithmetic is exact: rounding is not modelled.  IEEE infinities and NaN
    have no counterpart in [R], so a division whose divisor is a run-time
    value goes through [fdiv], which yields [Err NonFinite] on a zero
    divisor; divisions by literals ([1000.], [2.0], ...) are plain.

    Loops.  The [while] loops of the boundary search have no syntactic bound;
    each is a [Fixpoint] on a fuel counter and yields [Err OutOfFuel] when the
    counter is used up.

    Vectors.  [operator[]] on a [std::vector] beyond its size has no defined
    behaviour in C++; the embedding makes it [Err OutOfRange]. *)

From Stdlib Require Import Reals Lra Lia List Bool ZArith.
Import ListNotations.
Open Scope R_scope.

(** ** Outcomes *)

Inductive error : Type :=
| OutOfFuel   (* a loop did not finish within the fuel given *)
| NonFinite   (* a division by zero: the value leaves the real numbers *)
| OutOfRange. (* a vector was read beyond its size *)

Inductive result (A : Type) : Type :=
| Ok (a : A)
| Err (e : error).
Arguments Ok {A} a.
Arguments Err {A} e.

Definition bind {A B : Type} (c : result A) (k : A -> result B) : result B :=
  match c with
  | Ok a => k a
  | Err e => Err e
  end.

Notation "x <- c ;; k" := (bind c (fun x => k))
  (at level 61, c at next level, right associativity).

(** ** Comparisons of doubles *)

Definition Reqb (x y : R) : bool := if Req_dec_T x y then true else false.
Definition Rleb (x y : R) : bool := if Rle_dec x y then true else false.
Definition Rltb (x y : R) : bool := if Rlt_dec x y then true else false.

(** [a / b] for a divisor only known at run time. *)
Definition fdiv (a b : R) : result R :=
  if Reqb b 0 then Err NonFinite else Ok (a / b).

(** [v[i]] on a [std::vector]. *)
Fixpoint at_index {A : Type} (v : list A) (i : nat) : result A :=
  match v, i with
  | [], _ => Err OutOfRange
  | a :: _, O => Ok a
  | _ :: v', S i' => at_index v' i'
  end.

(** ** The buffer gas (medium) collaborator *)

Record TRestAxionBufferGas : Type := mkBufferGas {
  GetPhotonMass : R -> R;               (* eV, argument in keV *)
  GetPhotonAbsorptionLength : R -> R    (* cm-1, argument in keV *)
}.

(** ** TRestAxionPhotonConversion *)

Section PhotonConversion.

(** The constants of namespace [REST_Physics] used by the class; their
    header is not part of the sources, so they are parameters here. *)
Variables lightSpeed naturalElectron PhMeterIneV : R.

(** The data member [fBufferGas]; a null pointer is [None]. *)
Variable fBufferGas : option TRestAxionBufferGas.

Definition BL (Bmag Lcoh : R) : R :=
  let lengthInMeters := Lcoh / 1000 in
  let tm := lightSpeed / naturalElectron * 1.0e-9 in
  let sol := lengthInMeters * Bmag * tm in
  let sol := sol * 1.0e-10 in
  sol.

Definition BLHalfSquared (Bmag Lcoh : R) : R :=
  let lengthInMeters := Lcoh / 1000 in
  let tm := lightSpeed / naturalElectron * 1.0e-9 in
  let sol := lengthInMeters * Bmag * tm / 2 in
  let sol := sol * sol * 1.0e-20 in
  sol.

(** [photonMass = 0.; if (fBufferGas) photonMass = fBufferGas->GetPhotonMass(Ea);] *)
Definition photonMass_of (Ea : R) : R :=
  match fBufferGas with
  | Some gas => GetPhotonMass gas Ea
  | None => 0
  end.

(** [Gamma = 0.; if (fBufferGas) Gamma = fBufferGas->GetPhotonAbsorptionLength(Ea);] *)
Definition Gamma_of (Ea : R) : R :=
  match fBufferGas with
  | Some gas => GetPhotonAbsorptionLength gas Ea
  | None => 0
  end.

(** The scalar overload,
    [GammaTransmissionProbability(Double_t Ea, Double_t Bmag, Double_t ma, Double_t Lcoh)].
    The code forms [ma * ma] in [Double_t] and the other operations in
    100-digit [mpreal]; here all of them are operations on exact reals. *)
Definition GammaTransmissionProbability (Ea Bmag ma Lcoh : R) : result R :=
  let axionMass := ma in
  let cohLength := Lcoh / 1000 in
  let bMag := Bmag in
  let photonMass := photonMass_of Ea in
  if Reqb ma 0 && Reqb photonMass 0 then Ok (BLHalfSquared Bmag Lcoh)
  else
    q <- fdiv ((ma * ma - photonMass * photonMass) / 2) Ea ;;
    let q := q / 1000 in
    let l := cohLength * PhMeterIneV in
    let phi := q * l in
    let Gamma := Gamma_of Ea in
    let GammaL := Gamma * cohLength * 100 in
    let MFactor := phi * phi + GammaL * GammaL / 4 in
    MFactor <- fdiv 1 MFactor ;;
    Ok (MFactor * BLHalfSquared Bmag Lcoh *
        (1 + exp (- GammaL) - 2 * exp (- GammaL / 2) * cos phi)).

End PhotonConversion.

(** ** ROOT's one-dimensional histogram, as far as the code uses it

    [TH1F(name, title, nbins, xlow, xup)] has the bins [1..nbins] of equal
    width on [xlow, xup), the underflow bin [0] and the overflow bin
    [nbins + 1].  The single-precision storage of [TH1F] is not modelled. *)

Record TH1F : Type := mkTH1F {
  fNbins : Z;
  fXmin : R;
  fXmax : R;
  fArray : Z -> R
}.

(** The constructor; ROOT replaces a bin count [<= 0] by [1]. *)
Definition TH1F_new (nbins : Z) (xlow xup : R) : TH1F :=
  mkTH1F (if (nbins <=? 0)%Z then 1%Z else nbins) xlow xup (fun _ => 0).

(** [TAxis::FindBin(x)] for equal bins: underflow below [fXmin], overflow
    when not [x < fXmax], else [1 + int(fNbins*(x-fXmin)/(fXmax-fXmin))]. *)
Definition FindBin (h : TH1F) (x : R) : Z :=
  if Rltb x (fXmin h) then 0%Z
  else if negb (Rltb x (fXmax h)) then (fNbins h + 1)%Z
  else (1 + Int_part (IZR (fNbins h) * (x - fXmin h) / (fXmax h - fXmin h)))%Z.

(** [TH1::Fill(x, w)]: add [w] to the content of the bin of [x]. *)
Definition Fill (h : TH1F) (x w : R) : TH1F :=
  let bin := FindBin h x in
  mkTH1F (fNbins h) (fXmin h) (fXmax h)
         (fun b => if (b =? bin)%Z then fArray h b + w else fArray h b).

(** The bins [b1, b1 + 1, ..., b1 + n - 1]. *)
Definition bin_range (b1 : Z) (n : nat) : list Z :=
  map (fun i => (b1 + Z.of_nat i)%Z) (seq 0 n).

Definition sum_list (l : list R) : R := fold_right Rplus 0 l.

(** [TH1::Integral(binx1, binx2)]: the sum of the bin contents from [binx1]
    to [binx2], both included, after ROOT's clamping of the two bounds. *)
Definition Integral (h : TH1F) (binx1 binx2 : Z) : R :=
  let nx := (fNbins h + 2)%Z in
  let binx1 := if (binx1 <? 0)%Z then 0%Z else binx1 in
  let binx2 := if (nx <=? binx2)%Z || (binx2 <? binx1)%Z then (nx - 1)%Z else binx2 in
  sum_list (map (fArray h) (bin_range binx1 (Z.to_nat (binx2 - binx1 + 1)))).

(** ** TComplex, as far as the code uses it *)

Record TComplex : Type := mkComplex { Re : R; Im : R }.

Definition TComplex_I : TComplex := mkComplex 0 1.
Definition Conjugate (c : TComplex) : TComplex := mkComplex (Re c) (- Im c).
Definition Cmul (a b : TComplex) : TComplex :=
  mkComplex (Re a * Re b - Im a * Im b) (Re a * Im b + Im a * Re b).
(** [operator*(Double_t, TComplex)] and [operator+(Double_t, TComplex)]. *)
Definition Cscale (d : R) (c : TComplex) : TComplex := mkComplex (d * Re c) (d * Im c).
Definition Cadd_real (d : R) (c : TComplex) : TComplex := mkComplex (d + Re c) (Im c).

Section PhotonConversionProfile.

Variables lightSpeed naturalElectron PhMeterIneV : R.
Variable fBufferGas : option TRestAxionBufferGas.

(** The entries [Bx[i]], [By[i]] and [ind[i]] of the first loop, with
    [N = size - 1] and [frac = Double_t(i) / Double_t(N)]. *)
Definition Bx_at (B : list R) (GammaL cohLength q : R) (N : Z) (i : nat) : R :=
  let b := nth i B 0 in
  b * exp ((GammaL / 2) * (INR i / IZR N - 1)) *
  cos (- cohLength * PhMeterIneV * (INR i / IZR N) * q).

Definition By_at (B : list R) (GammaL cohLength q : R) (N : Z) (i : nat) : R :=
  let b := nth i B 0 in
  b * exp ((GammaL / 2) * (INR i / IZR N - 1)) *
  sin (- cohLength * PhMeterIneV * (INR i / IZR N) * q).

Definition ind_at (cohLength : R) (N : Z) (i : nat) : R :=
  cohLength * (INR i / IZR N).

(** The second loop: [h->Fill(ind[i], w[i])] for [i = 0 .. N]. *)
Definition fill_all (h : TH1F) (ind w : list R) : TH1F :=
  fold_left (fun h p => Fill h (fst p) (snd p)) (combine ind w) h.

(** The overload on a field profile,
    [GammaTransmissionProbability(Double_t Ea, TVectorD B, Double_t ma, Double_t Lcoh)].
    [Double_t(i) / Double_t(N)] divides by the loop-invariant [N]; the loop
    body runs at least once exactly when [0 <= N], so the zero-divisor
    case [N = 0] is decided once, before the loop. *)
Definition GammaTransmissionProbability_profile
           (Ea : R) (B : list R) (ma Lcoh : R) : result R :=
  let cohLength := Lcoh / 1000 in
  let photonMass := photonMass_of fBufferGas Ea in
  q <- fdiv ((ma * ma - photonMass * photonMass) / 2) Ea ;;
  let q := q / 1000 in
  let l := cohLength * PhMeterIneV in
  let phi := q * l in
  let Gamma := Gamma_of fBufferGas Ea in
  let GammaL := Gamma * cohLength * 100 in
  let tm := lightSpeed / naturalElectron * 1.0e-9 in
  let Factor := tm / 2 in
  let Factor := Factor * Factor * 1.0e-20 in
  let xmin := 0 in
  let xmax := cohLength in
  let size := Z.of_nat (length B) in
  let N := (size - 1)%Z in
  if (N =? 0)%Z then Err NonFinite
  else
    let idx := seq 0 (Z.to_nat (N + 1)) in
    let Bx := map (Bx_at B GammaL cohLength q N) idx in
    let By := map (By_at B GammaL cohLength q N) idx in
    let ind := map (ind_at cohLength N) idx in
    let hx := fill_all (TH1F_new (N + 1) xmin xmax) ind Bx in
    let hy := fill_all (TH1F_new (N + 1) xmin xmax) ind By in
    let bmin := FindBin hx xmin in
    let bmax := FindBin hx xmax in
    let integralx := Integral hx bmin bmax in
    integralx <- fdiv (integralx * (xmax - xmin)) (IZR (bmax - bmin)) ;;
    let integraly := Integral hy bmin bmax in
    integraly <- fdiv (integraly * (xmax - xmin)) (IZR (bmax - bmin)) ;;
    let inte := Cadd_real integralx (Cscale integraly TComplex_I) in
    let sol := Re (Cmul inte (Conjugate inte)) in
    let sol := Factor * sol in
    Ok sol.

End PhotonConversionProfile.

(** ** TVector3, as far as the code uses it *)

Record TVector3 : Type := mkVector3 { fX : R; fY : R; fZ : R }.

(** [v[i]] for reading and [v[i] = x] for writing, [i] in [0..2]. *)
Definition coord (v : TVector3) (i : nat) : R :=
  match i with
  | O => fX v
  | S O => fY v
  | _ => fZ v
  end.

Definition set_coord (v : TVector3) (i : nat) (x : R) : TVector3 :=
  match i with
  | O => mkVector3 x (fY v) (fZ v)
  | S O => mkVector3 (fX v) x (fZ v)
  | _ => mkVector3 (fX v) (fY v) x
  end.

Notation "v .[ i ]" := (coord v i) (at level 1, left associativity, format "v .[ i ]").

Definition zero3 : TVector3 := mkVector3 0 0 0.

(** [operator==] of [TVector3]: all three coordinates equal. *)
Definition V3eqb (u v : TVector3) : bool :=
  Reqb (fX u) (fX v) && Reqb (fY u) (fY v) && Reqb (fZ u) (fZ v).

Definition V3add (u v : TVector3) : TVector3 :=
  mkVector3 (fX u + fX v) (fY u + fY v) (fZ u + fZ v).
Definition V3sub (u v : TVector3) : TVector3 :=
  mkVector3 (fX u - fX v) (fY u - fY v) (fZ u - fZ v).
Definition V3scale (u : TVector3) (a : R) : TVector3 :=
  mkVector3 (fX u * a) (fY u * a) (fZ u * a).

Definition Mag2 (v : TVector3) : R := fX v * fX v + fY v * fY v + fZ v * fZ v.
Definition Dot (u v : TVector3) : R := fX u * fX v + fY u * fY v + fZ u * fZ v.

(** [TVector3::Perp2(p)] and [TVector3::Perp(p)]: the component of [v]
    transverse to [p]. *)
Definition Perp2 (v p : TVector3) : R :=
  let tot := Mag2 p in
  let ss := Dot v p in
  let per := Mag2 v in
  let per := if Rltb 0 tot then per - ss * ss / tot else per in
  let per := if Rltb per 0 then 0 else per in
  per.

Definition Perp (v p : TVector3) : R := sqrt (Perp2 v p).

(** A boundary pair: the two-element vector [boundaryIn, boundaryOut] that
    FindOneVolume builds with two [push_back]s; [bInt[0]] is [fst] and
    [bInt[1]] is [snd]. *)
Definition boundary : Type := (TVector3 * TVector3)%type.

(** ** TRestAxionFieldPropagationProcess: the boundary search *)

Module FieldPropagationProcess.
Section Process.

(** [fAxionMagneticField->GetMagneticField(x, y, z)]. *)
Variable GetMagneticField : R -> R -> R -> TVector3.

Definition field_at (pos : TVector3) : TVector3 :=
  GetMagneticField pos.[0] pos.[1] pos.[2].

(** *** FindOneVolume, the two axis-aligned cases

    The case [dir[1] == 0 && dir[2] == 0] works on coordinate [k = 0] and
    the case [dir[0] == 0 && dir[1] == 0] on coordinate [k = 2]; the two
    blocks of the source are otherwise the same text. *)

(** [while (field == 0 && pos[k] >= -40000. && pos[k] <= 40000.) pos[k] = pos[k] + dir[k]*dr;] *)
Fixpoint scan_to_field (k : nat) (dir : TVector3) (dr : R)
         (fuel : nat) (pos : TVector3) : result TVector3 :=
  match fuel with
  | O => Err OutOfFuel
  | S fuel' =>
      if V3eqb (field_at pos) zero3 && Rleb (-40000) pos.[k] && Rleb pos.[k] 40000
      then scan_to_field k dir dr fuel' (set_coord pos k (pos.[k] + dir.[k] * dr))
      else Ok pos
  end.

(** [while (field != 0) pos[k] = pos[k] + dir[k]*dr;] *)
Fixpoint scan_out_of_field (k : nat) (dir : TVector3) (dr : R)
         (fuel : nat) (pos : TVector3) : result TVector3 :=
  match fuel with
  | O => Err OutOfFuel
  | S fuel' =>
      if negb (V3eqb (field_at pos) zero3)
      then scan_out_of_field k dir dr fuel' (set_coord pos k (pos.[k] + dir.[k] * dr))
      else Ok pos
  end.

(** [while (dr > minStep) { ... }] and the code after it.  [n] bounds the
    rounds of this loop, [fuel] the steps of each inner loop. *)
Fixpoint FindOneVolume_axis_loop (k : nat) (dir : TVector3) (minStep : R)
         (fuel n : nat) (dr : R) (pos : TVector3) : result boundary :=
  match n with
  | O => Err OutOfFuel
  | S n' =>
      if Rltb minStep dr then
        pos <- scan_to_field k dir dr fuel pos ;;
        if Rltb pos.[k] (-40000) || Rltb 40000 pos.[k] then
          let boundaryIn := pos in
          let boundaryOut := mkVector3 0 0 0 in
          Ok (boundaryIn, boundaryOut)
        else
          let pos := set_coord pos k (pos.[k] - dir.[k] * dr) in
          let dr := dr / 2 in
          FindOneVolume_axis_loop k dir minStep fuel n' dr pos
      else
        let pos := set_coord pos k (pos.[k] + dir.[k] * dr * 2) in
        let boundaryIn := pos in
        pos <- scan_out_of_field k dir dr fuel pos ;;
        let boundaryOut := pos in
        Ok (boundaryIn, boundaryOut)
  end.

Definition FindOneVolume_axis (k : nat) (fuel : nat)
           (pos dir : TVector3) (minStep : R) : result boundary :=
  let dr := 5 in
  let pos := set_coord pos k (pos.[k] + dir.[k] * minStep / 2) in
  FindOneVolume_axis_loop k dir minStep fuel fuel dr pos.

(** *** FindOneVolume, the general case (stepping along y) *)

(** [t = (y - pos[1]) / dir[1]; pos[1] = y; pos[0] = pos[0] + t*dir[0];
    pos[2] = pos[2] + t*dir[2];] *)
Definition move_to_y (dir pos : TVector3) (y : R) : result TVector3 :=
  t <- fdiv (y - pos.[1]) dir.[1] ;;
  let pos := set_coord pos 1 y in
  let pos := set_coord pos 0 (pos.[0] + t * dir.[0]) in
  let pos := set_coord pos 2 (pos.[2] + t * dir.[2]) in
  Ok pos.

(** [while (field == 0 && pos[1] > 0) { y = pos[1] - dr; ... }] *)
Fixpoint scan_to_field_y (dir : TVector3) (dr : R)
         (fuel : nat) (pos : TVector3) : result TVector3 :=
  match fuel with
  | O => Err OutOfFuel
  | S fuel' =>
      if V3eqb (field_at pos) zero3 && Rltb 0 pos.[1]
      then
        let y := pos.[1] - dr in
        pos <- move_to_y dir pos y ;;
        scan_to_field_y dir dr fuel' pos
      else Ok pos
  end.

(** [while (field != 0) { y = pos[1] - dr; ... }] *)
Fixpoint scan_out_of_field_y (dir : TVector3) (dr : R)
         (fuel : nat) (pos : TVector3) : result TVector3 :=
  match fuel with
  | O => Err OutOfFuel
  | S fuel' =>
      if negb (V3eqb (field_at pos) zero3)
      then
        let y := pos.[1] - dr in
        pos <- move_to_y dir pos y ;;
        scan_out_of_field_y dir dr fuel' pos
      else Ok pos
  end.

Fixpoint FindOneVolume_general_loop (dir : TVector3) (minStep : R)
         (fuel n : nat) (dr : R) (pos : TVector3) : result boundary :=
  match n with
  | O => Err OutOfFuel
  | S n' =>
      if Rltb minStep dr then
        pos <- scan_to_field_y dir dr fuel pos ;;
        if Rleb pos.[1] 0 then
          let boundaryIn := pos in
          let boundaryOut := mkVector3 0 0 0 in
          Ok (boundaryIn, boundaryOut)
        else
          let y := pos.[1] + dr in
          pos <- move_to_y dir pos y ;;
          let dr := dr / 2 in
          FindOneVolume_general_loop dir minStep fuel n' dr pos
      else
        let y := pos.[1] - dr * 2 in
        pos <- move_to_y dir pos y ;;
        let boundaryIn := pos in
        pos <- scan_out_of_field_y dir dr fuel pos ;;
        let boundaryOut := pos in
        Ok (boundaryIn, boundaryOut)
  end.

Definition FindOneVolume_general (fuel : nat)
           (pos dir : TVector3) (minStep : R) : result boundary :=
  let dr := 5 in
  let pos := set_coord pos 1 (pos.[1] - minStep / 2) in
  FindOneVolume_general_loop dir minStep fuel fuel dr pos.

(** [FindOneVolume(TVector3 pos, TVector3 dir, Double_t minStep)]. *)
Definition FindOneVolume (fuel : nat)
           (pos dir : TVector3) (minStep : R) : result boundary :=
  if Reqb dir.[1] 0 && Reqb dir.[2] 0 then FindOneVolume_axis 0 fuel pos dir minStep
  else if Reqb dir.[0] 0 && Reqb dir.[1] 0 then FindOneVolume_axis 2 fuel pos dir minStep
  else FindOneVolume_general fuel pos dir minStep.

(** *** FindFieldBoundaries *)

(** The tests on [bInt[0]] of the three cases: the [if] that returns the
    empty collection, and the condition of the [while] that follows. *)
Definition outside_axis (k : nat) (p : TVector3) : bool :=
  Rltb p.[k] (-40000) || Rltb 40000 p.[k].
Definition inside_axis (k : nat) (p : TVector3) : bool :=
  Rleb (-40000) p.[k] && Rleb p.[k] 40000.
Definition outside_general (p : TVector3) : bool := Rleb p.[1] 0.
Definition inside_general (p : TVector3) : bool := Rltb 0 p.[1].

(** [while (inside(bInt[0])) { push_back(bInt); bInt = FindOneVolume(bInt[1], ...); }] *)
Fixpoint FindFieldBoundaries_loop (inside : TVector3 -> bool)
         (direction : TVector3) (minStep : R) (fuel n : nat)
         (bInt : boundary) (boundaryCollection : list boundary)
  : result (list boundary) :=
  match n with
  | O => Err OutOfFuel
  | S n' =>
      if inside (fst bInt) then
        let boundaryCollection := boundaryCollection ++ [bInt] in
        bInt <- FindOneVolume fuel (snd bInt) direction minStep ;;
        FindFieldBoundaries_loop inside direction minStep fuel n' bInt boundaryCollection
      else Ok boundaryCollection
  end.

(** The part common to the three cases, from the first call of
    FindOneVolume on. *)
Definition FindFieldBoundaries_from (outside inside : TVector3 -> bool)
           (fuel : nat) (posInitial direction : TVector3) (minStep : R)
  : result (list boundary) :=
  let boundaryCollection := [] in
  bInt <- FindOneVolume fuel posInitial direction minStep ;;
  if outside (fst bInt) then Ok boundaryCollection
  else
    let boundaryCollection := boundaryCollection ++ [bInt] in
    bInt <- FindOneVolume fuel (snd bInt) direction minStep ;;
    FindFieldBoundaries_loop inside direction minStep fuel fuel bInt boundaryCollection.

(** [FindFieldBoundaries(Double_t minStep)]; [posInitial] and [direction]
    are the position and direction of [fInputAxionEvent]. *)
Definition FindFieldBoundaries (fuel : nat)
           (posInitial direction : TVector3) (minStep : R)
  : result (list boundary) :=
  let minStep := if Reqb minStep (-1) then 0.01 else minStep in
  if Reqb direction.[1] 0 && Reqb direction.[2] 0 then
    let posInitial := set_coord posInitial 0 (- direction.[0] * 25000) in
    FindFieldBoundaries_from (outside_axis 0) (inside_axis 0)
                             fuel posInitial direction minStep
  else if Reqb direction.[0] 0 && Reqb direction.[1] 0 then
    let posInitial := set_coord posInitial 2 (- direction.[2] * 25000) in
    FindFieldBoundaries_from (outside_axis 2) (inside_axis 2)
                             fuel posInitial direction minStep
  else
    t <- fdiv (10000 - posInitial.[1]) direction.[1] ;;
    let posInitial := set_coord posInitial 1 10000 in
    let posInitial := set_coord posInitial 0 (posInitial.[0] + t * direction.[0]) in
    let posInitial := set_coord posInitial 2 (posInitial.[2] + t * direction.[2]) in
    FindFieldBoundaries_from outside_general inside_general
                             fuel posInitial direction minStep.

(** *** GetFieldVector *)

(** The points at which the loop [for (i = 1; i < N; i++)] reads the field:
    each round first executes
    [in = in + differential * (Double_t(i) / Double_t(N - 1))]
    on the parameter [in] itself, then reads the field at [in].
    [count] is the number of rounds left.  The divisor [N - 1] is at
    least [1] whenever a round is executed. *)
Fixpoint GetFieldVector_loop (differential : TVector3) (N : nat)
         (count i : nat) (in_ : TVector3) : list TVector3 :=
  match count with
  | O => []
  | S count' =>
      let in_ := V3add in_ (V3scale differential (INR i / INR (N - 1))) in
      in_ :: GetFieldVector_loop differential N count' (S i) in_
  end.

(** All [N] points read, the one of [Bt[0]] first. *)
Definition GetFieldVector_points (in_ out : TVector3) (N : nat) : list TVector3 :=
  let N := if Nat.eqb N 0 then Nat.pow 10 4 else N in
  let differential := V3sub out in_ in
  in_ :: GetFieldVector_loop differential N (N - 1) 1 in_.

(** [GetFieldVector(TVector3 in, TVector3 out, Int_t N)]:
    [Bt[i] = abs(B.Perp(direction))] with [B] the field at the i-th point;
    [direction] is the direction of [fInputAxionEvent]. *)
Definition GetFieldVector (direction : TVector3)
           (in_ out : TVector3) (N : nat) : list R :=
  map (fun p => Rabs (Perp (field_at p) direction))
      (GetFieldVector_points in_ out N).

(** *** ProcessEvent *)

(** The members of [TRestAxionEvent] that the process reads or writes. *)
Record TRestAxionEvent : Type := mkEvent {
  fPosition : TVector3;
  fDirection : TVector3;
  fEnergy : R;
  fGammaProbability : R
}.

(** The constants and the buffer gas of [fAxionPhotonConversion]. *)
Variables lightSpeed naturalElectron PhMeterIneV : R.
Variable fBufferGas : option TRestAxionBufferGas.

(** The default argument of [FindFieldBoundaries(Double_t minStep)]; it is
    declared in the header, which is not part of the sources. *)
Variable minStep_default : R.

Definition GTP_profile : R -> list R -> R -> R -> result R :=
  GammaTransmissionProbability_profile
    lightSpeed naturalElectron PhMeterIneV fBufferGas.

(** The body of the first [for] loop: the value left in [probabilities[i]]
    (a [TVectorD] starts zero-filled).  The first [if] stands alone; the
    [else] belongs to the second [if]. *)
Definition segment_probability (direction : TVector3) (Ea ma : R)
           (b : boundary) : result R :=
  let B := GetFieldVector direction (fst b) (snd b) 0 in
  let probabilities_i : result R := Ok 0 in
  let probabilities_i :=
    if Reqb (fst b).[1] (snd b).[1] && Reqb (fst b).[2] (snd b).[2]
    then GTP_profile Ea B ma (Rabs ((fst b).[0] - (snd b).[0]))
    else probabilities_i in
  let probabilities_i :=
    if Reqb (fst b).[0] (snd b).[0] && Reqb (fst b).[1] (snd b).[1]
    then GTP_profile Ea B ma (Rabs ((fst b).[2] - (snd b).[2]))
    else GTP_profile Ea B ma (Rabs ((fst b).[1] - (snd b).[1])) in
  probabilities_i.

(** [for (i = 0; i < NofVolumes; i++) probabilities[i] = ...], reading
    [boundaries[i]] for [i = from, from + 1, ..., from + count - 1]. *)
Fixpoint probabilities_loop (direction : TVector3) (Ea ma : R)
         (boundaries : list boundary) (count from : nat) : result (list R) :=
  match count with
  | O => Ok []
  | S count' =>
      b <- at_index boundaries from ;;
      p <- segment_probability direction Ea ma b ;;
      rest <- probabilities_loop direction Ea ma boundaries count' (S from) ;;
      Ok (p :: rest)
  end.

(** [probability = 0.; for (...) probability = probability + probabilities[i];] *)
Definition sum_probabilities (probabilities : list R) : R :=
  fold_left Rplus probabilities 0.

(** The value handed to [SetGammaProbability]. *)
Definition ProcessEvent_probability (fuel : nat) (ev : TRestAxionEvent)
  : result (list boundary * R) :=
  let Ea := fEnergy ev in
  let ma := 1.0 in
  boundaries <- FindFieldBoundaries fuel (fPosition ev) (fDirection ev) minStep_default ;;
  let NofVolumes := length boundaries in
  probabilities <- probabilities_loop (fDirection ev) Ea ma boundaries NofVolumes 0 ;;
  Ok (boundaries, sum_probabilities probabilities).

(** [ProcessEvent(TRestEvent* evInput)]: the output event is the input
    event, with its probability and its position overwritten. *)
Definition ProcessEvent (fuel : nat) (ev : TRestAxionEvent) : result TRestAxionEvent :=
  bp <- ProcessEvent_probability fuel ev ;;
  let boundaries := fst bp in
  let probability := snd bp in
  let NofVolumes := length boundaries in
  let ev := mkEvent (fPosition ev) (fDirection ev) (fEnergy ev) probability in
  b <- at_index boundaries NofVolumes ;;
  let ev := mkEvent (snd b) (fDirection ev) (fEnergy ev) (fGammaProbability ev) in
  Ok ev.

End Process.
End FieldPropagationProcess.

(** ** TRestAxionFieldPropagationProcess, the later version with observables *)

Module FieldPropagationObservables.
Section Process.

(** [fMagneticField->GetFieldBoundaries(pos, dir)] and
    [fMagneticField->GetTransversalComponentAlongPath(from, to, step)]. *)
Variable GetFieldBoundaries : TVector3 -> TVector3 -> list TVector3.
Variable GetTransversalComponentAlongPath : TVector3 -> TVector3 -> R -> list R.

(** [fAxionField->GammaTransmissionProbability(bProfile, step, Ea, ma)];
    what it returns may be non-finite. *)
Variable AxionField_GammaTransmissionProbability : list R -> R -> R -> R -> result R.

(** [units("cm")], the factor from the default length unit to cm. *)
Variable units_cm : R.

(** The data members set from the configuration. *)
Variable fBufferGas : option TRestAxionBufferGas.
Variable fBufferGasAdditionalLength : R.
Variable fIntegrationStep : R.

(** The event members that the process reads. *)
Record TRestAxionEvent : Type := mkEvent {
  GetPosition : TVector3;
  GetDirection : TVector3;
  GetEnergy : R;
  GetMass : R
}.

(** The four values given to [SetObservableValue].  The field average is
    a quotient and the probability comes from the collaborator: either may
    be non-finite, and the function goes on all the same. *)
Record observables : Type := mkObservables {
  fieldAverage : result R;
  probability : result R;
  coherenceLength : R;
  transmission : R
}.

(** [std::accumulate(bProfile.begin(), bProfile.end(), 0.0)]. *)
Definition accumulate (l : list R) : R := fold_left Rplus l 0.

(** [bProfile.size() - 1], computed in the unsigned 64-bit type [size_t]
    and then converted to [Double_t]. *)
Definition size_minus_1 (l : list R) : R :=
  IZR ((Z.of_nat (length l) - 1) mod 2 ^ 64).

(** [ProcessEvent(TRestEvent* evInput)]: the observables it sets.  No
    statement of the function ends it early; a [0 / 0] in the field
    average is stored like any other value. *)
Definition ProcessEvent (ev : TRestAxionEvent) : observables :=
  let trackBounds := GetFieldBoundaries (GetPosition ev) (GetDirection ev) in
  let prob := Ok 0 in
  let lCoh := 0 in
  let transmission := 1 in
  let fieldAverage := Ok 0 in
  match trackBounds with
  | [trackBounds0; trackBounds1] =>
      let bProfile :=
        GetTransversalComponentAlongPath trackBounds0 trackBounds1 fIntegrationStep in
      let fieldAverage := fdiv (accumulate bProfile) (INR (length bProfile)) in
      let Ea := GetEnergy ev in
      let ma := GetMass ev in
      let prob := AxionField_GammaTransmissionProbability bProfile fIntegrationStep Ea ma in
      let lCoh := size_minus_1 bProfile * fIntegrationStep in
      let transmission :=
        match fBufferGas with
        | Some gas =>
            if Rltb 0 fBufferGasAdditionalLength then
              let Gamma := GetPhotonAbsorptionLength gas Ea in
              let GammaL := Gamma * lCoh * units_cm in
              exp (- GammaL)
            else transmission
        | None => transmission
        end in
      mkObservables fieldAverage prob lCoh transmission
  | _ => mkObservables fieldAverage prob lCoh transmission
  end.

End Process.
End FieldPropagationObservables.

(** * Reference formulas and concrete inputs *)

(** ** The van Bibber relation, as the specification words it

    [q = (ma^2 - mgamma^2) / (2 Ea)], [phi = q Lcoh] in natural units,
    [GammaL = Gamma Lcoh], [M = 1 / (phi^2 + (GammaL/2)^2)] and
    [probability = M (BL/2)^2 (1 + e^(-GammaL) - 2 e^(-GammaL/2) cos phi)],
    with [Ea] in keV, the masses in eV, [Lcoh] in mm and [Gamma] in cm-1.
    The photon mass [mgamma] and the absorption [Gamma] are what the medium
    answers at the energy [Ea]; without a medium both are zero. *)

Section VanBibber.

Variables lightSpeed naturalElectron PhMeterIneV : R.

(** [photonEffectiveMass(energy)] of the medium interface. *)
Definition spec_mgamma (medium : option TRestAxionBufferGas) (Ea : R) : R :=
  match medium with
  | Some m => GetPhotonMass m Ea
  | None => 0
  end.

(** [absorptionCoefficient(energy)] of the medium interface. *)
Definition spec_Gamma (medium : option TRestAxionBufferGas) (Ea : R) : R :=
  match medium with
  | Some m => GetPhotonAbsorptionLength m Ea
  | None => 0
  end.

Variable medium : option TRestAxionBufferGas.

Definition spec_q (Ea ma : R) : R :=
  let mgamma := spec_mgamma medium Ea in
  (ma ^ 2 - mgamma ^ 2) / (2 * (Ea * 1000)).

Definition spec_phi (Ea ma Lcoh : R) : R :=
  spec_q Ea ma * (Lcoh / 1000 * PhMeterIneV).

Definition spec_GammaL (Ea Lcoh : R) : R :=
  spec_Gamma medium Ea * (Lcoh / 10).

Definition spec_M_denominator (Ea ma Lcoh : R) : R :=
  spec_phi Ea ma Lcoh ^ 2 + (spec_GammaL Ea Lcoh / 2) ^ 2.

Definition spec_probability (Ea Bmag ma Lcoh : R) : R :=
  let phi := spec_phi Ea ma Lcoh in
  let GammaL := spec_GammaL Ea Lcoh in
  let M := 1 / spec_M_denominator Ea ma Lcoh in
  M * (BL lightSpeed naturalElectron Bmag Lcoh / 2) ^ 2 *
  (1 + exp (- GammaL) - 2 * exp (- GammaL / 2) * cos phi).

End VanBibber.

(** ** Concrete inputs *)

(** Values for the constants of namespace [REST_Physics], used only to run
    the definitions on concrete inputs: the speed of light in m/s, the
    elementary charge in natural units, and one metre in eV-1. *)
Module REST_Physics.
Definition lightSpeed : R := 2.99792458e8.
Definition naturalElectron : R := 0.302822120214353.
Definition PhMeterIneV : R := 5067731.236453719.
End REST_Physics.

(** ** What FindOneVolume hands back

    FindFieldBoundaries tells the two kinds of pair apart by the first point:
    outside the search domain of the case at hand means "no further
    segment". *)

Definition outside_search_domain (dir p : TVector3) : bool :=
  if Reqb dir.[1] 0 && Reqb dir.[2] 0 then FieldPropagationProcess.outside_axis 0 p
  else if Reqb dir.[0] 0 && Reqb dir.[1] 0 then FieldPropagationProcess.outside_axis 2 p
  else FieldPropagationProcess.outside_general p.

(** The pair [(pos, (0,0,0))] of the early [return]. *)
Definition no_further_segment (dir : TVector3) (b : boundary) : Prop :=
  outside_search_domain dir (fst b) = true /\ snd b = zero3.

(** A pair that bounds a stretch of field: the entry point is inside the
    search domain and has field, the exit point has none. *)
Definition real_segment (GetMagneticField : R -> R -> R -> TVector3)
           (dir : TVector3) (b : boundary) : Prop :=
  outside_search_domain dir (fst b) = false /\
  FieldPropagationProcess.field_at GetMagneticField (fst b) <> zero3 /\
  FieldPropagationProcess.field_at GetMagneticField (snd b) = zero3.

(** ** Field maps for concrete runs *)

(** No field anywhere. *)
Definition no_field : R -> R -> R -> TVector3 := fun _ _ _ => zero3.

(** The same field everywhere. *)
Definition uniform_field : R -> R -> R -> TVector3 := fun _ _ _ => mkVector3 0 0 1.

(** Field on the half space [x < -39990], none elsewhere. *)
Definition edge_field : R -> R -> R -> TVector3 :=
  fun x _ _ => if Rltb x (-39990) then mkVector3 0 0 1 else zero3.

(** A fuel that lets the entry scan cross the whole search domain in steps
    of 8 length units. *)
Definition crossing_steps : nat := (99 * 101)%nat.

(** The axion energy (keV) at which a 1 eV axion in vacuum has [phi = PI]
    over a coherence length of 1000 mm. *)
Definition half_turn_energy : R := REST_Physics.PhMeterIneV / (2000 * PI).

(** ** Collaborators for a concrete run of the later ProcessEvent *)

(** A track that enters the field at the origin and leaves it at
    [x = 100] mm. *)
Definition track_0_100 : TVector3 -> TVector3 -> list TVector3 :=
  fun _ _ => [mkVector3 0 0 0; mkVector3 100 0 0].

(** A transversal field of 2 T at each of three points. *)
Definition profile_2T : TVector3 -> TVector3 -> R -> list R :=
  fun _ _ _ => [2; 2; 2].

(** A gas without photon mass and with absorption 1 cm-1 at every energy. *)
Definition absorbing_gas : TRestAxionBufferGas :=
  mkBufferGas (fun _ => 0) (fun _ => 1).

(** ** Further inputs for concrete runs *)

(** Field on the slab [3 <= x < 8], none elsewhere. *)
Definition slab_field : R -> R -> R -> TVector3 :=
  fun x _ _ => if Rleb 3 x && Rltb x 8 then mkVector3 0 0 1 else zero3.

(** Field on the layer [3 <= y < 8], none elsewhere. *)
Definition layer_field : R -> R -> R -> TVector3 :=
  fun _ y _ => if Rleb 3 y && Rltb y 8 then mkVector3 0 0 1 else zero3.

(** Field along x on the half space [z < -39990], none elsewhere. *)
Definition floor_field : R -> R -> R -> TVector3 :=
  fun _ _ z => if Rltb z (-39990) then mkVector3 1 0 0 else zero3.


(** ** The line of the event *)

(** [p] lies on the line through [pos] along [dir]. *)
Definition on_line (pos dir p : TVector3) : Prop :=
  exists t, p = V3add pos (V3scale dir t).

(** The directions for which FindOneVolume and FindFieldBoundaries take
    the axis-aligned case that works on the coordinate [k]. *)
Definition along_axis (k : nat) (dir : TVector3) : Prop :=
  (k = 0%nat /\ dir.[1] = 0 /\ dir.[2] = 0) \/
  (k = 2%nat /\ dir.[0] = 0 /\ dir.[1] = 0 /\ dir.[2] <> 0).

(** The same field of 0.3 T on each axis everywhere. *)
Definition diagonal_field : R -> R -> R -> TVector3 :=
  fun _ _ _ => mkVector3 0.3 0.3 0.3.

(** A field profile without samples. *)
Definition no_profile : TVector3 -> TVector3 -> R -> list R :=
  fun _ _ _ => [].

(** A gas without absorption whose photon mass is 1 eV at every energy. *)
Definition resonant_gas : TRestAxionBufferGas :=
  mkBufferGas (fun _ => 1) (fun _ => 0).

(** * Properties *)

(** ** Comparisons *)

Lemma Reqb_true (x y : R) : x = y -> Reqb x y = true.
Proof. intros H; unfold Reqb; destruct (Req_dec_T x y); [reflexivity | contradiction]. Qed.

Lemma Reqb_false (x y : R) : x <> y -> Reqb x y = false.
Proof. intros H; unfold Reqb; destruct (Req_dec_T x y); [contradiction | reflexivity]. Qed.

Lemma Reqb_eq (x y : R) : Reqb x y = true <-> x = y.
Proof.
  unfold Reqb; destruct (Req_dec_T x y); split; intros; auto; discriminate.
Qed.

Lemma Rleb_true (x y : R) : x <= y -> Rleb x y = true.
Proof. intros H; unfold Rleb; destruct (Rle_dec x y); [reflexivity | contradiction]. Qed.

Lemma Rleb_false (x y : R) : y < x -> Rleb x y = false.
Proof. intros H; unfold Rleb; destruct (Rle_dec x y); [lra | reflexivity]. Qed.

Lemma Rleb_le (x y : R) : Rleb x y = true <-> x <= y.
Proof.
  unfold Rleb; destruct (Rle_dec x y); split; intros; auto; discriminate.
Qed.

Lemma Rltb_true (x y : R) : x < y -> Rltb x y = true.
Proof. intros H; unfold Rltb; destruct (Rlt_dec x y); [reflexivity | contradiction]. Qed.

Lemma Rltb_false (x y : R) : y <= x -> Rltb x y = false.
Proof. intros H; unfold Rltb; destruct (Rlt_dec x y); [lra | reflexivity]. Qed.

Lemma Rltb_lt (x y : R) : Rltb x y = true <-> x < y.
Proof.
  unfold Rltb; destruct (Rlt_dec x y); split; intros; auto; discriminate.
Qed.

Lemma fdiv_ok (a b : R) : b <> 0 -> fdiv a b = Ok (a / b).
Proof. intros H; unfold fdiv; now rewrite Reqb_false. Qed.

Lemma fdiv_zero (a : R) : fdiv a 0 = Err NonFinite.
Proof. unfold fdiv; now rewrite Reqb_true. Qed.

(** ** The scalar conversion probability *)

Section PhotonConversionFacts.

Variables lightSpeed naturalElectron PhMeterIneV : R.
Variable fBufferGas : option TRestAxionBufferGas.

Local Abbreviation GTP :=
  (GammaTransmissionProbability lightSpeed naturalElectron PhMeterIneV fBufferGas).
Local Abbreviation BLHS := (BLHalfSquared lightSpeed naturalElectron).

Lemma BLHalfSquared_is_BL_half_squared (Bmag Lcoh : R) :
  BLHS Bmag Lcoh = (BL lightSpeed naturalElectron Bmag Lcoh / 2) ^ 2.
Proof. unfold BLHalfSquared, BL; cbv zeta. lra. Qed.

(** The medium values the code reads are those of the medium interface:
    the value the gas answers at [Ea], and zero for a null [fBufferGas]. *)
Lemma code_medium_values (Ea : R) :
  photonMass_of fBufferGas Ea = spec_mgamma fBufferGas Ea /\
  Gamma_of fBufferGas Ea = spec_Gamma fBufferGas Ea.
Proof. destruct fBufferGas as [gas |]; split; reflexivity. Qed.

Lemma code_M_denominator (Ea ma Lcoh : R) :
  Ea <> 0 ->
  let photonMass := photonMass_of fBufferGas Ea in
  let q := (ma * ma - photonMass * photonMass) / 2 / Ea / 1000 in
  let phi := q * (Lcoh / 1000 * PhMeterIneV) in
  let GammaL := Gamma_of fBufferGas Ea * (Lcoh / 1000) * 100 in
  phi = spec_phi PhMeterIneV fBufferGas Ea ma Lcoh /\
  GammaL = spec_GammaL fBufferGas Ea Lcoh /\
  phi * phi + GammaL * GammaL / 4 = spec_M_denominator PhMeterIneV fBufferGas Ea ma Lcoh.
Proof.
  intros HEa. cbv zeta.
  destruct (code_medium_values Ea) as [-> ->].
  unfold spec_M_denominator, spec_phi, spec_q, spec_GammaL.
  repeat split; field; assumption.
Qed.

(** C2, as the code has it.  For an axion energy [Ea > 0], masses [ma] and
    [mgamma] that are not both zero, and a denominator
    [phi^2 + (GammaL/2)^2] that is not zero, the scalar
    GammaTransmissionProbability returns, in exact real arithmetic,
    [M (BL/2)^2 (1 + e^(-GammaL) - 2 e^(-GammaL/2) cos phi)] with [q], [phi],
    [GammaL] and [M = 1 / (phi^2 + (GammaL/2)^2)] as the specification
    defines them, where [mgamma] and [Gamma] are the answers of the medium
    at [Ea], and zero without a medium. *)
Theorem GammaTransmissionProbability_van_Bibber (Ea Bmag ma Lcoh : R) :
  0 < Ea ->
  ~ (ma = 0 /\ spec_mgamma fBufferGas Ea = 0) ->
  spec_M_denominator PhMeterIneV fBufferGas Ea ma Lcoh <> 0 ->
  GammaTransmissionProbability lightSpeed naturalElectron PhMeterIneV fBufferGas
                               Ea Bmag ma Lcoh =
  Ok (spec_probability lightSpeed naturalElectron PhMeterIneV fBufferGas
                       Ea Bmag ma Lcoh).
Proof.
  intros HEa Hmass Hden.
  assert (HEa0 : Ea <> 0) by lra.
  destruct (code_M_denominator Ea ma Lcoh HEa0) as (Hphi & HGL & HM).
  cbv zeta in Hphi, HGL, HM.
  destruct (code_medium_values Ea) as [Hpm HG].
  assert (Hbranch : Reqb ma 0 && Reqb (photonMass_of fBufferGas Ea) 0 = false).
  { apply andb_false_iff.
    destruct (Req_dec_T ma 0) as [Hma | Hma].
    - right. apply Reqb_false. intros E. apply Hmass. split; [exact Hma |].
      now rewrite <- Hpm.
    - left. now apply Reqb_false. }
  unfold GammaTransmissionProbability. cbv zeta.
  rewrite Hbranch, (fdiv_ok _ Ea HEa0). cbn [bind].
  rewrite HM, (fdiv_ok _ _ Hden). cbn [bind].
  rewrite Hphi. f_equal.
  unfold spec_probability. cbv zeta.
  rewrite <- BLHalfSquared_is_BL_half_squared.
  replace (Gamma_of fBufferGas Ea * (Lcoh / 1000) * 100)
    with (spec_GammaL fBufferGas Ea Lcoh) by (symmetry; exact HGL).
  reflexivity.
Qed.


End PhotonConversionFacts.

(** C2, at the scenario of the specification with a massive axion: 2 T
    over 4000 mm, [Ea = 4.2] keV, [ma = 1] eV, vacuum. *)
Lemma GammaTransmissionProbability_van_Bibber_witness :
  0 < 4.2 /\
  ~ (1 = 0 /\ spec_mgamma None 4.2 = 0) /\
  spec_M_denominator REST_Physics.PhMeterIneV None 4.2 1 4000 <> 0 /\
  GammaTransmissionProbability
    REST_Physics.lightSpeed REST_Physics.naturalElectron REST_Physics.PhMeterIneV
    None 4.2 2 1 4000 =
  Ok (spec_probability
        REST_Physics.lightSpeed REST_Physics.naturalElectron REST_Physics.PhMeterIneV
        None 4.2 2 1 4000).
Proof.
  assert (H1 : 0 < 4.2) by lra.
  assert (H2 : ~ (1 = 0 /\ spec_mgamma None 4.2 = 0)) by (intros [H _]; lra).
  assert (H3 : spec_M_denominator REST_Physics.PhMeterIneV None 4.2 1 4000 <> 0).
  { unfold spec_M_denominator, spec_phi, spec_q, spec_GammaL, spec_mgamma, spec_Gamma,
      REST_Physics.PhMeterIneV.
    lra. }
  split; [exact H1 | split; [exact H2 | split; [exact H3 |]]].
  exact (GammaTransmissionProbability_van_Bibber
           REST_Physics.lightSpeed REST_Physics.naturalElectron
           REST_Physics.PhMeterIneV None 4.2 2 1 4000 H1 H2 H3).
Defined.

(** C2 as stated fails at a resonance without absorption.  In a gas that
    gives the photon the mass of the axion, [ma = mgamma = 1] eV, and does
    not absorb, the masses are not both zero, yet [phi = GammaL = 0]: the
    formula has no value ([M = 1 / 0]), the early return is not taken, and
    the function divides by zero and yields the non-finite outcome. *)
Theorem GammaTransmissionProbability_resonance_without_absorption :
  (~ (1 = 0 /\ spec_mgamma (Some resonant_gas) 4.2 = 0) /\
   spec_M_denominator REST_Physics.PhMeterIneV (Some resonant_gas) 4.2 1 4000 = 0) /\
  GammaTransmissionProbability
    REST_Physics.lightSpeed REST_Physics.naturalElectron REST_Physics.PhMeterIneV
    (Some resonant_gas) 4.2 2 1 4000 = Err NonFinite.
Proof.
  split; [split |].
  - intros [H _]. lra.
  - unfold spec_M_denominator, spec_phi, spec_q, spec_GammaL, spec_mgamma, spec_Gamma,
      resonant_gas.
    cbn [GetPhotonMass GetPhotonAbsorptionLength]. unfold Rdiv. ring.
  - unfold GammaTransmissionProbability, photonMass_of, Gamma_of, resonant_gas.
    cbv zeta. cbn [GetPhotonMass GetPhotonAbsorptionLength].
    rewrite (Reqb_false 1 0) by lra. cbn [andb].
    rewrite fdiv_ok by lra. cbn [bind].
    replace ((1 * 1 - 1 * 1) / 2 / 4.2 / 1000 * (4000 / 1000 * REST_Physics.PhMeterIneV) *
             ((1 * 1 - 1 * 1) / 2 / 4.2 / 1000 * (4000 / 1000 * REST_Physics.PhMeterIneV)) +
             0 * (4000 / 1000) * 100 * (0 * (4000 / 1000) * 100) / 4)
      with 0 by (unfold Rdiv; ring).
    now rewrite fdiv_zero.
Qed.


(** Deciding the tests of a concrete run. *)
Ltac R_test :=
  match goal with
  | |- context [Reqb ?a ?b] =>
      first [rewrite (Reqb_true a b) by lra | rewrite (Reqb_false a b) by lra]
  | |- context [Rleb ?a ?b] =>
      first [rewrite (Rleb_true a b) by lra | rewrite (Rleb_false a b) by lra]
  | |- context [Rltb ?a ?b] =>
      first [rewrite (Rltb_true a b) by lra | rewrite (Rltb_false a b) by lra]
  end.

(** ** Vectors *)

Lemma coord_set_coord (v : TVector3) (k : nat) (x : R) : (set_coord v k x).[k] = x.
Proof. destruct k as [| [| k]]; reflexivity. Qed.

Lemma set_coord_same (v : TVector3) (k : nat) (x : R) : x = v.[k] -> set_coord v k x = v.
Proof. intros ->. destruct v; destruct k as [| [| k]]; reflexivity. Qed.

Lemma V3eqb_eq (u v : TVector3) : V3eqb u v = true <-> u = v.
Proof.
  unfold V3eqb. rewrite !andb_true_iff, !Reqb_eq. destruct u, v; cbn.
  split.
  - intros [[-> ->] ->]. reflexivity.
  - intros H; injection H; auto.
Qed.

Lemma V3eqb_refl (v : TVector3) : V3eqb v v = true.
Proof. now apply V3eqb_eq. Qed.

Lemma V3eqb_neq (u v : TVector3) : V3eqb u v = false <-> u <> v.
Proof.
  rewrite <- V3eqb_eq. destruct (V3eqb u v); split; intros H; try discriminate; auto.
  now elim H.
Qed.

(** ** The boundary search: the scans *)

Section TraceFacts.

Variable GetMagneticField : R -> R -> R -> TVector3.

Local Abbreviation field_at := (FieldPropagationProcess.field_at GetMagneticField).
Local Abbreviation scan_to_field := (FieldPropagationProcess.scan_to_field GetMagneticField).
Local Abbreviation scan_out_of_field :=
  (FieldPropagationProcess.scan_out_of_field GetMagneticField).
Local Abbreviation FindOneVolume_axis_loop :=
  (FieldPropagationProcess.FindOneVolume_axis_loop GetMagneticField).
Local Abbreviation FindOneVolume_axis :=
  (FieldPropagationProcess.FindOneVolume_axis GetMagneticField).
Local Abbreviation FindOneVolume := (FieldPropagationProcess.FindOneVolume GetMagneticField).
Local Abbreviation FindFieldBoundaries :=
  (FieldPropagationProcess.FindFieldBoundaries GetMagneticField).

(** Where the field does not vanish the exit scan never stops by itself: it
    has no test on the domain. *)
Lemma scan_out_of_field_stuck (k : nat) (dir : TVector3) (dr : R) (fuel : nat) :
  forall pos,
    (forall n, V3eqb (field_at (set_coord pos k (pos.[k] + INR n * (dir.[k] * dr)))) zero3 = false) ->
    scan_out_of_field k dir dr fuel pos = Err OutOfFuel.
Proof.
  induction fuel as [| fuel IH]; intros pos Hfield; [reflexivity |].
  cbn [FieldPropagationProcess.scan_out_of_field].
  assert (H0 : V3eqb (field_at pos) zero3 = false).
  { specialize (Hfield O). cbn [INR] in Hfield.
    rewrite set_coord_same in Hfield by lra. exact Hfield. }
  rewrite H0. cbn [negb]. apply IH. intros n.
  specialize (Hfield (S n)). rewrite S_INR in Hfield.
  rewrite coord_set_coord.
  replace (set_coord (set_coord pos k (pos.[k] + dir.[k] * dr)) k
                     (pos.[k] + dir.[k] * dr + INR n * (dir.[k] * dr)))
    with (set_coord pos k (pos.[k] + (INR n + 1) * (dir.[k] * dr))); [exact Hfield |].
  destruct pos, k as [| [| k]]; cbn; f_equal; lra.
Qed.

(** With a non-zero field at the start the entry scan returns at once. *)
Lemma scan_to_field_in_field (k : nat) (dir : TVector3) (dr : R) (fuel : nat) (pos : TVector3) :
  V3eqb (field_at pos) zero3 = false ->
  scan_to_field k dir dr (S fuel) pos = Ok pos.
Proof.
  intros H. cbn [FieldPropagationProcess.scan_to_field]. now rewrite H.
Qed.

(** In a field that vanishes nowhere the halving rounds only step back, and
    the exit scan that follows them uses up any fuel. *)
Lemma FindOneVolume_axis_loop_everywhere_field
      (k : nat) (dir : TVector3) (minStep : R) (fuel : nat) :
  (forall x y z, V3eqb (GetMagneticField x y z) zero3 = false) ->
  0 <= dir.[k] ->
  forall n dr pos,
    0 <= dr ->
    -40000 + 2 * (dir.[k] * dr) <= pos.[k] <= 40000 ->
    FindOneVolume_axis_loop k dir minStep fuel n dr pos = Err OutOfFuel.
Proof.
  intros Hfield Hdir.
  induction n as [| n IH]; intros dr pos Hdr Hpos; [reflexivity |].
  cbn [FieldPropagationProcess.FindOneVolume_axis_loop].
  assert (Hprod : 0 <= dir.[k] * dr) by (apply Rmult_le_pos; assumption).
  destruct (Rltb minStep dr).
  - destruct fuel as [| fuel]; [reflexivity |].
    rewrite scan_to_field_in_field by apply Hfield. cbn [bind].
    rewrite (Rltb_false pos.[k]), (Rltb_false 40000) by lra. cbn [orb].
    apply IH; [lra |]. rewrite coord_set_coord. lra.
  - rewrite scan_out_of_field_stuck; [reflexivity |]. intros m. apply Hfield.
Qed.

(** C5. The boundary trace does not terminate for every field oracle: in a
    field that vanishes nowhere, an x-aligned ray started inside the domain
    makes FindOneVolume use up any fuel.  The halving rounds end, but the
    exit scan after them advances without ever testing the domain bound. *)
Theorem FindOneVolume_exit_scan_unbounded (fuel : nat) (x y z d minStep : R) :
  (forall x y z, V3eqb (GetMagneticField x y z) zero3 = false) ->
  0 <= d ->
  -40000 + 10 * d <= x + d * minStep / 2 <= 40000 ->
  FindOneVolume fuel (mkVector3 x y z) (mkVector3 d 0 0) minStep = Err OutOfFuel.
Proof.
  intros Hfield Hd Hx.
  unfold FieldPropagationProcess.FindOneVolume. cbn [coord fX fY fZ].
  rewrite (Reqb_true 0 0 eq_refl). cbn [andb].
  unfold FieldPropagationProcess.FindOneVolume_axis.
  apply FindOneVolume_axis_loop_everywhere_field; cbn; try assumption; lra.
Qed.

(** *** A ray without direction *)

Lemma scan_to_field_no_direction (k : nat) (dir : TVector3) (dr : R) :
  dir.[k] = 0 ->
  forall fuel pos,
    scan_to_field k dir dr fuel pos = Err OutOfFuel \/
    scan_to_field k dir dr fuel pos = Ok pos.
Proof.
  intros Hdir. induction fuel as [| fuel IH]; intros pos; [now left |].
  cbn [FieldPropagationProcess.scan_to_field].
  destruct (_ && _ && _); [| now right].
  rewrite set_coord_same by (rewrite Hdir; lra). apply IH.
Qed.

Lemma scan_out_of_field_no_direction (k : nat) (dir : TVector3) (dr : R) :
  dir.[k] = 0 ->
  forall fuel pos,
    scan_out_of_field k dir dr fuel pos = Err OutOfFuel \/
    scan_out_of_field k dir dr fuel pos = Ok pos.
Proof.
  intros Hdir. induction fuel as [| fuel IH]; intros pos; [now left |].
  cbn [FieldPropagationProcess.scan_out_of_field].
  destruct (negb _); [| now right].
  rewrite set_coord_same by (rewrite Hdir; lra). apply IH.
Qed.

(** Without a direction component along the scanned axis the position never
    moves: FindOneVolume either uses up its fuel or hands back the point it
    was given, as entry and as exit. *)
Lemma FindOneVolume_axis_loop_no_direction
      (k : nat) (dir : TVector3) (minStep : R) (fuel : nat) (pos : TVector3) :
  dir.[k] = 0 ->
  -40000 <= pos.[k] <= 40000 ->
  forall n dr,
    FindOneVolume_axis_loop k dir minStep fuel n dr pos = Err OutOfFuel \/
    FindOneVolume_axis_loop k dir minStep fuel n dr pos = Ok (pos, pos).
Proof.
  intros Hdir Hpos. induction n as [| n IH]; intros dr; [now left |].
  cbn [FieldPropagationProcess.FindOneVolume_axis_loop].
  destruct (Rltb minStep dr).
  - destruct (scan_to_field_no_direction k dir dr Hdir fuel pos) as [-> | ->];
      [now left |]. cbn [bind].
    rewrite (Rltb_false pos.[k]), (Rltb_false 40000) by lra. cbn [orb].
    rewrite set_coord_same by (rewrite Hdir; lra). apply IH.
  - rewrite set_coord_same by (rewrite Hdir; lra).
    destruct (scan_out_of_field_no_direction k dir dr Hdir fuel pos) as [-> | ->];
      [now left | now right].
Qed.

Lemma FindOneVolume_no_direction (fuel : nat) (pos : TVector3) (minStep : R) :
  -40000 <= pos.[0] <= 40000 ->
  FindOneVolume fuel pos zero3 minStep = Err OutOfFuel \/
  FindOneVolume fuel pos zero3 minStep = Ok (pos, pos).
Proof.
  intros Hpos. unfold FieldPropagationProcess.FindOneVolume. cbn [coord fX fY fZ zero3].
  rewrite (Reqb_true 0 0 eq_refl). cbn [andb].
  unfold FieldPropagationProcess.FindOneVolume_axis.
  rewrite set_coord_same by (cbn; lra).
  now apply FindOneVolume_axis_loop_no_direction.
Qed.

Lemma FindFieldBoundaries_loop_no_direction (fuel : nat) (pos : TVector3) (minStep : R) :
  -40000 <= pos.[0] <= 40000 ->
  FindOneVolume fuel pos zero3 minStep = Ok (pos, pos) ->
  forall n acc,
    FieldPropagationProcess.FindFieldBoundaries_loop
      GetMagneticField (FieldPropagationProcess.inside_axis 0)
      zero3 minStep fuel n (pos, pos) acc = Err OutOfFuel.
Proof.
  intros Hpos Hsame. induction n as [| n IH]; intros acc; [reflexivity |].
  cbn [FieldPropagationProcess.FindFieldBoundaries_loop fst snd].
  unfold FieldPropagationProcess.inside_axis at 1.
  rewrite !Rleb_true by lra. cbn [andb].
  rewrite Hsame. cbn [bind]. apply IH.
Qed.

Lemma FindFieldBoundaries_no_direction (fuel : nat) (pos : TVector3) (minStep : R) :
  FindFieldBoundaries fuel pos zero3 minStep = Err OutOfFuel.
Proof.
  unfold FieldPropagationProcess.FindFieldBoundaries. cbn [coord fX fY fZ zero3].
  rewrite (Reqb_true 0 0 eq_refl). cbn [andb].
  set (ms := if Reqb minStep (-1) then 0.01 else minStep).
  set (p0 := set_coord pos 0 (- 0 * 25000)).
  assert (Hp0 : -40000 <= p0.[0] <= 40000).
  { unfold p0. rewrite coord_set_coord. lra. }
  unfold FieldPropagationProcess.FindFieldBoundaries_from.
  destruct (FindOneVolume_no_direction fuel p0 ms Hp0) as [H | H];
    rewrite H; [reflexivity |].
  cbn [bind fst snd].
  unfold FieldPropagationProcess.outside_axis.
  rewrite (Rltb_false p0.[0]), (Rltb_false 40000) by lra. cbn [orb].
  rewrite H. cbn [bind].
  now apply FindFieldBoundaries_loop_no_direction.
Qed.

(** *** What the scans guarantee when they return *)

Lemma set_coord_twice (v : TVector3) (k : nat) (a b : R) :
  set_coord (set_coord v k a) k b = set_coord v k b.
Proof. destruct k as [| [| k]]; reflexivity. Qed.

Lemma scan_to_field_stops (k : nat) (dir : TVector3) (dr : R) :
  forall fuel pos pos',
    scan_to_field k dir dr fuel pos = Ok pos' ->
    V3eqb (field_at pos') zero3 && Rleb (-40000) pos'.[k] && Rleb pos'.[k] 40000 = false.
Proof.
  induction fuel as [| fuel IH]; intros pos pos' H; [discriminate |].
  cbn [FieldPropagationProcess.scan_to_field] in H.
  destruct (_ && _ && _) eqn:Hc.
  - eapply IH; eassumption.
  - injection H as <-. exact Hc.
Qed.

Lemma scan_out_of_field_stops (k : nat) (dir : TVector3) (dr : R) :
  forall fuel pos pos',
    scan_out_of_field k dir dr fuel pos = Ok pos' ->
    field_at pos' = zero3.
Proof.
  induction fuel as [| fuel IH]; intros pos pos' H; [discriminate |].
  cbn [FieldPropagationProcess.scan_out_of_field] in H.
  destruct (V3eqb (field_at pos) zero3) eqn:Hc; cbn [negb] in H.
  - injection H as <-. now apply V3eqb_eq.
  - eapply IH; eassumption.
Qed.

(** The halving rounds of the axis-aligned cases.  Once a round has been
    completed, [pos] is the last point found with field, stepped back by
    twice the current [dr]. *)
Lemma FindOneVolume_axis_loop_result
      (k : nat) (dir : TVector3) (minStep : R) (fuel : nat) :
  forall n dr pos b,
    (minStep < dr \/
     exists p, field_at p <> zero3 /\
               FieldPropagationProcess.outside_axis k p = false /\
               pos = set_coord p k (p.[k] - dir.[k] * (dr * 2))) ->
    FindOneVolume_axis_loop k dir minStep fuel n dr pos = Ok b ->
    (FieldPropagationProcess.outside_axis k (fst b) = true /\ snd b = zero3) \/
    (FieldPropagationProcess.outside_axis k (fst b) = false /\
     field_at (fst b) <> zero3 /\ field_at (snd b) = zero3).
Proof.
  induction n as [| n IH]; intros dr pos b Hinv H; [discriminate |].
  cbn [FieldPropagationProcess.FindOneVolume_axis_loop] in H.
  destruct (Rltb minStep dr) eqn:Hlt.
  - destruct (scan_to_field k dir dr fuel pos) as [pos1 |] eqn:Hscan; [| discriminate].
    cbn [bind] in H.
    destruct (Rltb pos1.[k] (-40000) || Rltb 40000 pos1.[k]) eqn:Hout.
    + injection H as <-. left. now split.
    + apply IH in H; [exact H |]. right. exists pos1. repeat split.
      * apply scan_to_field_stops in Hscan.
        apply orb_false_iff in Hout. destruct Hout as [Ho1 Ho2].
        intros Hz. rewrite Hz, V3eqb_refl in Hscan. cbn [andb] in Hscan.
        apply andb_false_iff in Hscan.
        destruct Hscan as [Hs | Hs].
        -- unfold Rleb in Hs. unfold Rltb in Ho1.
           destruct (Rle_dec (-40000) pos1.[k]), (Rlt_dec pos1.[k] (-40000));
             try discriminate; lra.
        -- unfold Rleb in Hs. unfold Rltb in Ho2.
           destruct (Rle_dec pos1.[k] 40000), (Rlt_dec 40000 pos1.[k]);
             try discriminate; lra.
      * exact Hout.
      * f_equal. lra.
  - destruct Hinv as [Hlt' | (p & Hp & Hin & ->)].
    + apply Rltb_true in Hlt'. congruence.
    + rewrite set_coord_twice, coord_set_coord in H.
      rewrite set_coord_same in H by lra.
      destruct (scan_out_of_field k dir dr fuel p) as [pos2 |] eqn:Hscan; [| discriminate].
      cbn [bind] in H. injection H as <-. right. cbn [fst snd].
      repeat split; try assumption.
      eapply scan_out_of_field_stops; eassumption.
Qed.

Lemma FindOneVolume_axis_result (k : nat) (fuel : nat) (pos dir : TVector3) (minStep : R) (b : boundary) :
  minStep < 5 ->
  FindOneVolume_axis k fuel pos dir minStep = Ok b ->
  (FieldPropagationProcess.outside_axis k (fst b) = true /\ snd b = zero3) \/
  (FieldPropagationProcess.outside_axis k (fst b) = false /\
   field_at (fst b) <> zero3 /\ field_at (snd b) = zero3).
Proof.
  intros Hms H. unfold FieldPropagationProcess.FindOneVolume_axis in H.
  eapply FindOneVolume_axis_loop_result; [| exact H]. now left.
Qed.

(** *** The general case *)

Local Abbreviation move_to_y := FieldPropagationProcess.move_to_y.
Local Abbreviation scan_to_field_y :=
  (FieldPropagationProcess.scan_to_field_y GetMagneticField).
Local Abbreviation scan_out_of_field_y :=
  (FieldPropagationProcess.scan_out_of_field_y GetMagneticField).
Local Abbreviation FindOneVolume_general_loop :=
  (FieldPropagationProcess.FindOneVolume_general_loop GetMagneticField).

(** Moving along the ray by [s] in y and then by [-s] leads back. *)
Lemma move_to_y_back (dir p pos : TVector3) (s : R) :
  move_to_y dir p (p.[1] + s) = Ok pos ->
  move_to_y dir pos (pos.[1] - s) = Ok p.
Proof.
  unfold FieldPropagationProcess.move_to_y, fdiv.
  destruct (Reqb dir.[1] 0) eqn:Hd; [discriminate |].
  cbn [bind]. intros H. injection H as <-.
  assert (Hd' : dir.[1] <> 0).
  { intros E. rewrite (Reqb_true _ _ E) in Hd. discriminate. }
  destruct p as [px py pz], dir as [dx dy dz]. cbn in *.
  f_equal. f_equal; field; assumption.
Qed.

Lemma scan_to_field_y_stops (dir : TVector3) (dr : R) :
  forall fuel pos pos',
    scan_to_field_y dir dr fuel pos = Ok pos' ->
    V3eqb (field_at pos') zero3 && Rltb 0 pos'.[1] = false.
Proof.
  induction fuel as [| fuel IH]; intros pos pos' H; [discriminate |].
  cbn [FieldPropagationProcess.scan_to_field_y] in H.
  destruct (_ && _) eqn:Hc.
  - destruct (move_to_y dir pos (pos.[1] - dr)) as [pos1 |]; [| discriminate].
    cbn [bind] in H. eapply IH; eassumption.
  - injection H as <-. exact Hc.
Qed.

Lemma scan_out_of_field_y_stops (dir : TVector3) (dr : R) :
  forall fuel pos pos',
    scan_out_of_field_y dir dr fuel pos = Ok pos' ->
    field_at pos' = zero3.
Proof.
  induction fuel as [| fuel IH]; intros pos pos' H; [discriminate |].
  cbn [FieldPropagationProcess.scan_out_of_field_y] in H.
  destruct (V3eqb (field_at pos) zero3) eqn:Hc; cbn [negb] in H.
  - injection H as <-. now apply V3eqb_eq.
  - destruct (move_to_y dir pos (pos.[1] - dr)) as [pos1 |]; [| discriminate].
    cbn [bind] in H. eapply IH; eassumption.
Qed.

Lemma FindOneVolume_general_loop_result (dir : TVector3) (minStep : R) (fuel : nat) :
  forall n dr pos b,
    (minStep < dr \/
     exists p, field_at p <> zero3 /\
               FieldPropagationProcess.outside_general p = false /\
               move_to_y dir p (p.[1] + dr * 2) = Ok pos) ->
    FindOneVolume_general_loop dir minStep fuel n dr pos = Ok b ->
    (FieldPropagationProcess.outside_general (fst b) = true /\ snd b = zero3) \/
    (FieldPropagationProcess.outside_general (fst b) = false /\
     field_at (fst b) <> zero3 /\ field_at (snd b) = zero3).
Proof.
  induction n as [| n IH]; intros dr pos b Hinv H; [discriminate |].
  cbn [FieldPropagationProcess.FindOneVolume_general_loop] in H.
  destruct (Rltb minStep dr) eqn:Hlt.
  - destruct (scan_to_field_y dir dr fuel pos) as [pos1 |] eqn:Hscan; [| discriminate].
    cbn [bind] in H.
    destruct (Rleb pos1.[1] 0) eqn:Hout.
    + injection H as <-. left. now split.
    + destruct (move_to_y dir pos1 (pos1.[1] + dr)) as [pos2 |] eqn:Hmove; [| discriminate].
      cbn [bind] in H.
      apply IH in H; [exact H |]. right. exists pos1. repeat split.
      * apply scan_to_field_y_stops in Hscan.
        intros Hz. rewrite Hz, V3eqb_refl in Hscan. cbn [andb] in Hscan.
        unfold Rleb in Hout. unfold Rltb in Hscan.
        destruct (Rle_dec pos1.[1] 0), (Rlt_dec 0 pos1.[1]); try discriminate; lra.
      * exact Hout.
      * replace (dr / 2 * 2) with dr by lra. exact Hmove.
  - destruct Hinv as [Hlt' | (p & Hp & Hin & Hmove)].
    + apply Rltb_true in Hlt'. congruence.
    + apply move_to_y_back in Hmove. rewrite Hmove in H. cbn [bind] in H.
      destruct (scan_out_of_field_y dir dr fuel p) as [pos2 |] eqn:Hscan; [| discriminate].
      cbn [bind] in H. injection H as <-. right. cbn [fst snd].
      repeat split; try assumption.
      eapply scan_out_of_field_y_stops; eassumption.
Qed.

(** FindOneVolume, all three cases: for [minStep < 5] a returned pair is
    either the "no further segment" pair or a real segment. *)
Lemma FindOneVolume_result (fuel : nat) (pos dir : TVector3) (minStep : R) (b : boundary) :
  minStep < 5 ->
  FindOneVolume fuel pos dir minStep = Ok b ->
  no_further_segment dir b \/ real_segment GetMagneticField dir b.
Proof.
  intros Hms H.
  unfold no_further_segment, real_segment, outside_search_domain.
  unfold FieldPropagationProcess.FindOneVolume in H.
  destruct (Reqb dir.[1] 0 && Reqb dir.[2] 0).
  - eapply FindOneVolume_axis_result; eassumption.
  - destruct (Reqb dir.[0] 0 && Reqb dir.[1] 0).
    + eapply FindOneVolume_axis_result; eassumption.
    + unfold FieldPropagationProcess.FindOneVolume_general in H.
      eapply FindOneVolume_general_loop_result; [| exact H]. now left.
Qed.

Lemma real_segment_distinct (dir : TVector3) (b : boundary) :
  real_segment GetMagneticField dir b -> fst b <> snd b.
Proof.
  intros (_ & Hin & Hout) E. apply Hin. rewrite E. exact Hout.
Qed.

(** *** FindFieldBoundaries keeps the real segments only *)

Lemma inside_axis_not_outside (k : nat) (p : TVector3) :
  FieldPropagationProcess.inside_axis k p = true ->
  FieldPropagationProcess.outside_axis k p = false.
Proof.
  unfold FieldPropagationProcess.inside_axis, FieldPropagationProcess.outside_axis.
  rewrite andb_true_iff, !Rleb_le. intros [H1 H2].
  now rewrite !Rltb_false.
Qed.

Lemma inside_general_not_outside (p : TVector3) :
  FieldPropagationProcess.inside_general p = true ->
  FieldPropagationProcess.outside_general p = false.
Proof.
  unfold FieldPropagationProcess.inside_general, FieldPropagationProcess.outside_general.
  rewrite Rltb_lt. intros H. now apply Rleb_false.
Qed.

Lemma FindFieldBoundaries_loop_real
      (inside : TVector3 -> bool) (direction : TVector3) (minStep : R) (fuel : nat) :
  minStep < 5 ->
  (forall p, inside p = true -> outside_search_domain direction p = false) ->
  forall n bInt acc segs,
    no_further_segment direction bInt \/ real_segment GetMagneticField direction bInt ->
    Forall (real_segment GetMagneticField direction) acc ->
    FieldPropagationProcess.FindFieldBoundaries_loop
      GetMagneticField inside direction minStep fuel n bInt acc = Ok segs ->
    Forall (real_segment GetMagneticField direction) segs.
Proof.
  intros Hms Hinside.
  induction n as [| n IH]; intros bInt acc segs HbInt Hacc H; [discriminate |].
  cbn [FieldPropagationProcess.FindFieldBoundaries_loop] in H.
  destruct (inside (fst bInt)) eqn:Hin.
  - destruct (FindOneVolume fuel (snd bInt) direction minStep) as [bInt' |] eqn:Hnext;
      [| discriminate].
    cbn [bind] in H. eapply IH; [| | exact H].
    + eapply FindOneVolume_result; eassumption.
    + apply Forall_app. split; [exact Hacc |]. constructor; [| constructor].
      destruct HbInt as [[Hout _] | Hreal]; [| exact Hreal].
      apply Hinside in Hin. congruence.
  - injection H as <-. exact Hacc.
Qed.

Lemma FindFieldBoundaries_from_real
      (outside inside : TVector3 -> bool) (fuel : nat)
      (posInitial direction : TVector3) (minStep : R) (segs : list boundary) :
  minStep < 5 ->
  (forall p, outside p = outside_search_domain direction p) ->
  (forall p, inside p = true -> outside p = false) ->
  FieldPropagationProcess.FindFieldBoundaries_from
    GetMagneticField outside inside fuel posInitial direction minStep = Ok segs ->
  Forall (real_segment GetMagneticField direction) segs.
Proof.
  intros Hms Hout Hin H.
  unfold FieldPropagationProcess.FindFieldBoundaries_from in H.
  destruct (FindOneVolume fuel posInitial direction minStep) as [b1 |] eqn:H1;
    [| discriminate].
  cbn [bind] in H.
  destruct (outside (fst b1)) eqn:Ho.
  - injection H as <-. constructor.
  - destruct (FindOneVolume fuel (snd b1) direction minStep) as [b2 |] eqn:H2;
      [| discriminate].
    cbn [bind] in H.
    eapply FindFieldBoundaries_loop_real; [exact Hms | | | | exact H].
    + intros p Hp. rewrite <- Hout. now apply Hin.
    + eapply FindOneVolume_result; eassumption.
    + cbn [app]. constructor; [| constructor].
      destruct (FindOneVolume_result fuel posInitial direction minStep b1 Hms H1)
        as [[Hb1 _] | Hreal]; [| exact Hreal].
      rewrite <- Hout in Hb1. congruence.
Qed.

(** C8, as the code has it.  FindOneVolume reports "no further segment" as
    the pair [(pos, (0,0,0))] with [pos] outside the search domain, and
    FindFieldBoundaries leaves that pair out of the list it returns.  In
    exact arithmetic and for [minStep < 5], every pair of the returned list
    is a real segment: its entry point is inside the search domain and has
    field, its exit point has none, so entry and exit differ. *)
Theorem FindFieldBoundaries_returns_real_segments
        (fuel : nat) (posInitial direction : TVector3) (minStep : R)
        (segs : list boundary) :
  minStep < 5 ->
  FindFieldBoundaries fuel posInitial direction minStep = Ok segs ->
  Forall (fun b => real_segment GetMagneticField direction b /\ fst b <> snd b) segs.
Proof.
  intros Hms H.
  assert (Hreal : Forall (real_segment GetMagneticField direction) segs).
  { unfold FieldPropagationProcess.FindFieldBoundaries in H.
    assert (Hms' : (if Reqb minStep (-1) then 0.01 else minStep) < 5)
      by (destruct (Reqb minStep (-1)); lra).
    destruct (Reqb direction.[1] 0 && Reqb direction.[2] 0) eqn:Hx.
    - eapply FindFieldBoundaries_from_real; [exact Hms' | | | exact H].
      + intros p. unfold outside_search_domain. now rewrite Hx.
      + apply inside_axis_not_outside.
    - destruct (Reqb direction.[0] 0 && Reqb direction.[1] 0) eqn:Hz.
      + eapply FindFieldBoundaries_from_real; [exact Hms' | | | exact H].
        * intros p. unfold outside_search_domain. now rewrite Hx, Hz.
        * apply inside_axis_not_outside.
      + destruct (fdiv (10000 - posInitial.[1]) direction.[1]) as [t |]; [| discriminate].
        cbn [bind] in H.
        eapply FindFieldBoundaries_from_real; [exact Hms' | | | exact H].
        * intros p. unfold outside_search_domain. now rewrite Hx, Hz.
        * apply inside_general_not_outside. }
  eapply Forall_impl; [| exact Hreal].
  intros b Hb. split; [exact Hb |]. eapply real_segment_distinct; exact Hb.
Qed.

(** *** Running the scans over many steps at once *)

(** [pos] advanced [i] steps of length [dir[k] * dr] along coordinate [k]. *)
Lemma scan_to_field_steps (k : nat) (dir : TVector3) (dr : R) (m : nat) :
  forall fuel pos,
    (m < fuel)%nat ->
    (forall i, (i < m)%nat ->
       let p := set_coord pos k (pos.[k] + INR i * (dir.[k] * dr)) in
       field_at p = zero3 /\ -40000 <= p.[k] <= 40000) ->
    (let p := set_coord pos k (pos.[k] + INR m * (dir.[k] * dr)) in
     field_at p <> zero3 \/ p.[k] < -40000 \/ 40000 < p.[k]) ->
    scan_to_field k dir dr fuel pos =
    Ok (set_coord pos k (pos.[k] + INR m * (dir.[k] * dr))).
Proof.
  induction m as [| m IH]; intros fuel pos Hfuel Hin Hstop.
  - destruct fuel as [| fuel]; [lia |].
    cbn [FieldPropagationProcess.scan_to_field].
    cbv zeta in Hstop. cbn [INR] in Hstop |- *.
    rewrite set_coord_same in Hstop by lra.
    rewrite (set_coord_same pos k (pos.[k] + 0 * (dir.[k] * dr))) by lra.
    replace (V3eqb (field_at pos) zero3 && Rleb (-40000) pos.[k] && Rleb pos.[k] 40000)
      with false; [reflexivity |].
    symmetry. destruct Hstop as [H | [H | H]].
    + apply V3eqb_neq in H. now rewrite H.
    + rewrite (Rleb_false (-40000)) by lra. now rewrite andb_false_r.
    + rewrite (Rleb_false pos.[k]) by lra. now rewrite andb_false_r.
  - destruct fuel as [| fuel]; [lia |].
    cbn [FieldPropagationProcess.scan_to_field].
    destruct (Hin O ltac:(lia)) as [Hf [Hlo Hhi]]. cbn [INR] in Hf, Hlo, Hhi.
    rewrite set_coord_same in Hf by lra.
    rewrite coord_set_coord in Hlo, Hhi.
    rewrite Hf, V3eqb_refl, !Rleb_true by lra. cbn [andb].
    rewrite IH.
    + rewrite set_coord_twice, coord_set_coord. do 2 f_equal. rewrite S_INR. ring.
    + lia.
    + intros i Hi. cbv zeta. rewrite set_coord_twice, !coord_set_coord.
      specialize (Hin (S i) ltac:(lia)). cbv zeta in Hin.
      rewrite coord_set_coord, S_INR in Hin.
      replace (pos.[k] + dir.[k] * dr + INR i * (dir.[k] * dr))
        with (pos.[k] + (INR i + 1) * (dir.[k] * dr)) by ring.
      exact Hin.
    + cbv zeta in *. rewrite set_coord_twice, !coord_set_coord.
      rewrite coord_set_coord, S_INR in Hstop.
      replace (pos.[k] + dir.[k] * dr + INR m * (dir.[k] * dr))
        with (pos.[k] + (INR m + 1) * (dir.[k] * dr)) by ring.
      exact Hstop.
Qed.

Lemma scan_out_of_field_steps (k : nat) (dir : TVector3) (dr : R) (m : nat) :
  forall fuel pos,
    (m < fuel)%nat ->
    (forall i, (i < m)%nat ->
       field_at (set_coord pos k (pos.[k] + INR i * (dir.[k] * dr))) <> zero3) ->
    field_at (set_coord pos k (pos.[k] + INR m * (dir.[k] * dr))) = zero3 ->
    scan_out_of_field k dir dr fuel pos =
    Ok (set_coord pos k (pos.[k] + INR m * (dir.[k] * dr))).
Proof.
  induction m as [| m IH]; intros fuel pos Hfuel Hin Hstop.
  - destruct fuel as [| fuel]; [lia |].
    cbn [FieldPropagationProcess.scan_out_of_field].
    cbn [INR] in Hstop |- *.
    rewrite set_coord_same in Hstop by lra.
    rewrite (set_coord_same pos k (pos.[k] + 0 * (dir.[k] * dr))) by lra.
    now rewrite Hstop, V3eqb_refl.
  - destruct fuel as [| fuel]; [lia |].
    cbn [FieldPropagationProcess.scan_out_of_field].
    pose proof (Hin O ltac:(lia)) as Hf. cbn [INR] in Hf.
    rewrite set_coord_same in Hf by lra.
    apply V3eqb_neq in Hf. rewrite Hf. cbn [negb].
    rewrite IH.
    + rewrite set_coord_twice, coord_set_coord. do 2 f_equal. rewrite S_INR. ring.
    + lia.
    + intros i Hi. rewrite set_coord_twice, coord_set_coord.
      specialize (Hin (S i) ltac:(lia)). rewrite S_INR in Hin.
      replace (pos.[k] + dir.[k] * dr + INR i * (dir.[k] * dr))
        with (pos.[k] + (INR i + 1) * (dir.[k] * dr)) by ring.
      exact Hin.
    + rewrite set_coord_twice, coord_set_coord. rewrite S_INR in Hstop.
      replace (pos.[k] + dir.[k] * dr + INR m * (dir.[k] * dr))
        with (pos.[k] + (INR m + 1) * (dir.[k] * dr)) by ring.
      exact Hstop.
Qed.

(** One round of the halving loop, for a positive round counter. *)
Lemma FindOneVolume_axis_loop_round
      (k : nat) (dir : TVector3) (minStep : R) (fuel n : nat) (dr : R) (pos : TVector3) :
  FindOneVolume_axis_loop k dir minStep fuel (S n) dr pos =
  if Rltb minStep dr then
    pos <- scan_to_field k dir dr fuel pos ;;
    if Rltb pos.[k] (-40000) || Rltb 40000 pos.[k] then Ok (pos, mkVector3 0 0 0)
    else FindOneVolume_axis_loop k dir minStep fuel n (dr / 2)
                                 (set_coord pos k (pos.[k] - dir.[k] * dr))
  else
    let pos := set_coord pos k (pos.[k] + dir.[k] * dr * 2) in
    pos' <- scan_out_of_field k dir dr fuel pos ;;
    Ok (pos, pos').
Proof. reflexivity. Qed.

End TraceFacts.

(** ** Concrete runs of the boundary search *)

(** C5, at a concrete input: the uniform field, a ray along x from the
    origin, [minStep = 0.01]. *)
Lemma FindOneVolume_exit_scan_unbounded_witness :
  (forall x y z, V3eqb (uniform_field x y z) zero3 = false) /\
  0 <= 1 /\
  -40000 + 10 * 1 <= 0 + 1 * 0.01 / 2 <= 40000 /\
  FieldPropagationProcess.FindOneVolume
    uniform_field 1000 (mkVector3 0 0 0) (mkVector3 1 0 0) 0.01 = Err OutOfFuel.
Proof.
  assert (H1 : forall x y z, V3eqb (uniform_field x y z) zero3 = false).
  { intros x y z. apply V3eqb_neq. unfold uniform_field, zero3. intros E.
    injection E. lra. }
  assert (H2 : 0 <= 1) by lra.
  assert (H3 : -40000 + 10 * 1 <= 0 + 1 * 0.01 / 2 <= 40000) by lra.
  split; [exact H1 | split; [exact H2 | split; [exact H3 |]]].
  exact (FindOneVolume_exit_scan_unbounded uniform_field 1000 0 0 0 1 0.01 H1 H2 H3).
Defined.

(** C8 as stated fails: with no field anywhere, a ray along x started at
    [x = 39999] with [minStep = 1] leaves the search domain after one coarse
    step, and FindOneVolume returns a pair all the same, its second point
    being the zero vector. *)
Lemma FindOneVolume_returns_zero_vector_sentinel :
  FieldPropagationProcess.FindOneVolume
    no_field 2 (mkVector3 39999 0 0) (mkVector3 1 0 0) 1 =
  Ok (mkVector3 40004.5 0 0, mkVector3 0 0 0).
Proof.
  unfold FieldPropagationProcess.FindOneVolume, FieldPropagationProcess.FindOneVolume_axis.
  cbn [coord set_coord fX fY fZ].
  repeat R_test. cbn [andb].
  rewrite FindOneVolume_axis_loop_round. R_test.
  rewrite (scan_to_field_steps no_field 0 _ _ 1).
  - cbn [coord set_coord fX fY fZ INR bind]. repeat R_test. cbn [orb].
    do 3 f_equal. lra.
  - lia.
  - intros i Hi. assert (i = O) by lia. subst i. cbn. split; [reflexivity | lra].
  - cbn. lra.
Qed.

Lemma INR_crossing_steps : INR crossing_steps = 9999.
Proof. unfold crossing_steps. rewrite mult_INR, !INR_IZR_INZ. simpl. lra. Qed.

Lemma edge_field_in (x y z : R) : x < -39990 -> edge_field x y z <> zero3.
Proof.
  intros H. unfold edge_field. rewrite Rltb_true by lra.
  unfold zero3. intros E. injection E. lra.
Qed.

Lemma edge_field_out (x y z : R) : -39990 <= x -> edge_field x y z = zero3.
Proof. intros H. unfold edge_field. now rewrite Rltb_false by lra. Qed.

(** The first call: the ray starts inside the field, 3.2 from the domain
    edge; one halving round, then two exit steps of 4. *)
Lemma edge_field_first_volume (fuel : nat) :
  (3 <= fuel)%nat ->
  FieldPropagationProcess.FindOneVolume
    edge_field fuel (mkVector3 (-40000) 0 0) (mkVector3 1.6 0 0) 4 =
  Ok (mkVector3 (-39996.8) 0 0, mkVector3 (-39988.8) 0 0).
Proof.
  intros Hfuel. destruct fuel as [| [| [| fuel]]]; try lia.
  unfold FieldPropagationProcess.FindOneVolume, FieldPropagationProcess.FindOneVolume_axis.
  cbn [coord set_coord fX fY fZ].
  repeat R_test. cbn [andb].
  rewrite FindOneVolume_axis_loop_round. R_test.
  rewrite (scan_to_field_steps edge_field 0 _ _ 0).
  2: lia.
  2: intros i Hi; lia.
  2: { cbn. left. apply edge_field_in. cbn [coord fX]. lra. }
  cbn [coord set_coord fX fY fZ INR bind]. repeat R_test. cbn [orb].
  rewrite FindOneVolume_axis_loop_round. R_test.
  cbv zeta. cbn [coord set_coord fX fY fZ].
  rewrite (scan_out_of_field_steps edge_field 0 _ _ 2).
  2: lia.
  2: { intros i Hi. cbn [coord set_coord fX fY fZ]. apply edge_field_in. cbn [coord fX].
       assert (INR i <= 1). { change 1 with (INR 1). apply le_INR. lia. }
       pose proof (pos_INR i). nra. }
  2: { cbn. apply edge_field_out. cbn [coord fX]. lra. }
  cbn [coord set_coord fX fY fZ INR bind]. do 2 f_equal; f_equal; lra.
Qed.

(** The second call: from the exit point on there is no field, and 9999
    coarse steps of 8 lead out of the search domain. *)
Lemma edge_field_second_volume :
  exists p,
    FieldPropagationProcess.FindOneVolume
      edge_field (S crossing_steps)
      (mkVector3 (-39988.8) 0 0) (mkVector3 1.6 0 0) 4 = Ok (p, zero3) /\
    FieldPropagationProcess.inside_axis 0 p = false.
Proof.
  eexists.
  unfold FieldPropagationProcess.FindOneVolume, FieldPropagationProcess.FindOneVolume_axis.
  cbn [coord set_coord fX fY fZ].
  repeat R_test. cbn [andb].
  rewrite FindOneVolume_axis_loop_round. R_test.
  rewrite (scan_to_field_steps edge_field 0 _ _ crossing_steps).
  2: lia.
  2: { intros i Hi. cbv zeta. cbn [coord set_coord fX fY fZ].
       assert (INR i + 1 <= 9999).
       { rewrite <- INR_crossing_steps, <- S_INR. apply le_INR. lia. }
       pose proof (pos_INR i). split.
       - apply edge_field_out. cbn [coord fX]. lra.
       - lra. }
  2: { cbv zeta. cbn [coord set_coord fX fY fZ]. rewrite INR_crossing_steps.
       right. right. lra. }
  cbn [coord set_coord fX fY fZ bind]. rewrite INR_crossing_steps.
  rewrite (Rltb_true 40000) by lra. rewrite orb_true_r.
  split; [reflexivity |].
  unfold FieldPropagationProcess.inside_axis. cbn [coord fX].
  rewrite (Rleb_false _ 40000) by lra. now rewrite andb_false_r.
Qed.

Lemma edge_field_boundaries :
  FieldPropagationProcess.FindFieldBoundaries
    edge_field (S crossing_steps) (mkVector3 0 0 0) (mkVector3 1.6 0 0) 4 =
  Ok [(mkVector3 (-39996.8) 0 0, mkVector3 (-39988.8) 0 0)].
Proof.
  unfold FieldPropagationProcess.FindFieldBoundaries.
  cbn [coord set_coord fX fY fZ]. repeat R_test. cbn [andb].
  replace (- (1.6) * 25000) with (-40000) by lra.
  unfold FieldPropagationProcess.FindFieldBoundaries_from.
  rewrite edge_field_first_volume by (unfold crossing_steps; lia).
  cbn [bind fst snd app].
  unfold FieldPropagationProcess.outside_axis at 1. cbn [coord fX].
  repeat R_test. cbn [orb].
  destruct edge_field_second_volume as (p & -> & Hp).
  cbn [bind FieldPropagationProcess.FindFieldBoundaries_loop fst].
  now rewrite Hp.
Qed.

(** C8, at a concrete input: the ray along x through [edge_field] meets one
    segment, from [x = -39996.8] to [x = -39988.8]. *)
Lemma FindFieldBoundaries_returns_real_segments_witness :
  4 < 5 /\
  FieldPropagationProcess.FindFieldBoundaries
    edge_field (S crossing_steps) (mkVector3 0 0 0) (mkVector3 1.6 0 0) 4 =
  Ok [(mkVector3 (-39996.8) 0 0, mkVector3 (-39988.8) 0 0)] /\
  Forall (fun b => real_segment edge_field (mkVector3 1.6 0 0) b /\ fst b <> snd b)
         [(mkVector3 (-39996.8) 0 0, mkVector3 (-39988.8) 0 0)].
Proof.
  assert (H1 : 4 < 5) by lra.
  split; [exact H1 | split; [exact edge_field_boundaries |]].
  exact (FindFieldBoundaries_returns_real_segments
           edge_field (S crossing_steps) (mkVector3 0 0 0) (mkVector3 1.6 0 0) 4
           _ H1 edge_field_boundaries).
Defined.

(** ** GetFieldVector *)

(** C4 fails on the code for [N >= 3].  With [in = (0,0,0)], [out = (2,0,0)]
    and [N = 3] the three points read are [x = 0], [x = 1] and [x = 3]: the
    loop adds [i/(N-1)] of the segment to the point of the round before, not
    to the entry point, so the last sample lies beyond the exit point
    [x = 2]. *)
Theorem GetFieldVector_points_overshoot :
  FieldPropagationProcess.GetFieldVector_points (mkVector3 0 0 0) (mkVector3 2 0 0) 3 =
  [mkVector3 0 0 0; mkVector3 1 0 0; mkVector3 3 0 0].
Proof.
  unfold FieldPropagationProcess.GetFieldVector_points.
  cbn [Nat.eqb Nat.sub FieldPropagationProcess.GetFieldVector_loop].
  unfold V3add, V3scale, V3sub. cbn [fX fY fZ INR].
  repeat (f_equal; try lra).
Qed.

(** ** ProcessEvent *)

Lemma at_index_length {A : Type} (v : list A) : at_index v (length v) = Err OutOfRange.
Proof. induction v as [| a v IH]; [reflexivity | exact IH]. Qed.

Section ProcessEventFacts.

Variable GetMagneticField : R -> R -> R -> TVector3.
Variables lightSpeed naturalElectron PhMeterIneV : R.
Variable fBufferGas : option TRestAxionBufferGas.
Variable minStep_default : R.

Local Abbreviation ProcessEvent :=
  (FieldPropagationProcess.ProcessEvent
     GetMagneticField lightSpeed naturalElectron PhMeterIneV fBufferGas minStep_default).
Local Abbreviation ProcessEvent_probability :=
  (FieldPropagationProcess.ProcessEvent_probability
     GetMagneticField lightSpeed naturalElectron PhMeterIneV fBufferGas minStep_default).
Local Abbreviation segment_probability :=
  (FieldPropagationProcess.segment_probability
     GetMagneticField lightSpeed naturalElectron PhMeterIneV fBufferGas).
Local Abbreviation GTP_profile :=
  (FieldPropagationProcess.GTP_profile lightSpeed naturalElectron PhMeterIneV fBufferGas).
Local Abbreviation GetFieldVector := (FieldPropagationProcess.GetFieldVector GetMagneticField).

(** C9 fails on the code.  For an event whose direction is the zero vector
    there is no check and no error: ProcessEvent enters the boundary search,
    which never moves and uses up any fuel, whatever the field, the position
    and the energy. *)
Theorem ProcessEvent_zero_direction_diverges
        (fuel : nat) (pos : TVector3) (Ea prob : R) :
  ProcessEvent fuel (FieldPropagationProcess.mkEvent pos zero3 Ea prob) = Err OutOfFuel.
Proof.
  unfold FieldPropagationProcess.ProcessEvent,
    FieldPropagationProcess.ProcessEvent_probability.
  cbn [FieldPropagationProcess.fPosition FieldPropagationProcess.fDirection].
  now rewrite FindFieldBoundaries_no_direction.
Qed.

(** C10 fails on the code.  Whenever the boundaries and the probability
    have been computed, the read [boundaries[NofVolumes]] that follows uses
    the size of the list as index: it is out of range for every list, the
    empty one included, and ProcessEvent ends there. *)
Theorem ProcessEvent_reads_past_the_end
        (fuel : nat) (ev : FieldPropagationProcess.TRestAxionEvent)
        (boundaries : list boundary) (probability : R) :
  ProcessEvent_probability fuel ev = Ok (boundaries, probability) ->
  at_index boundaries (length boundaries) = Err OutOfRange /\
  ProcessEvent fuel ev = Err OutOfRange.
Proof.
  intros H. split; [apply at_index_length |].
  unfold FieldPropagationProcess.ProcessEvent. rewrite H. cbn [bind fst snd].
  now rewrite at_index_length.
Qed.

(** C6 fails on the code.  For a segment along x (same y and z at both
    ends, different x) the probability left in [probabilities[i]] is the one
    computed with coherence length [|y0 - y1| = 0], not with the length
    [|x0 - x1| > 0] of the segment: the second [if] has the [else] and
    overwrites what the first [if] stored. *)
Theorem segment_probability_x_aligned
        (direction : TVector3) (Ea ma x0 x1 y z : R) :
  x0 <> x1 ->
  segment_probability direction Ea ma (mkVector3 x0 y z, mkVector3 x1 y z) =
  GTP_profile Ea (GetFieldVector direction (mkVector3 x0 y z) (mkVector3 x1 y z) 0) ma 0 /\
  0 < Rabs (x0 - x1).
Proof.
  intros Hx. split.
  - unfold FieldPropagationProcess.segment_probability.
    cbn [fst snd coord fX fY fZ].
    rewrite (Reqb_false x0 x1 Hx). cbn [andb].
    replace (Rabs (y - y)) with 0; [reflexivity |].
    replace (y - y) with 0 by lra. now rewrite Rabs_R0.
  - apply Rabs_pos_lt. lra.
Qed.

End ProcessEventFacts.

(** C10, at a concrete input: no field, a ray along x that starts outside
    the search domain; the list of boundaries is empty. *)
Lemma ProcessEvent_reads_past_the_end_witness :
  FieldPropagationProcess.ProcessEvent_probability
    no_field REST_Physics.lightSpeed REST_Physics.naturalElectron REST_Physics.PhMeterIneV
    None (-1) 1
    (FieldPropagationProcess.mkEvent (mkVector3 0 0 0) (mkVector3 2 0 0) 4.2 0) =
  Ok ([], 0) /\
  at_index (@nil boundary) (length (@nil boundary)) = Err OutOfRange /\
  FieldPropagationProcess.ProcessEvent
    no_field REST_Physics.lightSpeed REST_Physics.naturalElectron REST_Physics.PhMeterIneV
    None (-1) 1
    (FieldPropagationProcess.mkEvent (mkVector3 0 0 0) (mkVector3 2 0 0) 4.2 0) =
  Err OutOfRange.
Proof.
  assert (H : FieldPropagationProcess.ProcessEvent_probability
                no_field REST_Physics.lightSpeed REST_Physics.naturalElectron
                REST_Physics.PhMeterIneV None (-1) 1
                (FieldPropagationProcess.mkEvent (mkVector3 0 0 0) (mkVector3 2 0 0) 4.2 0) =
              Ok ([], 0)).
  { unfold FieldPropagationProcess.ProcessEvent_probability,
      FieldPropagationProcess.FindFieldBoundaries,
      FieldPropagationProcess.FindFieldBoundaries_from,
      FieldPropagationProcess.FindOneVolume,
      FieldPropagationProcess.FindOneVolume_axis.
    cbn [FieldPropagationProcess.fPosition FieldPropagationProcess.fDirection
         coord set_coord fX fY fZ].
    repeat R_test. cbn [andb].
    rewrite FindOneVolume_axis_loop_round. R_test.
    cbn [FieldPropagationProcess.scan_to_field coord set_coord fX fY fZ].
    unfold FieldPropagationProcess.outside_axis.
    unfold FieldPropagationProcess.field_at, no_field. rewrite V3eqb_refl.
    repeat first [R_test | progress cbn [andb orb bind coord fX fY fZ fst snd]].
    reflexivity. }
  split; [exact H |].
  exact (ProcessEvent_reads_past_the_end
           no_field REST_Physics.lightSpeed REST_Physics.naturalElectron
           REST_Physics.PhMeterIneV None (-1) 1 _ [] 0 H).
Defined.

(** C6, at a concrete input: a segment of length 10 along x. *)
Lemma segment_probability_x_aligned_witness :
  0 <> 10 /\
  FieldPropagationProcess.segment_probability
    uniform_field REST_Physics.lightSpeed REST_Physics.naturalElectron
    REST_Physics.PhMeterIneV None
    (mkVector3 1 0 0) 4.2 1 (mkVector3 0 0 0, mkVector3 10 0 0) =
  FieldPropagationProcess.GTP_profile
    REST_Physics.lightSpeed REST_Physics.naturalElectron REST_Physics.PhMeterIneV None
    4.2
    (FieldPropagationProcess.GetFieldVector
       uniform_field (mkVector3 1 0 0) (mkVector3 0 0 0) (mkVector3 10 0 0) 0)
    1 0 /\
  0 < Rabs (0 - 10).
Proof.
  assert (H : 0 <> 10) by lra.
  split; [exact H |].
  exact (segment_probability_x_aligned
           uniform_field REST_Physics.lightSpeed REST_Physics.naturalElectron
           REST_Physics.PhMeterIneV None (mkVector3 1 0 0) 4.2 1 0 10 0 0 H).
Defined.

(** ** The histogram *)

Lemma bin_range_S (b1 : Z) (n : nat) :
  bin_range b1 (S n) = b1 :: bin_range (b1 + 1) n.
Proof.
  unfold bin_range. cbn [seq map]. f_equal; [lia |].
  rewrite <- seq_shift, map_map. apply map_ext. intros i. lia.
Qed.

Lemma sum_list_Fill (h : TH1F) (x w : R) :
  forall n b1,
    sum_list (map (fArray (Fill h x w)) (bin_range b1 n)) =
    sum_list (map (fArray h) (bin_range b1 n)) +
    (if (b1 <=? FindBin h x)%Z && (FindBin h x <? b1 + Z.of_nat n)%Z then w else 0).
Proof.
  induction n as [| n IH]; intros b1.
  - cbn. replace (b1 + 0)%Z with b1 by lia.
    destruct (b1 <=? FindBin h x)%Z eqn:E1, (FindBin h x <? b1)%Z eqn:E2; cbn; try lra.
    apply Z.leb_le in E1. apply Z.ltb_lt in E2. lia.
  - rewrite !bin_range_S. cbn [map sum_list fold_right].
    change (fold_right Rplus 0 ?l) with (sum_list l).
    rewrite IH. cbn [Fill fArray].
    destruct (b1 =? FindBin h x)%Z eqn:E.
    + apply Z.eqb_eq in E. rewrite <- E.
      replace (b1 + 1 <=? b1)%Z with false by (symmetry; apply Z.leb_gt; lia).
      replace (b1 <=? b1)%Z with true by (symmetry; apply Z.leb_le; lia).
      replace (b1 <? b1 + Z.of_nat (S n))%Z with true by (symmetry; apply Z.ltb_lt; lia).
      cbn [andb]. lra.
    + apply Z.eqb_neq in E.
      replace (b1 + 1 + Z.of_nat n)%Z with (b1 + Z.of_nat (S n))%Z by lia.
      replace (b1 + 1 <=? FindBin h x)%Z with (b1 <=? FindBin h x)%Z; [lra |].
      destruct (b1 <=? FindBin h x)%Z eqn:E1.
      * symmetry. apply Z.leb_le. apply Z.leb_le in E1. lia.
      * symmetry. apply Z.leb_gt. apply Z.leb_gt in E1. lia.
Qed.

Lemma Int_part_bounds (r : R) (n : Z) :
  0 <= r -> r < IZR n -> (0 <= Int_part r < n)%Z.
Proof.
  intros H0 Hn. destruct (base_Int_part r) as [Hle Hgt]. split.
  - assert (H : (-1 < Int_part r)%Z) by (apply lt_IZR; lra). lia.
  - apply lt_IZR. lra.
Qed.

Lemma FindBin_Fill (h : TH1F) (x w y : R) : FindBin (Fill h x w) y = FindBin h y.
Proof. reflexivity. Qed.

Lemma FindBin_in_range (h : TH1F) (x : R) :
  (1 <= fNbins h)%Z -> fXmin h < fXmax h -> fXmin h <= x ->
  (1 <= FindBin h x <= fNbins h + 1)%Z.
Proof.
  intros Hn Hax Hx. unfold FindBin.
  rewrite (Rltb_false x) by lra.
  destruct (Rltb x (fXmax h)) eqn:E; cbn [negb]; [| lia].
  apply Rltb_lt in E.
  assert (Hpos : 0 < fXmax h - fXmin h) by lra.
  assert (HN : 0 < IZR (fNbins h)) by (apply IZR_lt; lia).
  destruct (Int_part_bounds (IZR (fNbins h) * (x - fXmin h) / (fXmax h - fXmin h))
                            (fNbins h)) as [H1 H2].
  - apply Rmult_le_pos; [| left; now apply Rinv_0_lt_compat].
    apply Rmult_le_pos; lra.
  - unfold Rdiv. rewrite Rmult_assoc.
    rewrite <- (Rmult_1_r (IZR (fNbins h))) at 2.
    apply Rmult_lt_compat_l; [exact HN |].
    apply (Rmult_lt_reg_r (fXmax h - fXmin h)); [exact Hpos |].
    rewrite Rmult_assoc, Rinv_l by lra. lra.
  - lia.
Qed.

Lemma FindBin_xmin (h : TH1F) :
  (1 <= fNbins h)%Z -> fXmin h < fXmax h -> FindBin h (fXmin h) = 1%Z.
Proof.
  intros Hn Hax. unfold FindBin.
  rewrite (Rltb_false (fXmin h)) by lra. rewrite Rltb_true by lra. cbn [negb].
  replace (IZR (fNbins h) * (fXmin h - fXmin h) / (fXmax h - fXmin h)) with 0
    by (unfold Rdiv; replace (fXmin h - fXmin h) with 0 by lra; ring).
  destruct (Int_part_bounds 0 1) as [H1 H2]; [lra | lra | lia].
Qed.

Lemma FindBin_xmax (h : TH1F) :
  FindBin h (fXmax h) =
  if Rltb (fXmax h) (fXmin h) then 0%Z else (fNbins h + 1)%Z.
Proof.
  unfold FindBin. destruct (Rltb (fXmax h) (fXmin h)); [reflexivity |].
  rewrite (Rltb_false (fXmax h) (fXmax h)) by lra. reflexivity.
Qed.

Lemma Integral_all_bins (h : TH1F) :
  (1 <= fNbins h)%Z ->
  Integral h 1 (fNbins h + 1) =
  sum_list (map (fArray h) (bin_range 1 (Z.to_nat (fNbins h + 1)))).
Proof.
  intros Hn. unfold Integral. cbv zeta.
  replace (1 <? 0)%Z with false by reflexivity.
  replace (fNbins h + 2 <=? fNbins h + 1)%Z with false by (symmetry; apply Z.leb_gt; lia).
  replace (fNbins h + 1 <? 1)%Z with false by (symmetry; apply Z.ltb_ge; lia).
  cbn [orb]. do 3 f_equal. lia.
Qed.

Lemma Integral_all_bins_Fill (h : TH1F) (x w : R) :
  (1 <= fNbins h)%Z -> fXmin h < fXmax h -> fXmin h <= x ->
  Integral (Fill h x w) 1 (fNbins h + 1) = Integral h 1 (fNbins h + 1) + w.
Proof.
  intros Hn Hax Hx.
  rewrite (Integral_all_bins h Hn).
  pose proof (Integral_all_bins (Fill h x w) Hn) as E.
  change (fNbins (Fill h x w)) with (fNbins h) in E. rewrite E.
  rewrite sum_list_Fill.
  destruct (FindBin_in_range h x Hn Hax Hx) as [H1 H2].
  replace (1 <=? FindBin h x)%Z with true by (symmetry; apply Z.leb_le; lia).
  replace (FindBin h x <? 1 + Z.of_nat (Z.to_nat (fNbins h + 1)))%Z with true
    by (symmetry; apply Z.ltb_lt; lia).
  reflexivity.
Qed.

Lemma Integral_fill_all :
  forall (ind w : list R) (h : TH1F),
    (1 <= fNbins h)%Z -> fXmin h < fXmax h ->
    Forall (fun x => fXmin h <= x) ind ->
    length ind = length w ->
    Integral (fill_all h ind w) 1 (fNbins h + 1) =
    Integral h 1 (fNbins h + 1) + sum_list w /\
    fNbins (fill_all h ind w) = fNbins h /\
    fXmin (fill_all h ind w) = fXmin h /\
    fXmax (fill_all h ind w) = fXmax h.
Proof.
  induction ind as [| x ind IH]; intros w h Hn Hax Hind Hlen.
  - destruct w; [| discriminate]. cbn. repeat split. lra.
  - destruct w as [| a w]; [discriminate |].
    inversion Hind as [| ? ? Hx Hrest]; subst.
    unfold fill_all. cbn [combine fold_left fst snd].
    change (fold_left _ (combine ind w) (Fill h x a)) with (fill_all (Fill h x a) ind w).
    destruct (IH w (Fill h x a)) as (HI & H1 & H2 & H3); try assumption.
    + cbn in Hlen. lia.
    + cbn [Fill fNbins fXmin fXmax] in *.
      rewrite HI, Integral_all_bins_Fill by assumption.
      cbn [sum_list fold_right]. repeat split; try assumption.
      change (fold_right Rplus 0 w) with (sum_list w). lra.
Qed.

Lemma FindBin_ext (h h' : TH1F) (x : R) :
  fNbins h' = fNbins h -> fXmin h' = fXmin h -> fXmax h' = fXmax h ->
  FindBin h' x = FindBin h x.
Proof. intros H1 H2 H3. unfold FindBin. now rewrite H1, H2, H3. Qed.

Lemma sum_list_zero (l : list Z) : sum_list (map (fun _ : Z => 0) l) = 0.
Proof.
  induction l as [| a l IH]; cbn; [reflexivity |].
  change (fold_right Rplus 0 (map (fun _ : Z => 0) l)) with (sum_list (map (fun _ : Z => 0) l)).
  rewrite IH. lra.
Qed.

Section ProfileFacts.

Variables lightSpeed naturalElectron PhMeterIneV : R.
Variable fBufferGas : option TRestAxionBufferGas.

Local Abbreviation GTP_profile :=
  (GammaTransmissionProbability_profile lightSpeed naturalElectron PhMeterIneV fBufferGas).

(** The histogram detour computes a Riemann sum: every one of the [n]
    samples is added up (the last one from the overflow bin) and the total is
    scaled by [cohLength / n]. *)
Lemma GammaTransmissionProbability_profile_sum (Ea : R) (B : list R) (ma Lcoh : R) :
  Ea <> 0 -> 0 < Lcoh -> (2 <= length B)%nat ->
  let n := length B in
  let N := (Z.of_nat n - 1)%Z in
  let cohLength := Lcoh / 1000 in
  let photonMass := photonMass_of fBufferGas Ea in
  let q := (ma * ma - photonMass * photonMass) / 2 / Ea / 1000 in
  let GammaL := Gamma_of fBufferGas Ea * cohLength * 100 in
  let Factor := lightSpeed / naturalElectron * 1.0e-9 / 2 *
                (lightSpeed / naturalElectron * 1.0e-9 / 2) * 1.0e-20 in
  let Sx := sum_list (map (Bx_at PhMeterIneV B GammaL cohLength q N) (seq 0 n)) in
  let Sy := sum_list (map (By_at PhMeterIneV B GammaL cohLength q N) (seq 0 n)) in
  GTP_profile Ea B ma Lcoh =
  Ok (Factor * ((Sx * cohLength / INR n) * (Sx * cohLength / INR n) +
                (Sy * cohLength / INR n) * (Sy * cohLength / INR n))).
Proof.
  intros HEa HL Hlen n N cohLength photonMass q GammaL Factor Sx Sy.
  unfold GammaTransmissionProbability_profile. cbv zeta.
  rewrite (fdiv_ok _ Ea HEa). cbn [bind].
  fold n. fold N. fold cohLength. fold photonMass. fold q. fold GammaL.
  assert (HN : (1 <= N)%Z) by (unfold N, n; lia).
  replace (N =? 0)%Z with false by (symmetry; apply Z.eqb_neq; lia).
  replace (Z.to_nat (N + 1)) with n by (unfold N; lia).
  set (ind := map (ind_at cohLength N) (seq 0 n)).
  set (h0 := TH1F_new (N + 1) 0 cohLength).
  assert (Hcoh : 0 < cohLength) by (unfold cohLength; lra).
  assert (Hnb : fNbins h0 = Z.of_nat n).
  { unfold h0, TH1F_new. cbn [fNbins].
    replace (N + 1 <=? 0)%Z with false by (symmetry; apply Z.leb_gt; lia).
    unfold N. lia. }
  assert (Hnb1 : (1 <= fNbins h0)%Z) by (rewrite Hnb; unfold n; lia).
  assert (Hax : fXmin h0 < fXmax h0) by exact Hcoh.
  assert (Hind : Forall (fun x => fXmin h0 <= x) ind).
  { unfold ind. apply Forall_forall. intros x Hx.
    apply in_map_iff in Hx. destruct Hx as (i & <- & _).
    cbn [h0 TH1F_new fXmin]. unfold ind_at.
    apply Rmult_le_pos; [lra |].
    apply Rmult_le_pos; [apply pos_INR |].
    left. apply Rinv_0_lt_compat. apply IZR_lt. lia. }
  assert (H0 : Integral h0 1 (fNbins h0 + 1) = 0).
  { rewrite Integral_all_bins by exact Hnb1. apply sum_list_zero. }
  set (Bx := map (Bx_at PhMeterIneV B GammaL cohLength q N) (seq 0 n)).
  set (By := map (By_at PhMeterIneV B GammaL cohLength q N) (seq 0 n)).
  destruct (Integral_fill_all ind Bx h0 Hnb1 Hax Hind) as (HIx & Hx1 & Hx2 & Hx3).
  { unfold ind, Bx. now rewrite !length_map. }
  destruct (Integral_fill_all ind By h0 Hnb1 Hax Hind) as (HIy & _).
  { unfold ind, By. now rewrite !length_map. }
  assert (Hbmin : FindBin (fill_all h0 ind Bx) 0 = 1%Z).
  { rewrite (FindBin_ext h0) by assumption. exact (FindBin_xmin h0 Hnb1 Hax). }
  assert (Hbmax : FindBin (fill_all h0 ind Bx) cohLength = (fNbins h0 + 1)%Z).
  { rewrite (FindBin_ext h0) by assumption.
    pose proof (FindBin_xmax h0) as E. rewrite (Rltb_false (fXmax h0)) in E by lra.
    exact E. }
  rewrite Hbmin, Hbmax, HIx, HIy, H0, !Rplus_0_l.
  replace (fNbins h0 + 1 - 1)%Z with (Z.of_nat n) by lia.
  rewrite <- INR_IZR_INZ.
  assert (Hn0 : INR n <> 0) by (apply not_0_INR; unfold n; lia).
  rewrite !(fdiv_ok _ _ Hn0). cbn [bind].
  f_equal. unfold Cmul, Conjugate, Cadd_real, Cscale, TComplex_I. cbn [Re Im].
  change (sum_list Bx) with Sx. change (sum_list By) with Sy.
  fold Factor. unfold Rdiv. ring.
Qed.



End ProfileFacts.

Lemma half_turn_energy_pos : 0 < half_turn_energy.
Proof.
  unfold half_turn_energy, REST_Physics.PhMeterIneV.
  apply Rdiv_lt_0_compat; [lra |]. pose proof PI_RGT_0. lra.
Qed.


Lemma profile_at_half_turn :
  GammaTransmissionProbability_profile
    REST_Physics.lightSpeed REST_Physics.naturalElectron REST_Physics.PhMeterIneV None
    half_turn_energy [1; 1] 1 1000 = Ok 0.
Proof.
  pose proof half_turn_energy_pos as HEa. pose proof PI_RGT_0 as Hpi.
  rewrite GammaTransmissionProbability_profile_sum; [| lra | lra | cbn; lia].
  cbv zeta. cbn [length seq map photonMass_of Gamma_of].
  change (Z.of_nat 2 - 1)%Z with 1%Z.
  set (q := (1 * 1 - 0 * 0) / 2 / half_turn_energy / 1000).
  assert (Hq : 1000 / 1000 * REST_Physics.PhMeterIneV * q = PI).
  { unfold q, half_turn_energy, REST_Physics.PhMeterIneV. field. lra. }
  assert (Hx0 : Bx_at REST_Physics.PhMeterIneV [1; 1] (0 * (1000 / 1000) * 100)
                      (1000 / 1000) q 1 0 = 1).
  { unfold Bx_at. cbn [nth INR].
    replace (0 * (1000 / 1000) * 100 / 2 * (0 / 1 - 1)) with 0 by lra.
    replace (- (1000 / 1000) * REST_Physics.PhMeterIneV * (0 / 1) * q) with 0
      by (unfold Rdiv; ring).
    rewrite exp_0, cos_0. lra. }
  assert (Hx1 : Bx_at REST_Physics.PhMeterIneV [1; 1] (0 * (1000 / 1000) * 100)
                      (1000 / 1000) q 1 1 = -1).
  { unfold Bx_at. cbn [nth INR].
    replace (0 * (1000 / 1000) * 100 / 2 * (1 / 1 - 1)) with 0 by lra.
    replace (- (1000 / 1000) * REST_Physics.PhMeterIneV * (1 / 1) * q) with (- PI)
      by (rewrite <- Hq; field).
    rewrite exp_0, cos_neg, cos_PI. lra. }
  assert (Hy0 : By_at REST_Physics.PhMeterIneV [1; 1] (0 * (1000 / 1000) * 100)
                      (1000 / 1000) q 1 0 = 0).
  { unfold By_at. cbn [nth INR].
    replace (- (1000 / 1000) * REST_Physics.PhMeterIneV * (0 / 1) * q) with 0
      by (unfold Rdiv; ring).
    rewrite sin_0. ring. }
  assert (Hy1 : By_at REST_Physics.PhMeterIneV [1; 1] (0 * (1000 / 1000) * 100)
                      (1000 / 1000) q 1 1 = 0).
  { unfold By_at. cbn [nth INR].
    replace (- (1000 / 1000) * REST_Physics.PhMeterIneV * (1 / 1) * q) with (- PI)
      by (rewrite <- Hq; field).
    rewrite sin_neg, sin_PI. ring. }
  rewrite Hx0, Hx1, Hy0, Hy1. cbn [sum_list fold_right INR].
  f_equal. unfold Rdiv. ring.
Qed.

Lemma scalar_at_half_turn :
  GammaTransmissionProbability
    REST_Physics.lightSpeed REST_Physics.naturalElectron REST_Physics.PhMeterIneV None
    half_turn_energy 1 1 1000 =
  Ok (4 / (PI * PI) *
      BLHalfSquared REST_Physics.lightSpeed REST_Physics.naturalElectron 1 1000).
Proof.
  pose proof half_turn_energy_pos as HEa. pose proof PI_RGT_0 as Hpi.
  unfold GammaTransmissionProbability. cbv zeta. cbn [photonMass_of Gamma_of].
  rewrite (Reqb_false 1 0) by lra. cbn [andb].
  rewrite fdiv_ok by lra. cbn [bind].
  assert (Hphi : (1 * 1 - 0 * 0) / 2 / half_turn_energy / 1000 *
                 (1000 / 1000 * REST_Physics.PhMeterIneV) = PI).
  { unfold half_turn_energy, REST_Physics.PhMeterIneV. field. lra. }
  rewrite Hphi.
  replace (0 * (1000 / 1000) * 100) with 0 by lra.
  replace (PI * PI + 0 * 0 / 4) with (PI * PI) by lra.
  rewrite fdiv_ok by (apply Rmult_integral_contrapositive_currified; lra).
  cbn [bind]. replace (- 0 / 2) with 0 by lra. rewrite Ropp_0, exp_0, cos_PI.
  f_equal. unfold Rdiv. ring.
Qed.



(** ** The transmission observable *)

Section ObservablesFacts.

Variable GetFieldBoundaries : TVector3 -> TVector3 -> list TVector3.
Variable GetTransversalComponentAlongPath : TVector3 -> TVector3 -> R -> list R.
Variable AxionField_GammaTransmissionProbability : list R -> R -> R -> R -> result R.
Variable units_cm : R.
Variable fIntegrationStep : R.

Local Abbreviation ProcessEvent :=
  (FieldPropagationObservables.ProcessEvent
     GetFieldBoundaries GetTransversalComponentAlongPath
     AxionField_GammaTransmissionProbability units_cm).

(** C7 fails on the code.  With a buffer gas and a positive additional
    length, a track that crosses the field gets the transmission
    [exp (- Gamma(Ea) * lCoh * units("cm"))], where [lCoh] is the coherence
    length just computed; the configured additional length only switches the
    computation on and does not enter the value. *)
Theorem transmission_uses_coherence_length
        (gas : TRestAxionBufferGas) (fBufferGasAdditionalLength : R)
        (ev : FieldPropagationObservables.TRestAxionEvent)
        (b0 b1 : TVector3) :
  GetFieldBoundaries (FieldPropagationObservables.GetPosition ev)
                     (FieldPropagationObservables.GetDirection ev) = [b0; b1] ->
  0 < fBufferGasAdditionalLength ->
  let obs := ProcessEvent (Some gas) fBufferGasAdditionalLength fIntegrationStep ev in
  FieldPropagationObservables.transmission obs =
  exp (- (GetPhotonAbsorptionLength gas (FieldPropagationObservables.GetEnergy ev) *
          FieldPropagationObservables.coherenceLength obs * units_cm)).
Proof.
  intros Hb Hadd obs. unfold obs, FieldPropagationObservables.ProcessEvent.
  rewrite Hb. cbv zeta.
  cbn [FieldPropagationObservables.transmission FieldPropagationObservables.coherenceLength].
  now rewrite (Rltb_true 0 _ Hadd).
Qed.

End ObservablesFacts.

Lemma size_minus_1_three (a b c : R) :
  FieldPropagationObservables.size_minus_1 [a; b; c] = 2.
Proof. reflexivity. Qed.

Lemma absorbing_gas_run :
  FieldPropagationObservables.ProcessEvent
    track_0_100 profile_2T (fun _ _ _ _ => Ok 0) 0.1 (Some absorbing_gas) 30 50
    (FieldPropagationObservables.mkEvent (mkVector3 0 0 0) (mkVector3 1 0 0) 4.2 0) =
  FieldPropagationObservables.mkObservables (Ok 2) (Ok 0) 100 (exp (- (1 * 100 * 0.1))).
Proof.
  unfold FieldPropagationObservables.ProcessEvent, track_0_100, profile_2T.
  rewrite size_minus_1_three.
  unfold FieldPropagationObservables.accumulate.
  cbn [fold_left length INR absorbing_gas GetPhotonAbsorptionLength
       FieldPropagationObservables.GetEnergy].
  rewrite fdiv_ok by lra. rewrite (Rltb_true 0 30) by lra.
  f_equal; try (f_equal; lra); lra.
Qed.

(** C7, at a concrete input: absorption 1 cm-1, additional length 30 mm,
    three samples at steps of 50 mm.  The coherence length is 100 mm and the
    transmission is [exp (-10)], the attenuation over those 100 mm. *)
Lemma transmission_uses_coherence_length_witness :
  track_0_100 (mkVector3 0 0 0) (mkVector3 1 0 0) = [mkVector3 0 0 0; mkVector3 100 0 0] /\
  0 < 30 /\
  FieldPropagationObservables.ProcessEvent
    track_0_100 profile_2T (fun _ _ _ _ => Ok 0) 0.1 (Some absorbing_gas) 30 50
    (FieldPropagationObservables.mkEvent (mkVector3 0 0 0) (mkVector3 1 0 0) 4.2 0) =
  FieldPropagationObservables.mkObservables (Ok 2) (Ok 0) 100 (exp (- (1 * 100 * 0.1))) /\
  (let obs :=
     FieldPropagationObservables.ProcessEvent
       track_0_100 profile_2T (fun _ _ _ _ => Ok 0) 0.1 (Some absorbing_gas) 30 50
       (FieldPropagationObservables.mkEvent (mkVector3 0 0 0) (mkVector3 1 0 0) 4.2 0) in
   FieldPropagationObservables.transmission obs =
   exp (- (GetPhotonAbsorptionLength absorbing_gas
             (FieldPropagationObservables.GetEnergy
                (FieldPropagationObservables.mkEvent
                   (mkVector3 0 0 0) (mkVector3 1 0 0) 4.2 0)) *
           FieldPropagationObservables.coherenceLength obs * 0.1))).
Proof.
  assert (H1 : 0 < 30) by lra.
  split; [reflexivity | split; [exact H1 | split; [exact absorbing_gas_run |]]].
  exact (transmission_uses_coherence_length
           track_0_100 profile_2T (fun _ _ _ _ => Ok 0) 0.1 50
           absorbing_gas 30 _ (mkVector3 0 0 0) (mkVector3 100 0 0) eq_refl H1).
Defined.

(** ** The range of the transmission observable *)

Lemma size_minus_1_nonneg (l : list R) : 0 <= FieldPropagationObservables.size_minus_1 l.
Proof.
  unfold FieldPropagationObservables.size_minus_1. apply IZR_le.
  apply Z.mod_pos_bound. reflexivity.
Qed.

Section ObservablesBounds.

Variable GetFieldBoundaries : TVector3 -> TVector3 -> list TVector3.
Variable GetTransversalComponentAlongPath : TVector3 -> TVector3 -> R -> list R.
Variable AxionField_GammaTransmissionProbability : list R -> R -> R -> R -> result R.
Variable units_cm : R.
Variable fIntegrationStep : R.

(** X3. With a non-negative absorption, integration step and unit factor,
    the transmission observable lies in [0, 1] for every event, an empty
    field profile included, and it is 1 whenever the configured additional
    length is not positive.  (In exact arithmetic it is never [0]; in
    doubles [exp] underflows to [0] for a large attenuation.) *)
Theorem transmission_in_unit_interval
        (fBufferGas : option TRestAxionBufferGas) (fBufferGasAdditionalLength : R)
        (ev : FieldPropagationObservables.TRestAxionEvent) :
  0 <= Gamma_of fBufferGas (FieldPropagationObservables.GetEnergy ev) ->
  0 <= fIntegrationStep ->
  0 <= units_cm ->
  let obs :=
    FieldPropagationObservables.ProcessEvent
      GetFieldBoundaries GetTransversalComponentAlongPath
      AxionField_GammaTransmissionProbability units_cm
      fBufferGas fBufferGasAdditionalLength fIntegrationStep ev in
  0 <= FieldPropagationObservables.transmission obs <= 1 /\
  (fBufferGasAdditionalLength <= 0 -> FieldPropagationObservables.transmission obs = 1).
Proof.
  intros HG Hstep Hcm obs. unfold obs, FieldPropagationObservables.ProcessEvent.
  destruct (GetFieldBoundaries _ _) as [| b0 [| b1 [| b2 bs]]];
    try (cbn; split; [lra | reflexivity]).
  cbv zeta. cbn [FieldPropagationObservables.transmission].
  destruct fBufferGas as [gas |]; [| split; [lra | reflexivity]].
  cbn [Gamma_of] in HG.
  destruct (Rltb 0 fBufferGasAdditionalLength) eqn:E.
  - apply Rltb_lt in E. split; [| lra].
    split; [left; apply exp_pos |].
    rewrite <- exp_0.
    set (l := GetTransversalComponentAlongPath b0 b1 fIntegrationStep).
    pose proof (size_minus_1_nonneg l) as Hs.
    set (GammaL := GetPhotonAbsorptionLength gas (FieldPropagationObservables.GetEnergy ev) *
                   (FieldPropagationObservables.size_minus_1 l * fIntegrationStep) *
                   units_cm).
    assert (Hprod : 0 <= GammaL) by (repeat apply Rmult_le_pos; assumption).
    destruct (Req_dec_T GammaL 0) as [-> | Hne].
    + rewrite Ropp_0. lra.
    + left. apply exp_increasing. lra.
  - split; [lra | reflexivity].
Qed.

End ObservablesBounds.

(** X3, at a concrete input: the attenuation [exp (-10)]. *)
Lemma transmission_in_unit_interval_witness :
  0 <= Gamma_of (Some absorbing_gas) 4.2 /\ 0 <= 50 /\ 0 <= 0.1 /\
  FieldPropagationObservables.ProcessEvent
    track_0_100 profile_2T (fun _ _ _ _ => Ok 0) 0.1 (Some absorbing_gas) 30 50
    (FieldPropagationObservables.mkEvent (mkVector3 0 0 0) (mkVector3 1 0 0) 4.2 0) =
  FieldPropagationObservables.mkObservables (Ok 2) (Ok 0) 100 (exp (- (1 * 100 * 0.1))) /\
  (let obs :=
     FieldPropagationObservables.ProcessEvent
       track_0_100 profile_2T (fun _ _ _ _ => Ok 0) 0.1 (Some absorbing_gas) 30 50
       (FieldPropagationObservables.mkEvent (mkVector3 0 0 0) (mkVector3 1 0 0) 4.2 0) in
   0 <= FieldPropagationObservables.transmission obs <= 1 /\
   (30 <= 0 -> FieldPropagationObservables.transmission obs = 1)).
Proof.
  assert (H1 : 0 <= Gamma_of (Some absorbing_gas) 4.2) by (cbn; lra).
  assert (H2 : 0 <= 50) by lra.
  assert (H3 : 0 <= 0.1) by lra.
  split; [exact H1 | split; [exact H2 | split; [exact H3 | split; [exact absorbing_gas_run |]]]].
  exact (transmission_in_unit_interval
           track_0_100 profile_2T (fun _ _ _ _ => Ok 0) 0.1 50
           (Some absorbing_gas) 30
           (FieldPropagationObservables.mkEvent (mkVector3 0 0 0) (mkVector3 1 0 0) 4.2 0)
           H1 H2 H3).
Defined.

(** ** The points read by GetFieldVector *)

Lemma GetFieldVector_loop_length (d : TVector3) (N : nat) :
  forall count i p, length (FieldPropagationProcess.GetFieldVector_loop d N count i p) = count.
Proof.
  induction count as [| count IH]; intros i p; cbn; [reflexivity |].
  now rewrite IH.
Qed.

(** X1. GetFieldVector returns [N] values, and 10^4 values for [N = 0]. *)
Theorem GetFieldVector_length
        (G : R -> R -> R -> TVector3) (direction in_ out : TVector3) (N : nat) :
  length (FieldPropagationProcess.GetFieldVector G direction in_ out N) =
  if Nat.eqb N 0 then Nat.pow 10 4 else N.
Proof.
  unfold FieldPropagationProcess.GetFieldVector, FieldPropagationProcess.GetFieldVector_points.
  rewrite length_map. cbn [length]. rewrite GetFieldVector_loop_length.
  destruct (Nat.eqb N 0) eqn:E.
  - pose proof (Nat.pow_nonzero 10 4 ltac:(lia)). lia.
  - apply Nat.eqb_neq in E. lia.
Qed.





(** ** A ray through no field *)

Lemma nat_above (r : R) : exists m : nat, r < INR m.
Proof.
  destruct (archimed r) as [Hup _].
  destruct (Z_lt_le_dec (up r) 0) as [Hneg | Hpos].
  - exists O. cbn [INR]. apply IZR_lt in Hneg. lra.
  - exists (Z.to_nat (up r)). rewrite INR_IZR_INZ, Z2Nat.id by exact Hpos. lra.
Qed.

Section ZeroField.

Variable GetMagneticField : R -> R -> R -> TVector3.
Hypothesis no_field_anywhere : forall x y z, GetMagneticField x y z = zero3.

Lemma scan_to_field_zero_field (k : nat) (dir : TVector3) (dr : R) :
  forall m fuel pos,
    (m < fuel)%nat ->
    40000 < pos.[k] + INR m * (dir.[k] * dr) \/ pos.[k] + INR m * (dir.[k] * dr) < -40000 ->
    exists p,
      FieldPropagationProcess.scan_to_field GetMagneticField k dir dr fuel pos = Ok p /\
      FieldPropagationProcess.outside_axis k p = true.
Proof.
  induction m as [| m IH]; intros fuel pos Hfuel Hm;
    (destruct fuel as [| fuel]; [lia |]);
    cbn [FieldPropagationProcess.scan_to_field];
    unfold FieldPropagationProcess.field_at; rewrite no_field_anywhere, V3eqb_refl;
    cbn [andb].
  - cbn [INR] in Hm. exists pos.
    unfold FieldPropagationProcess.outside_axis.
    destruct Hm as [Hm | Hm].
    + rewrite (Rleb_false pos.[k]) by lra. rewrite andb_false_r.
      split; [reflexivity |]. rewrite (Rltb_true 40000) by lra. apply orb_true_r.
    + rewrite (Rleb_false (-40000)) by lra. cbn [andb].
      split; [reflexivity |]. now rewrite (Rltb_true pos.[k]) by lra.
  - destruct (Rleb (-40000) pos.[k] && Rleb pos.[k] 40000) eqn:Hc.
    + apply IH; [lia |]. rewrite coord_set_coord. rewrite S_INR in Hm.
      replace (pos.[k] + dir.[k] * dr + INR m * (dir.[k] * dr))
        with (pos.[k] + (INR m + 1) * (dir.[k] * dr)) by ring.
      exact Hm.
    + exists pos. split; [reflexivity |].
      unfold FieldPropagationProcess.outside_axis.
      apply andb_false_iff in Hc. destruct Hc as [Hc | Hc].
      * unfold Rleb in Hc. destruct (Rle_dec (-40000) pos.[k]); [discriminate |].
        now rewrite (Rltb_true pos.[k]) by lra.
      * unfold Rleb in Hc. destruct (Rle_dec pos.[k] 40000); [discriminate |].
        rewrite (Rltb_true 40000) by lra. apply orb_true_r.
Qed.

(** Some number of steps of length [s <> 0] leads out of the domain. *)
Lemma steps_out_of_domain (x s : R) :
  s <> 0 -> exists m : nat, 40000 < x + INR m * s \/ x + INR m * s < -40000.
Proof.
  intros Hs. destruct (Rlt_dec 0 s) as [Hpos | Hneg].
  - destruct (nat_above ((40000 - x) / s)) as [m Hm]. exists m. left.
    apply (Rmult_lt_compat_r s) in Hm; [| exact Hpos].
    unfold Rdiv in Hm. rewrite Rmult_assoc, Rinv_l, Rmult_1_r in Hm by exact Hs. lra.
  - assert (Hs' : 0 < - s) by lra.
    destruct (nat_above ((x + 40000) / (- s))) as [m Hm]. exists m. right.
    apply (Rmult_lt_compat_r (- s)) in Hm; [| exact Hs'].
    unfold Rdiv in Hm. rewrite Rmult_assoc, Rinv_l, Rmult_1_r in Hm by lra. lra.
Qed.

Lemma FindOneVolume_axis_zero_field (k : nat) (pos dir : TVector3) (minStep : R) :
  dir.[k] <> 0 -> minStep < 5 ->
  exists m, forall fuel, (m < fuel)%nat ->
    exists p,
      FieldPropagationProcess.FindOneVolume_axis GetMagneticField k fuel pos dir minStep =
      Ok (p, zero3) /\
      FieldPropagationProcess.outside_axis k p = true.
Proof.
  intros Hdir Hms.
  set (pos0 := set_coord pos k (pos.[k] + dir.[k] * minStep / 2)).
  destruct (steps_out_of_domain pos0.[k] (dir.[k] * 5)) as [m Hm].
  { apply Rmult_integral_contrapositive_currified; lra. }
  exists m. intros fuel Hfuel.
  destruct (scan_to_field_zero_field k dir 5 m fuel pos0 Hfuel Hm) as (p & Hscan & Hout).
  exists p. split; [| exact Hout].
  unfold FieldPropagationProcess.FindOneVolume_axis. fold pos0.
  destruct fuel as [| fuel]; [lia |].
  rewrite FindOneVolume_axis_loop_round, (Rltb_true minStep 5 Hms), Hscan.
  cbn [bind]. unfold FieldPropagationProcess.outside_axis in Hout. now rewrite Hout.
Qed.

Lemma move_to_y_coord (dir pos : TVector3) (y : R) :
  dir.[1] <> 0 ->
  exists p, FieldPropagationProcess.move_to_y dir pos y = Ok p /\ p.[1] = y.
Proof.
  intros Hd. unfold FieldPropagationProcess.move_to_y. rewrite fdiv_ok by exact Hd.
  cbn [bind]. eexists. split; [reflexivity |]. reflexivity.
Qed.

Lemma scan_to_field_y_zero_field (dir : TVector3) (dr : R) :
  dir.[1] <> 0 ->
  forall m fuel pos,
    (m < fuel)%nat ->
    pos.[1] <= INR m * dr ->
    exists p,
      FieldPropagationProcess.scan_to_field_y GetMagneticField dir dr fuel pos = Ok p /\
      FieldPropagationProcess.outside_general p = true.
Proof.
  intros Hd.
  induction m as [| m IH]; intros fuel pos Hfuel Hm;
    (destruct fuel as [| fuel]; [lia |]);
    cbn [FieldPropagationProcess.scan_to_field_y];
    unfold FieldPropagationProcess.field_at; rewrite no_field_anywhere, V3eqb_refl;
    cbn [andb].
  - cbn [INR] in Hm. rewrite Rltb_false by lra.
    exists pos. split; [reflexivity |].
    unfold FieldPropagationProcess.outside_general. apply Rleb_true. lra.
  - destruct (Rltb 0 pos.[1]) eqn:Hc.
    + destruct (move_to_y_coord dir pos (pos.[1] - dr) Hd) as (p1 & -> & Hy).
      cbn [bind]. apply IH; [lia |]. rewrite Hy. rewrite S_INR in Hm. lra.
    + exists pos. split; [reflexivity |].
      unfold FieldPropagationProcess.outside_general.
      unfold Rltb in Hc. destruct (Rlt_dec 0 pos.[1]); [discriminate |].
      apply Rleb_true. lra.
Qed.

Lemma FindOneVolume_general_zero_field (pos dir : TVector3) (minStep : R) :
  dir.[1] <> 0 -> minStep < 5 ->
  exists m, forall fuel, (m < fuel)%nat ->
    exists p,
      FieldPropagationProcess.FindOneVolume_general GetMagneticField fuel pos dir minStep =
      Ok (p, zero3) /\
      FieldPropagationProcess.outside_general p = true.
Proof.
  intros Hdir Hms.
  set (pos0 := set_coord pos 1 (pos.[1] - minStep / 2)).
  destruct (nat_above (pos0.[1] / 5)) as [m Hm].
  exists m. intros fuel Hfuel.
  destruct (scan_to_field_y_zero_field dir 5 Hdir m fuel pos0 Hfuel) as (p & Hscan & Hout).
  { lra. }
  exists p. split; [| exact Hout].
  unfold FieldPropagationProcess.FindOneVolume_general. fold pos0.
  destruct fuel as [| fuel]; [lia |].
  cbn [FieldPropagationProcess.FindOneVolume_general_loop].
  rewrite (Rltb_true minStep 5 Hms), Hscan. cbn [bind].
  unfold FieldPropagationProcess.outside_general in Hout. now rewrite Hout.
Qed.

(** X4. Zero-field invariance.  Where the field vanishes everywhere, for
    [minStep < 5] and a direction with a y component, or along x alone, or
    along z alone, FindFieldBoundaries returns the empty list once the fuel
    suffices for the coarse scan to leave the search domain. *)
Theorem FindFieldBoundaries_zero_field (posInitial direction : TVector3) (minStep : R) :
  minStep < 5 ->
  direction.[1] <> 0 \/
  (direction.[1] = 0 /\ direction.[2] = 0 /\ direction.[0] <> 0) \/
  (direction.[1] = 0 /\ direction.[0] = 0 /\ direction.[2] <> 0) ->
  exists fuel,
    FieldPropagationProcess.FindFieldBoundaries
      GetMagneticField fuel posInitial direction minStep = Ok [].
Proof.
  intros Hms Hdir.
  assert (Hms' : (if Reqb minStep (-1) then 0.01 else minStep) < 5)
    by (destruct (Reqb minStep (-1)); lra).
  unfold FieldPropagationProcess.FindFieldBoundaries,
    FieldPropagationProcess.FindFieldBoundaries_from,
    FieldPropagationProcess.FindOneVolume.
  set (ms := if Reqb minStep (-1) then 0.01 else minStep) in *.
  destruct Hdir as [Hy | [(Hy & Hz & Hx) | (Hy & Hx & Hz)]].
  - rewrite (Reqb_false _ 0 Hy). rewrite !andb_false_r. cbn [andb].
    rewrite (fdiv_ok _ _ Hy). cbn [bind].
    match goal with
    | |- exists fuel, bind (FieldPropagationProcess.FindOneVolume_general _ fuel ?p _ _) _ = _ =>
        destruct (FindOneVolume_general_zero_field p direction ms Hy Hms') as [m Hm]
    end.
    exists (S m). destruct (Hm (S m) ltac:(lia)) as (p & -> & Hout).
    cbn [bind fst]. now rewrite Hout.
  - rewrite (Reqb_true _ 0 Hy), (Reqb_true _ 0 Hz). cbn [andb].
    match goal with
    | |- exists fuel, bind (FieldPropagationProcess.FindOneVolume_axis _ _ fuel ?p _ _) _ = _ =>
        destruct (FindOneVolume_axis_zero_field 0 p direction ms Hx Hms') as [m Hm]
    end.
    exists (S m). destruct (Hm (S m) ltac:(lia)) as (p & -> & Hout).
    cbn [bind fst]. now rewrite Hout.
  - rewrite (Reqb_true _ 0 Hy), (Reqb_false _ 0 Hz), (Reqb_true _ 0 Hx).
    rewrite !andb_false_r. cbn [andb].
    match goal with
    | |- exists fuel, bind (FieldPropagationProcess.FindOneVolume_axis _ _ fuel ?p _ _) _ = _ =>
        destruct (FindOneVolume_axis_zero_field 2 p direction ms Hz Hms') as [m Hm]
    end.
    exists (S m). destruct (Hm (S m) ltac:(lia)) as (p & -> & Hout).
    cbn [bind fst]. now rewrite Hout.
Qed.

End ZeroField.

Lemma FindFieldBoundaries_zero_field_witness :
  (forall x y z, no_field x y z = zero3) /\
  0.01 < 5 /\
  ((mkVector3 1 0 0).[1] <> 0 \/
   ((mkVector3 1 0 0).[1] = 0 /\ (mkVector3 1 0 0).[2] = 0 /\ (mkVector3 1 0 0).[0] <> 0) \/
   ((mkVector3 1 0 0).[1] = 0 /\ (mkVector3 1 0 0).[0] = 0 /\ (mkVector3 1 0 0).[2] <> 0)) /\
  exists fuel,
    FieldPropagationProcess.FindFieldBoundaries
      no_field fuel (mkVector3 0 0 0) (mkVector3 1 0 0) 0.01 = Ok [].
Proof.
  assert (H1 : forall x y z, no_field x y z = zero3) by reflexivity.
  assert (H2 : 0.01 < 5) by lra.
  assert (H3 : (mkVector3 1 0 0).[1] <> 0 \/
               ((mkVector3 1 0 0).[1] = 0 /\ (mkVector3 1 0 0).[2] = 0 /\
                (mkVector3 1 0 0).[0] <> 0) \/
               ((mkVector3 1 0 0).[1] = 0 /\ (mkVector3 1 0 0).[0] = 0 /\
                (mkVector3 1 0 0).[2] <> 0)).
  { right. left. cbn. repeat split; lra. }
  split; [exact H1 | split; [exact H2 | split; [exact H3 |]]].
  exact (FindFieldBoundaries_zero_field
           no_field H1 (mkVector3 0 0 0) (mkVector3 1 0 0) 0.01 H2 H3).
Defined.

(** ** The scalar conversion probability: sign, bound, scaling, failure *)

Lemma sin_sqr_le (x : R) : sin x * sin x <= x * x.
Proof.
  assert (Hpos : forall y, 0 < y -> - y <= sin y <= y).
  { intros y Hy. split; [| left; now apply sin_lt_x].
    destruct (Rle_dec y 1) as [Hle | Hgt].
    - assert (0 <= sin y).
      { apply sin_ge_0; [lra |]. pose proof PI2_3_2. lra. }
      lra.
    - pose proof (SIN_bound y). lra. }
  destruct (Rtotal_order x 0) as [Hneg | [-> | Hp]].
  - destruct (Hpos (- x) ltac:(lra)) as [H1 H2]. rewrite sin_neg in H1, H2. nra.
  - rewrite sin_0. lra.
  - destruct (Hpos x Hp). nra.
Qed.

Lemma one_minus_cos_le (phi : R) : 2 - 2 * cos phi <= phi * phi.
Proof.
  replace phi with (2 * (phi / 2)) at 1 by lra.
  rewrite cos_2a_sin. pose proof (sin_sqr_le (phi / 2)). nra.
Qed.

(** The last factor of the returned product is a squared modulus,
    [|1 - exp (- GammaL / 2) * exp (i phi)|^2]. *)
Lemma absorption_bracket_nonneg (GammaL phi : R) :
  0 <= 1 + exp (- GammaL) - 2 * exp (- GammaL / 2) * cos phi.
Proof.
  replace (- GammaL) with (- GammaL / 2 + - GammaL / 2) at 1 by lra.
  rewrite exp_plus.
  pose proof (exp_pos (- GammaL / 2)) as He. pose proof (COS_bound phi) as [_ Hc].
  set (e := exp (- GammaL / 2)) in *. clearbody e.
  assert (H1 : e * cos phi <= e * 1) by (apply Rmult_le_compat_l; lra).
  pose proof (Rle_0_sqr (1 - e)) as H2. unfold Rsqr in H2.
  lra.
Qed.

Lemma MFactor_pos (phi GammaL : R) :
  phi * phi + GammaL * GammaL / 4 <> 0 -> 0 < phi * phi + GammaL * GammaL / 4.
Proof.
  intros H. pose proof (Rle_0_sqr phi) as H1. pose proof (Rle_0_sqr GammaL) as H2.
  unfold Rsqr in H1, H2.
  destruct (Rle_lt_or_eq_dec 0 (phi * phi + GammaL * GammaL / 4)) as [Hlt | Heq];
    [lra | exact Hlt | congruence].
Qed.

Section PhotonConversionMore.

Variables lightSpeed naturalElectron PhMeterIneV : R.
Variable fBufferGas : option TRestAxionBufferGas.

Local Abbreviation GTP :=
  (GammaTransmissionProbability lightSpeed naturalElectron PhMeterIneV fBufferGas).
Local Abbreviation BLHS := (BLHalfSquared lightSpeed naturalElectron).

Lemma BLHalfSquared_nonneg (Bmag Lcoh : R) : 0 <= BLHS Bmag Lcoh.
Proof.
  unfold BLHalfSquared. cbv zeta.
  set (s := Lcoh / 1000 * Bmag * (lightSpeed / naturalElectron * 1.0e-9) / 2).
  assert (0 <= s * s) by nra. lra.
Qed.


(** The three ways the scalar overload can end: the early return, a
    division by zero, or the full product. *)
Lemma GammaTransmissionProbability_cases (Ea Bmag ma Lcoh : R) :
  let photonMass := photonMass_of fBufferGas Ea in
  let q := (ma * ma - photonMass * photonMass) / 2 / Ea / 1000 in
  let phi := q * (Lcoh / 1000 * PhMeterIneV) in
  let GammaL := Gamma_of fBufferGas Ea * (Lcoh / 1000) * 100 in
  let MFactor := phi * phi + GammaL * GammaL / 4 in
  (ma = 0 /\ photonMass = 0 /\ GTP Ea Bmag ma Lcoh = Ok (BLHS Bmag Lcoh)) \/
  (~ (ma = 0 /\ photonMass = 0) /\ (Ea = 0 \/ MFactor = 0) /\
   GTP Ea Bmag ma Lcoh = Err NonFinite) \/
  (~ (ma = 0 /\ photonMass = 0) /\ Ea <> 0 /\ MFactor <> 0 /\
   GTP Ea Bmag ma Lcoh =
   Ok (1 / MFactor * BLHS Bmag Lcoh *
       (1 + exp (- GammaL) - 2 * exp (- GammaL / 2) * cos phi))).
Proof.
  cbv zeta. unfold GammaTransmissionProbability. cbv zeta.
  destruct (Req_dec_T ma 0) as [Hma | Hma];
    [destruct (Req_dec_T (photonMass_of fBufferGas Ea) 0) as [Hpm | Hpm] |].
  - left. rewrite (Reqb_true _ _ Hma), (Reqb_true _ _ Hpm). auto.
  - right. rewrite (Reqb_false _ _ Hpm), andb_false_r.
    assert (Hnot : ~ (ma = 0 /\ photonMass_of fBufferGas Ea = 0)) by tauto.
    destruct (Req_dec_T Ea 0) as [HEa | HEa].
    + left. subst Ea. rewrite fdiv_zero. auto.
    + rewrite (fdiv_ok _ _ HEa). cbn [bind].
      match goal with |- context [fdiv 1 ?m] => destruct (Req_dec_T m 0) as [HM | HM] end.
      * left. rewrite HM, fdiv_zero. auto.
      * right. rewrite (fdiv_ok _ _ HM). auto.
  - right. rewrite (Reqb_false _ _ Hma). cbn [andb].
    assert (Hnot : ~ (ma = 0 /\ photonMass_of fBufferGas Ea = 0)) by tauto.
    destruct (Req_dec_T Ea 0) as [HEa | HEa].
    + left. subst Ea. rewrite fdiv_zero. auto.
    + rewrite (fdiv_ok _ _ HEa). cbn [bind].
      match goal with |- context [fdiv 1 ?m] => destruct (Req_dec_T m 0) as [HM | HM] end.
      * left. rewrite HM, fdiv_zero. auto.
      * right. rewrite (fdiv_ok _ _ HM). auto.
Qed.

(** X5. Whenever the scalar GammaTransmissionProbability returns a value,
    that value is not negative: with or without buffer gas, for every axion
    mass, energy, field and length. *)
Theorem GammaTransmissionProbability_nonneg (Ea Bmag ma Lcoh p : R) :
  GammaTransmissionProbability lightSpeed naturalElectron PhMeterIneV fBufferGas
                               Ea Bmag ma Lcoh = Ok p ->
  0 <= p.
Proof.
  intros H.
  destruct (GammaTransmissionProbability_cases Ea Bmag ma Lcoh)
    as [(_ & _ & E) | [(_ & _ & E) | (_ & _ & HM & E)]];
    cbv zeta in *; rewrite E in H; try discriminate; injection H as <-.
  - apply BLHalfSquared_nonneg.
  - apply Rmult_le_pos; [apply Rmult_le_pos |].
    + left. apply Rdiv_lt_0_compat; [lra |]. now apply MFactor_pos.
    + apply BLHalfSquared_nonneg.
    + apply absorption_bracket_nonneg.
Qed.

(** X6. Without absorption at the energy [Ea] (vacuum in particular) the
    value returned by the scalar GammaTransmissionProbability never exceeds
    [BLHalfSquared Bmag Lcoh], the value of the fully coherent case. *)
Theorem GammaTransmissionProbability_vacuum_bound (Ea Bmag ma Lcoh p : R) :
  Gamma_of fBufferGas Ea = 0 ->
  GammaTransmissionProbability lightSpeed naturalElectron PhMeterIneV fBufferGas
                               Ea Bmag ma Lcoh = Ok p ->
  p <= BLHalfSquared lightSpeed naturalElectron Bmag Lcoh.
Proof.
  intros HG H.
  destruct (GammaTransmissionProbability_cases Ea Bmag ma Lcoh)
    as [(_ & _ & E) | [(_ & _ & E) | (_ & _ & HM & E)]];
    cbv zeta in *; rewrite E in H; try discriminate; injection H as <-.
  - lra.
  - rewrite HG in *.
    set (phi := (ma * ma - photonMass_of fBufferGas Ea * photonMass_of fBufferGas Ea) /
                2 / Ea / 1000 * (Lcoh / 1000 * PhMeterIneV)) in *.
    clearbody phi.
    replace (0 * (Lcoh / 1000) * 100) with 0 in * by (unfold Rdiv; ring).
    pose proof (MFactor_pos phi 0 HM) as Hpp.
    replace (phi * phi + 0 * 0 / 4) with (phi * phi) in * by (unfold Rdiv; ring).
    replace (- 0 / 2) with 0 by lra. rewrite Ropp_0, exp_0.
    pose proof (one_minus_cos_le phi) as Hc.
    pose proof (BLHalfSquared_nonneg Bmag Lcoh) as HB.
    assert (Hphi : phi <> 0) by (intros Hz; rewrite Hz in Hpp; lra).
    replace (1 / (phi * phi) * BLHS Bmag Lcoh * (1 + 1 - 2 * 1 * cos phi))
      with (BLHS Bmag Lcoh * ((2 - 2 * cos phi) / (phi * phi))) by (field; exact Hphi).
    rewrite <- (Rmult_1_r (BLHS Bmag Lcoh)) at 2.
    apply Rmult_le_compat_l; [exact HB |].
    apply (Rmult_le_reg_r (phi * phi)); [exact Hpp |].
    unfold Rdiv. rewrite Rmult_assoc, Rinv_l by lra. lra.
Qed.


End PhotonConversionMore.

(** X5, at a concrete input: a 1 eV axion in vacuum at the energy of a half
    turn of the phase. *)
Lemma GammaTransmissionProbability_nonneg_witness :
  GammaTransmissionProbability
    REST_Physics.lightSpeed REST_Physics.naturalElectron REST_Physics.PhMeterIneV None
    half_turn_energy 1 1 1000 =
  Ok (4 / (PI * PI) *
      BLHalfSquared REST_Physics.lightSpeed REST_Physics.naturalElectron 1 1000) /\
  0 <= 4 / (PI * PI) *
       BLHalfSquared REST_Physics.lightSpeed REST_Physics.naturalElectron 1 1000.
Proof.
  split; [exact scalar_at_half_turn |].
  exact (GammaTransmissionProbability_nonneg
           REST_Physics.lightSpeed REST_Physics.naturalElectron REST_Physics.PhMeterIneV
           None half_turn_energy 1 1 1000 _ scalar_at_half_turn).
Defined.

(** X6, at the same input: [4 / PI^2] of the coherent value. *)
Lemma GammaTransmissionProbability_vacuum_bound_witness :
  Gamma_of None half_turn_energy = 0 /\
  GammaTransmissionProbability
    REST_Physics.lightSpeed REST_Physics.naturalElectron REST_Physics.PhMeterIneV None
    half_turn_energy 1 1 1000 =
  Ok (4 / (PI * PI) *
      BLHalfSquared REST_Physics.lightSpeed REST_Physics.naturalElectron 1 1000) /\
  4 / (PI * PI) *
  BLHalfSquared REST_Physics.lightSpeed REST_Physics.naturalElectron 1 1000 <=
  BLHalfSquared REST_Physics.lightSpeed REST_Physics.naturalElectron 1 1000.
Proof.
  split; [reflexivity | split; [exact scalar_at_half_turn |]].
  exact (GammaTransmissionProbability_vacuum_bound
           REST_Physics.lightSpeed REST_Physics.naturalElectron REST_Physics.PhMeterIneV
           None half_turn_energy 1 1 1000 _ eq_refl scalar_at_half_turn).
Defined.


(** ** The conversion probability of a field profile: sign, edge cases,
       mean field, scaling *)

Lemma fill_all_axis (ind w : list R) :
  forall h,
    fNbins (fill_all h ind w) = fNbins h /\
    fXmin (fill_all h ind w) = fXmin h /\
    fXmax (fill_all h ind w) = fXmax h.
Proof.
  unfold fill_all. generalize (combine ind w) as l.
  induction l as [| p l IH]; intros h; [now cbn |].
  cbn [fold_left]. destruct (IH (Fill h (fst p) (snd p))) as (H1 & H2 & H3).
  now rewrite H1, H2, H3.
Qed.

Lemma Integral_TH1F_new (nbins : Z) (xlow xup : R) (binx1 binx2 : Z) :
  Integral (TH1F_new nbins xlow xup) binx1 binx2 = 0.
Proof. unfold Integral. cbv zeta. apply sum_list_zero. Qed.




Section ProfileMore.

Variables lightSpeed naturalElectron PhMeterIneV : R.
Variable fBufferGas : option TRestAxionBufferGas.

Local Abbreviation GTP_profile :=
  (GammaTransmissionProbability_profile lightSpeed naturalElectron PhMeterIneV fBufferGas).

(** The returned value is [Factor] times a sum of two squares. *)
Lemma profile_value_nonneg (Ea : R) (B : list R) (ma Lcoh p : R) :
  GTP_profile Ea B ma Lcoh = Ok p -> 0 <= p.
Proof.
  unfold GammaTransmissionProbability_profile. cbv zeta. intros H.
  destruct (fdiv _ Ea) as [q |]; [| discriminate]. cbn [bind] in H.
  destruct (_ =? 0)%Z; [discriminate |].
  destruct (fdiv _ _) as [ix |]; [| discriminate]. cbn [bind] in H.
  destruct (fdiv _ _) as [iy |]; [| discriminate]. cbn [bind] in H.
  injection H as <-.
  unfold Cmul, Conjugate, Cadd_real, Cscale, TComplex_I. cbn [Re Im].
  set (tm := lightSpeed / naturalElectron * 1.0e-9 / 2).
  pose proof (Rle_0_sqr tm) as H1. pose proof (Rle_0_sqr ix) as H2.
  pose proof (Rle_0_sqr iy) as H3. unfold Rsqr in *. clearbody tm.
  apply Rmult_le_pos; [nra | nra].
Qed.

(** X9. Whenever the profile overload of GammaTransmissionProbability
    returns a value, that value is not negative, whatever the signs of the
    field samples. *)
Theorem GammaTransmissionProbability_profile_nonneg
        (Ea : R) (B : list R) (ma Lcoh p : R) :
  GammaTransmissionProbability_profile
    lightSpeed naturalElectron PhMeterIneV fBufferGas
    Ea B ma Lcoh = Ok p -> 0 <= p.
Proof. exact (profile_value_nonneg Ea B ma Lcoh p). Qed.

(** X11. For an empty profile, a non-zero energy and a positive length the
    two loops do nothing, the histograms stay empty, and the value returned
    is [0]. *)
Theorem GammaTransmissionProbability_profile_empty (Ea ma Lcoh : R) :
  Ea <> 0 -> 0 < Lcoh ->
  GammaTransmissionProbability_profile
    lightSpeed naturalElectron PhMeterIneV fBufferGas
    Ea [] ma Lcoh = Ok 0.
Proof.
  intros HEa HL.
  unfold GammaTransmissionProbability_profile. cbv zeta.
  rewrite (fdiv_ok _ _ HEa). cbn [bind length Z.of_nat].
  change (0 - 1 =? 0)%Z with false. cbv iota.
  change (seq 0 (Z.to_nat (0 - 1 + 1))) with (@nil nat). cbn [map].
  change (fill_all ?h [] []) with h.
  rewrite !Integral_TH1F_new.
  set (h := TH1F_new (0 - 1 + 1) 0 (Lcoh / 1000)).
  assert (Hn : fNbins h = 1%Z) by reflexivity.
  assert (Hd : IZR (FindBin h (Lcoh / 1000) - FindBin h 0) <> 0).
  { assert (Hax : fXmin h < fXmax h) by (cbn; lra).
    pose proof (FindBin_xmin h ltac:(rewrite Hn; lia) Hax) as Hmin.
    pose proof (FindBin_xmax h) as Hmax.
    rewrite (Rltb_false (fXmax h)) in Hmax by lra.
    change (fXmin h) with 0 in Hmin. change (fXmax h) with (Lcoh / 1000) in Hmax.
    rewrite Hmin, Hmax, Hn. cbn. lra. }
  rewrite !(fdiv_ok _ _ Hd). cbn [bind].
  f_equal. unfold Cmul, Conjugate, Cadd_real, Cscale, TComplex_I. cbn [Re Im].
  unfold Rdiv. ring.
Qed.



End ProfileMore.

(** X9, at a concrete input: two samples of 1 T over 1000 mm at the energy
    of a half turn, where the two samples cancel. *)
Lemma GammaTransmissionProbability_profile_nonneg_witness :
  GammaTransmissionProbability_profile
    REST_Physics.lightSpeed REST_Physics.naturalElectron REST_Physics.PhMeterIneV None
    half_turn_energy [1; 1] 1 1000 = Ok 0 /\
  0 <= 0.
Proof.
  split; [exact profile_at_half_turn |].
  exact (GammaTransmissionProbability_profile_nonneg
           REST_Physics.lightSpeed REST_Physics.naturalElectron REST_Physics.PhMeterIneV
           None half_turn_energy [1; 1] 1 1000 0 profile_at_half_turn).
Defined.

(** X11, at a concrete input. *)
Lemma GammaTransmissionProbability_profile_empty_witness :
  4.2 <> 0 /\ 0 < 4000 /\
  GammaTransmissionProbability_profile
    REST_Physics.lightSpeed REST_Physics.naturalElectron REST_Physics.PhMeterIneV None
    4.2 [] 0 4000 = Ok 0.
Proof.
  assert (H1 : 4.2 <> 0) by lra.
  assert (H2 : 0 < 4000) by lra.
  split; [exact H1 | split; [exact H2 |]].
  exact (GammaTransmissionProbability_profile_empty
           REST_Physics.lightSpeed REST_Physics.naturalElectron REST_Physics.PhMeterIneV
           None 4.2 0 4000 H1 H2).
Defined.



(** ** FindOneVolume: what the returned pair brackets *)

Section BracketFacts.

Variable GetMagneticField : R -> R -> R -> TVector3.

Local Abbreviation field_at := (FieldPropagationProcess.field_at GetMagneticField).
Local Abbreviation scan_to_field := (FieldPropagationProcess.scan_to_field GetMagneticField).
Local Abbreviation scan_out_of_field :=
  (FieldPropagationProcess.scan_out_of_field GetMagneticField).
Local Abbreviation FindOneVolume_axis_loop :=
  (FieldPropagationProcess.FindOneVolume_axis_loop GetMagneticField).
Local Abbreviation FindOneVolume := (FieldPropagationProcess.FindOneVolume GetMagneticField).
Local Abbreviation FindFieldBoundaries :=
  (FieldPropagationProcess.FindFieldBoundaries GetMagneticField).

(** A scan that has moved stopped one step after a point without field. *)
Lemma scan_to_field_predecessor (k : nat) (dir : TVector3) (dr : R) :
  forall fuel pos pos',
    scan_to_field k dir dr fuel pos = Ok pos' ->
    pos' = pos \/
    field_at (set_coord pos' k (pos'.[k] - dir.[k] * dr)) = zero3.
Proof.
  induction fuel as [| fuel IH]; intros pos pos' H; [discriminate |].
  cbn [FieldPropagationProcess.scan_to_field] in H.
  destruct (V3eqb (field_at pos) zero3) eqn:Hf; cbn [andb] in H;
    [| injection H as <-; now left].
  destruct (Rleb (-40000) pos.[k] && Rleb pos.[k] 40000);
    [| injection H as <-; now left].
  apply V3eqb_eq in Hf.
  destruct (IH _ _ H) as [-> | Hprev]; [| now right].
  right. rewrite set_coord_twice, coord_set_coord.
  rewrite set_coord_same by lra. exact Hf.
Qed.

(** The exit scan stops one step after a point with field. *)
Lemma scan_out_of_field_predecessor (k : nat) (dir : TVector3) (dr : R) :
  forall fuel pos pos',
    scan_out_of_field k dir dr fuel pos = Ok pos' ->
    field_at pos <> zero3 ->
    field_at (set_coord pos' k (pos'.[k] - dir.[k] * dr)) <> zero3.
Proof.
  induction fuel as [| fuel IH]; intros pos pos' H Hf; [discriminate |].
  cbn [FieldPropagationProcess.scan_out_of_field] in H.
  apply V3eqb_neq in Hf. rewrite Hf in H. cbn [negb] in H.
  destruct fuel as [| fuel]; [discriminate |].
  cbn [FieldPropagationProcess.scan_out_of_field] in H.
  destruct (V3eqb (field_at (set_coord pos k (pos.[k] + dir.[k] * dr))) zero3) eqn:Hn;
    cbn [negb] in H.
  - injection H as <-. rewrite set_coord_twice, coord_set_coord.
    rewrite set_coord_same by lra. now apply V3eqb_neq.
  - apply (IH (set_coord pos k (pos.[k] + dir.[k] * dr))).
    + cbn [FieldPropagationProcess.scan_out_of_field]. now rewrite Hn.
    + now apply V3eqb_neq.
Qed.

(** The invariant of the halving loop: the current point has no field, and
    from the second round on a point with field lies two steps ahead. *)
Lemma FindOneVolume_axis_loop_brackets
      (k : nat) (dir : TVector3) (minStep : R) (fuel : nat) :
  forall n dr pos b,
    field_at pos = zero3 ->
    (minStep < dr \/
     (minStep < dr * 2 /\
      exists p, field_at p <> zero3 /\
                pos = set_coord p k (p.[k] - dir.[k] * (dr * 2)))) ->
    FindOneVolume_axis_loop k dir minStep fuel n dr pos = Ok b ->
    FieldPropagationProcess.outside_axis k (fst b) = false ->
    exists dr',
      dr' <= minStep < dr' * 2 /\
      field_at (fst b) <> zero3 /\
      field_at (set_coord (fst b) k ((fst b).[k] - dir.[k] * (dr' * 2))) = zero3 /\
      field_at (snd b) = zero3 /\
      field_at (set_coord (snd b) k ((snd b).[k] - dir.[k] * dr')) <> zero3.
Proof.
  induction n as [| n IH]; intros dr pos b Hzero Hinv H Hin; [discriminate |].
  rewrite FindOneVolume_axis_loop_round in H.
  destruct (Rltb minStep dr) eqn:Hlt.
  - apply Rltb_lt in Hlt.
    destruct (scan_to_field k dir dr fuel pos) as [pos1 |] eqn:Hscan; [| discriminate].
    cbn [bind] in H.
    destruct (Rltb pos1.[k] (-40000) || Rltb 40000 pos1.[k]) eqn:Hout.
    + injection H as <-. cbn [fst] in Hin.
      unfold FieldPropagationProcess.outside_axis in Hin. congruence.
    + pose proof (scan_to_field_stops _ _ _ _ _ _ _ Hscan) as Hstop.
      assert (Hf1 : field_at pos1 <> zero3).
      { intros Hz. rewrite Hz, V3eqb_refl in Hstop. cbn [andb] in Hstop.
        apply orb_false_iff in Hout. destruct Hout as [Ho1 Ho2].
        apply andb_false_iff in Hstop. unfold Rleb, Rltb in *.
        destruct Hstop as [Hs | Hs];
          [destruct (Rle_dec (-40000) pos1.[k]), (Rlt_dec pos1.[k] (-40000))
          | destruct (Rle_dec pos1.[k] 40000), (Rlt_dec 40000 pos1.[k])];
          try discriminate; lra. }
      destruct (scan_to_field_predecessor _ _ _ _ _ _ Hscan) as [-> | Hprev];
        [contradiction |].
      apply (IH _ _ _ Hprev) in H; [exact H | | exact Hin].
      right. split; [lra |]. exists pos1. split; [exact Hf1 |].
      f_equal. lra.
  - destruct Hinv as [Hlt' | (Hms & p & Hp & ->)].
    + apply Rltb_true in Hlt'. congruence.
    + cbv zeta in H. rewrite set_coord_twice, coord_set_coord in H.
      rewrite (set_coord_same p) in H by lra.
      destruct (scan_out_of_field k dir dr fuel p) as [pos2 |] eqn:Hscan; [| discriminate].
      cbn [bind] in H. injection H as <-. cbn [fst snd] in *.
      exists dr. repeat split.
      * unfold Rltb in Hlt. destruct (Rlt_dec minStep dr); [discriminate | lra].
      * exact Hms.
      * exact Hp.
      * exact Hzero.
      * eapply scan_out_of_field_stops; eassumption.
      * eapply scan_out_of_field_predecessor; eassumption.
Qed.

(** X14. Accuracy of FindOneVolume along x or z.  When the search starts at
    a point without field, runs with [minStep < 5] and returns an entry
    point inside the search domain, the last step length [dr] satisfies
    [dr <= minStep < 2 dr], the entry point has field and the point [2 dr]
    before it has none, the exit point has no field and the point [dr]
    before it has field: each field edge is bracketed within [2 minStep]. *)
Theorem FindOneVolume_brackets_the_boundaries
        (k : nat) (fuel : nat) (pos dir : TVector3) (minStep : R) (bIn bOut : TVector3) :
  (k = 0%nat /\ dir.[1] = 0 /\ dir.[2] = 0) \/
  (k = 2%nat /\ dir.[0] = 0 /\ dir.[1] = 0 /\ dir.[2] <> 0) ->
  minStep < 5 ->
  field_at (set_coord pos k (pos.[k] + dir.[k] * minStep / 2)) = zero3 ->
  FindOneVolume fuel pos dir minStep = Ok (bIn, bOut) ->
  -40000 <= bIn.[k] <= 40000 ->
  exists dr,
    dr <= minStep < dr * 2 /\
    field_at bIn <> zero3 /\
    field_at (set_coord bIn k (bIn.[k] - dir.[k] * (dr * 2))) = zero3 /\
    field_at bOut = zero3 /\
    field_at (set_coord bOut k (bOut.[k] - dir.[k] * dr)) <> zero3.
Proof.
  intros Hcase Hms Hstart H Hdom.
  assert (Haxis : FieldPropagationProcess.FindOneVolume_axis
                    GetMagneticField k fuel pos dir minStep = Ok (bIn, bOut)).
  { unfold FieldPropagationProcess.FindOneVolume in H.
    destruct Hcase as [(-> & Hy & Hz) | (-> & Hx & Hy & Hz)].
    - now rewrite (Reqb_true _ _ Hy), (Reqb_true _ _ Hz) in H.
    - now rewrite (Reqb_true _ _ Hy), (Reqb_false _ _ Hz), (Reqb_true _ _ Hx) in H. }
  unfold FieldPropagationProcess.FindOneVolume_axis in Haxis.
  apply (FindOneVolume_axis_loop_brackets _ _ _ _ _ _ _ _ Hstart) in Haxis.
  - exact Haxis.
  - now left.
  - cbn [fst]. unfold FieldPropagationProcess.outside_axis.
    now rewrite !Rltb_false by lra.
Qed.

(** X15. With [minStep >= 5] the halving loop of FindOneVolume is skipped:
    along x the entry point is taken [minStep / 2 + 10] direction lengths
    after the start without looking at the field in between, and when there
    is no field at that point the pair returned is that point twice. *)
Theorem FindOneVolume_coarse_minStep
        (fuel : nat) (pos : TVector3) (d minStep : R) :
  5 <= minStep ->
  let p := set_coord pos 0 (pos.[0] + d * minStep / 2 + d * 5 * 2) in
  field_at p = zero3 ->
  FindOneVolume (S fuel) pos (mkVector3 d 0 0) minStep = Ok (p, p).
Proof.
  intros Hms p Hp.
  unfold FieldPropagationProcess.FindOneVolume. cbn [coord fX fY fZ].
  rewrite (Reqb_true 0 0 eq_refl). cbn [andb].
  unfold FieldPropagationProcess.FindOneVolume_axis.
  rewrite FindOneVolume_axis_loop_round, (Rltb_false minStep 5) by lra.
  cbv zeta. rewrite set_coord_twice, coord_set_coord.
  cbn [FieldPropagationProcess.scan_out_of_field].
  change ((mkVector3 d 0 0).[0]) with d. fold p.
  now rewrite Hp, V3eqb_refl.
Qed.


End BracketFacts.

Lemma slab_field_in (x y z : R) : 3 <= x < 8 -> slab_field x y z <> zero3.
Proof.
  intros H. unfold slab_field. rewrite Rleb_true, Rltb_true by lra. cbn [andb].
  unfold zero3. intros E. injection E. lra.
Qed.

Lemma slab_field_out (x y z : R) : x < 3 \/ 8 <= x -> slab_field x y z = zero3.
Proof.
  intros [H | H]; unfold slab_field.
  - now rewrite Rleb_false by lra.
  - rewrite (Rltb_false x 8) by lra. now rewrite andb_false_r.
Qed.

(** A ray along x from the origin with [minStep = 4]: the coarse scan goes
    from [x = 2] to [x = 7], the halving loop steps back to [x = 2] and
    ends with [dr = 2.5], and the exit scan goes from [x = 7] to
    [x = 9.5]. *)
Lemma slab_field_volume :
  FieldPropagationProcess.FindOneVolume
    slab_field 3 (mkVector3 0 0 0) (mkVector3 1 0 0) 4 =
  Ok (mkVector3 7 0 0, mkVector3 9.5 0 0).
Proof.
  unfold FieldPropagationProcess.FindOneVolume, FieldPropagationProcess.FindOneVolume_axis.
  cbn [coord set_coord fX fY fZ].
  repeat R_test. cbn [andb].
  rewrite FindOneVolume_axis_loop_round. R_test.
  rewrite (scan_to_field_steps slab_field 0 _ _ 1).
  2: lia.
  2: { intros i Hi. assert (i = 0%nat) as -> by lia.
       cbv zeta. cbn [coord set_coord fX fY fZ INR]. split; [| lra].
       apply slab_field_out. cbn [coord fX]. lra. }
  2: { cbv zeta. left. apply slab_field_in. cbn [coord set_coord fX fY fZ INR]. lra. }
  cbn [coord set_coord fX fY fZ INR bind]. repeat R_test. cbn [orb].
  rewrite FindOneVolume_axis_loop_round. R_test.
  cbv zeta. cbn [coord set_coord fX fY fZ].
  rewrite (scan_out_of_field_steps slab_field 0 _ _ 1).
  2: lia.
  2: { intros i Hi. assert (i = 0%nat) as -> by lia.
       apply slab_field_in. cbn [coord set_coord fX fY fZ INR]. lra. }
  2: { apply slab_field_out. cbn [coord set_coord fX fY fZ INR]. lra. }
  cbn [coord set_coord fX fY fZ INR bind]. do 2 f_equal; f_equal; lra.
Qed.

(** X14, at a concrete input: the slab [3 <= x < 8] is found as the pair
    [x = 7], [x = 9.5]. *)
Lemma FindOneVolume_brackets_the_boundaries_witness :
  ((0 = 0)%nat /\ (mkVector3 1 0 0).[1] = 0 /\ (mkVector3 1 0 0).[2] = 0) /\
  4 < 5 /\
  FieldPropagationProcess.field_at slab_field
    (set_coord (mkVector3 0 0 0) 0 ((mkVector3 0 0 0).[0] + (mkVector3 1 0 0).[0] * 4 / 2)) =
  zero3 /\
  FieldPropagationProcess.FindOneVolume
    slab_field 3 (mkVector3 0 0 0) (mkVector3 1 0 0) 4 =
  Ok (mkVector3 7 0 0, mkVector3 9.5 0 0) /\
  -40000 <= (mkVector3 7 0 0).[0] <= 40000 /\
  exists dr,
    dr <= 4 < dr * 2 /\
    FieldPropagationProcess.field_at slab_field (mkVector3 7 0 0) <> zero3 /\
    FieldPropagationProcess.field_at slab_field
      (set_coord (mkVector3 7 0 0) 0
                 ((mkVector3 7 0 0).[0] - (mkVector3 1 0 0).[0] * (dr * 2))) = zero3 /\
    FieldPropagationProcess.field_at slab_field (mkVector3 9.5 0 0) = zero3 /\
    FieldPropagationProcess.field_at slab_field
      (set_coord (mkVector3 9.5 0 0) 0
                 ((mkVector3 9.5 0 0).[0] - (mkVector3 1 0 0).[0] * dr)) <> zero3.
Proof.
  assert (H1 : (0 = 0)%nat /\ (mkVector3 1 0 0).[1] = 0 /\ (mkVector3 1 0 0).[2] = 0)
    by (split; [reflexivity | split; reflexivity]).
  assert (H2 : 4 < 5) by lra.
  assert (H3 : FieldPropagationProcess.field_at slab_field
                 (set_coord (mkVector3 0 0 0) 0
                            ((mkVector3 0 0 0).[0] + (mkVector3 1 0 0).[0] * 4 / 2)) = zero3).
  { apply slab_field_out. cbn [coord set_coord fX fY fZ]. lra. }
  assert (H5 : -40000 <= (mkVector3 7 0 0).[0] <= 40000) by (cbn [coord fX]; lra).
  split; [exact H1 | split; [exact H2 | split; [exact H3 |]]].
  split; [exact slab_field_volume | split; [exact H5 |]].
  exact (FindOneVolume_brackets_the_boundaries
           slab_field 0 3 (mkVector3 0 0 0) (mkVector3 1 0 0) 4
           (mkVector3 7 0 0) (mkVector3 9.5 0 0)
           (or_introl H1) H2 H3 slab_field_volume H5).
Defined.

(** X15, at a concrete input: with [minStep = 6] the search starts at
    [x = 3], jumps to [x = 13] and returns that point twice; the slab
    [3 <= x < 8] is not seen. *)
Lemma FindOneVolume_coarse_minStep_witness :
  5 <= 6 /\
  FieldPropagationProcess.field_at slab_field
    (set_coord (mkVector3 0 0 0) 0 ((mkVector3 0 0 0).[0] + 1 * 6 / 2 + 1 * 5 * 2)) = zero3 /\
  FieldPropagationProcess.FindOneVolume
    slab_field 1 (mkVector3 0 0 0) (mkVector3 1 0 0) 6 =
  Ok (set_coord (mkVector3 0 0 0) 0 ((mkVector3 0 0 0).[0] + 1 * 6 / 2 + 1 * 5 * 2),
      set_coord (mkVector3 0 0 0) 0 ((mkVector3 0 0 0).[0] + 1 * 6 / 2 + 1 * 5 * 2)).
Proof.
  assert (H1 : 5 <= 6) by lra.
  assert (H2 : FieldPropagationProcess.field_at slab_field
                 (set_coord (mkVector3 0 0 0) 0
                            ((mkVector3 0 0 0).[0] + 1 * 6 / 2 + 1 * 5 * 2)) = zero3).
  { apply slab_field_out. cbn [coord set_coord fX fY fZ]. lra. }
  split; [exact H1 | split; [exact H2 |]].
  exact (FindOneVolume_coarse_minStep slab_field 0 (mkVector3 0 0 0) 1 6 H1 H2).
Defined.

(** ** ProcessEvent: the probability it stores *)

Lemma fold_left_Rplus_nonneg (l : list R) :
  Forall (fun x => 0 <= x) l -> forall a, 0 <= a -> 0 <= fold_left Rplus l a.
Proof.
  induction 1 as [| x l Hx _ IH]; intros a Ha; [exact Ha |].
  cbn [fold_left]. apply IH. lra.
Qed.

Section ProcessEventMore.

Variable GetMagneticField : R -> R -> R -> TVector3.
Variables lightSpeed naturalElectron PhMeterIneV : R.
Variable fBufferGas : option TRestAxionBufferGas.
Variable minStep_default : R.

Local Abbreviation ProcessEvent_probability :=
  (FieldPropagationProcess.ProcessEvent_probability
     GetMagneticField lightSpeed naturalElectron PhMeterIneV fBufferGas minStep_default).
Local Abbreviation segment_probability :=
  (FieldPropagationProcess.segment_probability
     GetMagneticField lightSpeed naturalElectron PhMeterIneV fBufferGas).
Local Abbreviation probabilities_loop :=
  (FieldPropagationProcess.probabilities_loop
     GetMagneticField lightSpeed naturalElectron PhMeterIneV fBufferGas).
Local Abbreviation GTP_profile :=
  (FieldPropagationProcess.GTP_profile lightSpeed naturalElectron PhMeterIneV fBufferGas).
Local Abbreviation GetFieldVector := (FieldPropagationProcess.GetFieldVector GetMagneticField).

Lemma segment_probability_nonneg (direction : TVector3) (Ea ma : R) (b : boundary) (p : R) :
  segment_probability direction Ea ma b = Ok p -> 0 <= p.
Proof.
  unfold FieldPropagationProcess.segment_probability. cbv zeta.
  destruct (Reqb (fst b).[0] (snd b).[0] && Reqb (fst b).[1] (snd b).[1]);
    apply profile_value_nonneg.
Qed.

Lemma probabilities_loop_nonneg (direction : TVector3) (Ea ma : R)
      (boundaries : list boundary) :
  forall count from probabilities,
    probabilities_loop direction Ea ma boundaries count from = Ok probabilities ->
    Forall (fun p => 0 <= p) probabilities.
Proof.
  induction count as [| count IH]; intros from probabilities H;
    cbn [FieldPropagationProcess.probabilities_loop] in H.
  - injection H as <-. constructor.
  - destruct (at_index boundaries from) as [b |]; [| discriminate]. cbn [bind] in H.
    destruct (segment_probability direction Ea ma b) as [p |] eqn:Hp; [| discriminate].
    cbn [bind] in H.
    destruct (probabilities_loop direction Ea ma boundaries count (S from))
      as [rest |] eqn:Hrest; [| discriminate].
    cbn [bind] in H. injection H as <-.
    constructor; [eapply segment_probability_nonneg; eassumption |].
    eapply IH; eassumption.
Qed.

(** X17. Whenever ProcessEvent gets as far as the value it hands to
    SetGammaProbability, that value is not negative. *)
Theorem ProcessEvent_probability_nonneg
        (fuel : nat) (ev : FieldPropagationProcess.TRestAxionEvent)
        (boundaries : list boundary) (probability : R) :
  ProcessEvent_probability fuel ev = Ok (boundaries, probability) ->
  0 <= probability.
Proof.
  unfold FieldPropagationProcess.ProcessEvent_probability. cbv zeta. intros H.
  destruct (FieldPropagationProcess.FindFieldBoundaries _ _ _ _ _) as [bs |];
    [| discriminate].
  cbn [bind] in H.
  destruct (probabilities_loop _ _ _ bs (length bs) 0) as [ps |] eqn:Hps; [| discriminate].
  cbn [bind] in H. injection H as _ <-.
  unfold FieldPropagationProcess.sum_probabilities.
  apply fold_left_Rplus_nonneg; [| lra].
  eapply probabilities_loop_nonneg; eassumption.
Qed.

(** X18. For a segment along y or along z (same x at both ends, and same y
    or same z) the coherence length that ProcessEvent passes to the profile
    overload is the distance between the two boundary points. *)
Theorem segment_probability_along_y_or_z
        (direction : TVector3) (Ea ma : R) (b : boundary) :
  (fst b).[0] = (snd b).[0] ->
  (fst b).[1] = (snd b).[1] \/ (fst b).[2] = (snd b).[2] ->
  segment_probability direction Ea ma b =
  GTP_profile Ea (GetFieldVector direction (fst b) (snd b) 0) ma
              (sqrt (Mag2 (V3sub (fst b) (snd b)))).
Proof.
  intros Hx Hyz. unfold FieldPropagationProcess.segment_probability. cbv zeta.
  rewrite (Reqb_true _ _ Hx). cbn [andb].
  destruct b as [[x0 y0 z0] [x1 y1 z1]]. cbn [fst snd coord fX fY fZ] in *. subst x1.
  unfold Mag2, V3sub. cbn [fX fY fZ].
  destruct (Req_dec_T y0 y1) as [-> | Hy].
  - rewrite (Reqb_true y1 y1 eq_refl). f_equal.
    replace ((x0 - x0) * (x0 - x0) + (y1 - y1) * (y1 - y1) + (z0 - z1) * (z0 - z1))
      with (Rsqr (z0 - z1)) by (unfold Rsqr; ring).
    now rewrite sqrt_Rsqr_abs.
  - rewrite (Reqb_false _ _ Hy). destruct Hyz as [E | ->]; [contradiction |].
    f_equal.
    replace ((x0 - x0) * (x0 - x0) + (y0 - y1) * (y0 - y1) + (z1 - z1) * (z1 - z1))
      with (Rsqr (y0 - y1)) by (unfold Rsqr; ring).
    now rewrite sqrt_Rsqr_abs.
Qed.

End ProcessEventMore.

Lemma floor_field_in (x y z : R) : z < -39990 -> floor_field x y z <> zero3.
Proof.
  intros H. unfold floor_field. rewrite Rltb_true by lra.
  unfold zero3. intros E. injection E. lra.
Qed.

Lemma floor_field_out (x y z : R) : -39990 <= z -> floor_field x y z = zero3.
Proof. intros H. unfold floor_field. now rewrite Rltb_false by lra. Qed.

Lemma floor_field_first_volume (fuel : nat) :
  (3 <= fuel)%nat ->
  FieldPropagationProcess.FindOneVolume
    floor_field fuel (mkVector3 0 0 (-40000)) (mkVector3 0 0 1.6) 4 =
  Ok (mkVector3 0 0 (-39996.8), mkVector3 0 0 (-39988.8)).
Proof.
  intros Hfuel. destruct fuel as [| [| [| fuel]]]; try lia.
  unfold FieldPropagationProcess.FindOneVolume, FieldPropagationProcess.FindOneVolume_axis.
  cbn [coord set_coord fX fY fZ].
  repeat R_test. cbn [andb].
  rewrite FindOneVolume_axis_loop_round. R_test.
  rewrite (scan_to_field_steps floor_field 2 _ _ 0).
  2: lia.
  2: intros i Hi; lia.
  2: { cbn. left. apply floor_field_in. cbn [coord set_coord fX fY fZ]. lra. }
  cbn [coord set_coord fX fY fZ INR bind]. repeat R_test. cbn [orb].
  rewrite FindOneVolume_axis_loop_round. R_test.
  cbv zeta. cbn [coord set_coord fX fY fZ].
  rewrite (scan_out_of_field_steps floor_field 2 _ _ 2).
  2: lia.
  2: { intros i Hi. cbn [coord set_coord fX fY fZ]. apply floor_field_in. cbn [coord set_coord fX fY fZ].
       assert (INR i <= 1). { change 1 with (INR 1). apply le_INR. lia. }
       pose proof (pos_INR i). nra. }
  2: { cbn. apply floor_field_out. cbn [coord set_coord fX fY fZ]. lra. }
  cbn [coord set_coord fX fY fZ INR bind]. do 2 f_equal; f_equal; lra.
Qed.

Lemma floor_field_second_volume :
  exists p,
    FieldPropagationProcess.FindOneVolume
      floor_field (S crossing_steps)
      (mkVector3 0 0 (-39988.8)) (mkVector3 0 0 1.6) 4 = Ok (p, zero3) /\
    FieldPropagationProcess.inside_axis 2 p = false.
Proof.
  eexists.
  unfold FieldPropagationProcess.FindOneVolume, FieldPropagationProcess.FindOneVolume_axis.
  cbn [coord set_coord fX fY fZ].
  repeat R_test. cbn [andb].
  rewrite FindOneVolume_axis_loop_round. R_test.
  rewrite (scan_to_field_steps floor_field 2 _ _ crossing_steps).
  2: lia.
  2: { intros i Hi. cbv zeta. cbn [coord set_coord fX fY fZ].
       assert (INR i + 1 <= 9999).
       { rewrite <- INR_crossing_steps, <- S_INR. apply le_INR. lia. }
       pose proof (pos_INR i). split.
       - apply floor_field_out. cbn [coord set_coord fX fY fZ]. lra.
       - lra. }
  2: { cbv zeta. cbn [coord set_coord fX fY fZ]. rewrite INR_crossing_steps.
       right. right. lra. }
  cbn [coord set_coord fX fY fZ bind]. rewrite INR_crossing_steps.
  rewrite (Rltb_true 40000) by lra. rewrite orb_true_r.
  split; [reflexivity |].
  unfold FieldPropagationProcess.inside_axis. cbn [coord fZ].
  rewrite (Rleb_false _ 40000) by lra. now rewrite andb_false_r.
Qed.

Lemma floor_field_boundaries :
  FieldPropagationProcess.FindFieldBoundaries
    floor_field (S crossing_steps) (mkVector3 0 0 0) (mkVector3 0 0 1.6) 4 =
  Ok [(mkVector3 0 0 (-39996.8), mkVector3 0 0 (-39988.8))].
Proof.
  unfold FieldPropagationProcess.FindFieldBoundaries.
  cbn [coord set_coord fX fY fZ]. repeat R_test. cbn [andb].
  replace (- (1.6) * 25000) with (-40000) by lra.
  unfold FieldPropagationProcess.FindFieldBoundaries_from.
  rewrite floor_field_first_volume by (unfold crossing_steps; lia).
  cbn [bind fst snd app].
  unfold FieldPropagationProcess.outside_axis at 1. cbn [coord fZ].
  repeat R_test. cbn [orb].
  destruct floor_field_second_volume as (p & -> & Hp).
  cbn [bind FieldPropagationProcess.FindFieldBoundaries_loop fst].
  now rewrite Hp.
Qed.

(** An event along z through [floor_field]: one volume, of length 8, and
    a probability computed from the 10^4 samples of its profile. *)
Lemma floor_field_run :
  exists probability,
    FieldPropagationProcess.ProcessEvent_probability
      floor_field REST_Physics.lightSpeed REST_Physics.naturalElectron
      REST_Physics.PhMeterIneV None 4 (S crossing_steps)
      (FieldPropagationProcess.mkEvent (mkVector3 0 0 0) (mkVector3 0 0 1.6) 4.2 0) =
    Ok ([(mkVector3 0 0 (-39996.8), mkVector3 0 0 (-39988.8))], probability).
Proof.
  unfold FieldPropagationProcess.ProcessEvent_probability. cbv zeta.
  cbn [FieldPropagationProcess.fPosition FieldPropagationProcess.fDirection
       FieldPropagationProcess.fEnergy].
  rewrite floor_field_boundaries.
  cbn [bind length FieldPropagationProcess.probabilities_loop at_index].
  unfold FieldPropagationProcess.segment_probability. cbv zeta.
  cbn [fst snd coord fX fY fZ]. repeat R_test. cbn [andb].
  unfold FieldPropagationProcess.GTP_profile.
  rewrite GammaTransmissionProbability_profile_sum.
  - cbv zeta. cbn [bind]. eexists. reflexivity.
  - lra.
  - apply Rabs_pos_lt. lra.
  - unfold FieldPropagationProcess.GetFieldVector,
      FieldPropagationProcess.GetFieldVector_points.
    rewrite length_map. change (Nat.eqb 0 0) with true. cbv iota zeta.
    cbn [length]. rewrite GetFieldVector_loop_length.
    apply Nat.leb_le. vm_compute. reflexivity.
Qed.

(** X17, at a concrete input: an event along z that crosses one field
    volume. *)
Lemma ProcessEvent_probability_nonneg_witness :
  exists probability,
    FieldPropagationProcess.ProcessEvent_probability
      floor_field REST_Physics.lightSpeed REST_Physics.naturalElectron
      REST_Physics.PhMeterIneV None 4 (S crossing_steps)
      (FieldPropagationProcess.mkEvent (mkVector3 0 0 0) (mkVector3 0 0 1.6) 4.2 0) =
    Ok ([(mkVector3 0 0 (-39996.8), mkVector3 0 0 (-39988.8))], probability) /\
    0 <= probability.
Proof.
  destruct floor_field_run as [probability Hrun].
  exists probability. split; [exact Hrun |].
  exact (ProcessEvent_probability_nonneg
           floor_field REST_Physics.lightSpeed REST_Physics.naturalElectron
           REST_Physics.PhMeterIneV None 4 (S crossing_steps) _ _ probability Hrun).
Defined.

(** X18, at a concrete input: a segment of length 10 along z. *)
Lemma segment_probability_along_y_or_z_witness :
  (fst (mkVector3 0 0 0, mkVector3 0 0 10)).[0] =
  (snd (mkVector3 0 0 0, mkVector3 0 0 10)).[0] /\
  (fst (mkVector3 0 0 0, mkVector3 0 0 10)).[1] =
  (snd (mkVector3 0 0 0, mkVector3 0 0 10)).[1] /\
  FieldPropagationProcess.segment_probability
    uniform_field REST_Physics.lightSpeed REST_Physics.naturalElectron
    REST_Physics.PhMeterIneV None
    (mkVector3 0 0 1) 4.2 1 (mkVector3 0 0 0, mkVector3 0 0 10) =
  FieldPropagationProcess.GTP_profile
    REST_Physics.lightSpeed REST_Physics.naturalElectron REST_Physics.PhMeterIneV None
    4.2
    (FieldPropagationProcess.GetFieldVector
       uniform_field (mkVector3 0 0 1) (mkVector3 0 0 0) (mkVector3 0 0 10) 0)
    1 (sqrt (Mag2 (V3sub (mkVector3 0 0 0) (mkVector3 0 0 10)))).
Proof.
  split; [reflexivity | split; [reflexivity |]].
  exact (segment_probability_along_y_or_z
           uniform_field REST_Physics.lightSpeed REST_Physics.naturalElectron
           REST_Physics.PhMeterIneV None (mkVector3 0 0 1) 4.2 1
           (mkVector3 0 0 0, mkVector3 0 0 10) eq_refl (or_introl eq_refl)).
Defined.

(** ** GetFieldVector: the transversal field *)

Lemma Perp2_nonneg (v p : TVector3) : 0 <= Perp2 v p.
Proof.
  unfold Perp2. cbv zeta.
  set (per := if Rltb 0 (Mag2 p) then Mag2 v - Dot v p * Dot v p / Mag2 p else Mag2 v).
  destruct (Rltb per 0) eqn:E; [lra |].
  destruct (Rlt_dec per 0) as [Hlt | Hge]; [| lra].
  rewrite (Rltb_true _ _ Hlt) in E. discriminate.
Qed.

Lemma Mag2_nonneg (v : TVector3) : 0 <= Mag2 v.
Proof.
  unfold Mag2. pose proof (Rle_0_sqr (fX v)). pose proof (Rle_0_sqr (fY v)).
  pose proof (Rle_0_sqr (fZ v)). unfold Rsqr in *. lra.
Qed.

Lemma Perp2_le_Mag2 (v p : TVector3) : Perp2 v p <= Mag2 v.
Proof.
  unfold Perp2. cbv zeta. pose proof (Mag2_nonneg v) as Hv.
  destruct (Rltb 0 (Mag2 p)) eqn:Ht.
  - apply Rltb_lt in Ht.
    assert (Hs : 0 <= Dot v p * Dot v p / Mag2 p).
    { apply Rmult_le_pos; [apply Rle_0_sqr | left; now apply Rinv_0_lt_compat]. }
    destruct (Rltb _ 0); lra.
  - destruct (Rltb _ 0); lra.
Qed.


Lemma Perp2_parallel (p : TVector3) (a : R) :
  Perp2 (V3scale p a) p = 0.
Proof.
  unfold Perp2. cbv zeta.
  assert (Hm : Mag2 (V3scale p a) = a * a * Mag2 p)
    by (unfold Mag2, V3scale; cbn; ring).
  assert (Hd : Dot (V3scale p a) p = a * Mag2 p)
    by (unfold Dot, Mag2, V3scale; cbn; ring).
  rewrite Hm, Hd. pose proof (Mag2_nonneg p) as Hp.
  destruct (Rltb 0 (Mag2 p)) eqn:Ht.
  - apply Rltb_lt in Ht.
    replace (a * a * Mag2 p - a * Mag2 p * (a * Mag2 p) / Mag2 p) with 0
      by (field; lra).
    now rewrite (Rltb_false 0 0) by lra.
  - unfold Rltb in Ht. destruct (Rlt_dec 0 (Mag2 p)); [discriminate |].
    assert (E : Mag2 p = 0) by lra. rewrite E.
    replace (a * a * 0) with 0 by ring. now rewrite (Rltb_false 0 0) by lra.
Qed.

Section GetFieldVectorMore.

Variable GetMagneticField : R -> R -> R -> TVector3.

Local Abbreviation field_at := (FieldPropagationProcess.field_at GetMagneticField).
Local Abbreviation GetFieldVector := (FieldPropagationProcess.GetFieldVector GetMagneticField).

(** X19. Every value returned by GetFieldVector lies between [0] and the
    magnitude of the field at the point where it was read. *)
Theorem GetFieldVector_within_field_magnitude
        (direction in_ out : TVector3) (N : nat) :
  Forall2 (fun p Bt => 0 <= Bt <= sqrt (Mag2 (field_at p)))
          (FieldPropagationProcess.GetFieldVector_points in_ out N)
          (GetFieldVector direction in_ out N).
Proof.
  unfold FieldPropagationProcess.GetFieldVector.
  induction (FieldPropagationProcess.GetFieldVector_points in_ out N) as [| p l IH];
    cbn [map]; constructor; [| exact IH].
  unfold Perp. rewrite Rabs_pos_eq by apply sqrt_pos.
  split; [apply sqrt_pos |]. apply sqrt_le_1.
  - apply Perp2_nonneg.
  - apply Mag2_nonneg.
  - apply Perp2_le_Mag2.
Qed.


(** X21. Where the field is everywhere a multiple of the direction of the
    event, every value returned by GetFieldVector is, in exact arithmetic,
    [0]: the clamp of Perp2 and the absolute value leave nothing.  (In
    doubles the subtraction in Perp2 rounds and a residue of the size of
    the square root of the rounding error can remain.) *)
Theorem GetFieldVector_field_along_direction
        (direction in_ out : TVector3) (N : nat) (a : TVector3 -> R) :
  (forall p, field_at p = V3scale direction (a p)) ->
  Forall (fun Bt => Bt = 0) (GetFieldVector direction in_ out N).
Proof.
  intros Hpar. unfold FieldPropagationProcess.GetFieldVector.
  apply Forall_forall. intros Bt HBt. apply in_map_iff in HBt.
  destruct HBt as (p & <- & _).
  unfold Perp. rewrite Hpar, Perp2_parallel, sqrt_0. apply Rabs_R0.
Qed.

End GetFieldVectorMore.


(** X21, at a concrete input: a field of 0.3 T on each axis and an event
    along the same diagonal. *)
Lemma GetFieldVector_field_along_direction_witness :
  (forall p, FieldPropagationProcess.field_at diagonal_field p =
             V3scale (mkVector3 1 1 1) ((fun _ => 0.3) p)) /\
  Forall (fun Bt => Bt = 0)
         (FieldPropagationProcess.GetFieldVector
            diagonal_field (mkVector3 1 1 1) (mkVector3 0 0 0) (mkVector3 10 10 10) 3).
Proof.
  assert (H : forall p, FieldPropagationProcess.field_at diagonal_field p =
                        V3scale (mkVector3 1 1 1) ((fun _ => 0.3) p)).
  { intros p. unfold FieldPropagationProcess.field_at, diagonal_field, V3scale.
    cbn [fX fY fZ]. f_equal; lra. }
  split; [exact H |].
  exact (GetFieldVector_field_along_direction
           diagonal_field (mkVector3 1 1 1) (mkVector3 0 0 0) (mkVector3 10 10 10) 3
           (fun _ => 0.3) H).
Defined.

(** ** The later ProcessEvent: its observables *)

Lemma fold_left_Rplus_bounds (lo hi : R) (l : list R) :
  Forall (fun x => lo <= x <= hi) l ->
  forall a, a + INR (length l) * lo <= fold_left Rplus l a <= a + INR (length l) * hi.
Proof.
  induction 1 as [| x l Hx _ IH]; intros a.
  - cbn. lra.
  - cbn [fold_left]. specialize (IH (a + x)).
    change (length (x :: l)) with (S (length l)). rewrite S_INR. lra.
Qed.

Section ObservablesMore.

Variable GetFieldBoundaries : TVector3 -> TVector3 -> list TVector3.
Variable GetTransversalComponentAlongPath : TVector3 -> TVector3 -> R -> list R.
Variable AxionField_GammaTransmissionProbability : list R -> R -> R -> R -> result R.
Variable units_cm : R.
Variable fBufferGas : option TRestAxionBufferGas.
Variable fBufferGasAdditionalLength : R.
Variable fIntegrationStep : R.

Local Abbreviation ProcessEvent :=
  (FieldPropagationObservables.ProcessEvent
     GetFieldBoundaries GetTransversalComponentAlongPath
     AxionField_GammaTransmissionProbability units_cm
     fBufferGas fBufferGasAdditionalLength fIntegrationStep).

(** X22. For a track with two boundary points and an empty field profile
    the later ProcessEvent still sets every observable: the field average
    is the non-finite [0 / 0], the unsigned subtraction
    [bProfile.size() - 1] wraps around, so that the coherence length is
    [(2^64 - 1) * fIntegrationStep] (the conversion to [Double_t] rounds
    the factor to [2^64]), and with a buffer gas and a positive additional
    length the transmission is the attenuation over that length. *)
Theorem ProcessEvent_empty_profile
        (ev : FieldPropagationObservables.TRestAxionEvent) (b0 b1 : TVector3) :
  GetFieldBoundaries (FieldPropagationObservables.GetPosition ev)
                     (FieldPropagationObservables.GetDirection ev) = [b0; b1] ->
  GetTransversalComponentAlongPath b0 b1 fIntegrationStep = [] ->
  let obs :=
    FieldPropagationObservables.ProcessEvent
      GetFieldBoundaries GetTransversalComponentAlongPath
      AxionField_GammaTransmissionProbability units_cm
      fBufferGas fBufferGasAdditionalLength fIntegrationStep ev in
  FieldPropagationObservables.fieldAverage obs = Err NonFinite /\
  FieldPropagationObservables.coherenceLength obs = (2 ^ 64 - 1) * fIntegrationStep /\
  (forall gas, fBufferGas = Some gas -> 0 < fBufferGasAdditionalLength ->
     FieldPropagationObservables.transmission obs =
     exp (- (GetPhotonAbsorptionLength gas (FieldPropagationObservables.GetEnergy ev) *
             ((2 ^ 64 - 1) * fIntegrationStep) * units_cm))).
Proof.
  intros Hb Hp obs. unfold obs, FieldPropagationObservables.ProcessEvent.
  rewrite Hb, Hp. cbv zeta.
  cbn [FieldPropagationObservables.fieldAverage FieldPropagationObservables.coherenceLength
       FieldPropagationObservables.transmission length INR].
  assert (Hs : FieldPropagationObservables.size_minus_1 [] = 2 ^ 64 - 1).
  { unfold FieldPropagationObservables.size_minus_1. cbn [length Z.of_nat].
    change ((0 - 1) mod 2 ^ 64)%Z with (2 ^ 64 - 1)%Z.
    rewrite minus_IZR, pow_IZR. reflexivity. }
  rewrite Hs, fdiv_zero. split; [reflexivity | split; [reflexivity |]].
  intros gas -> Hadd. now rewrite (Rltb_true 0 _ Hadd).
Qed.

(** X23. For a track with two boundary points and a non-empty field
    profile, the observable fieldAverage is, in exact arithmetic, a value
    between any lower and upper bound of the samples of the profile.  (In
    doubles the sum and the quotient round, and the mean of equal samples
    can leave the bounds by a unit in the last place.) *)
Theorem ProcessEvent_field_average_bounds
        (ev : FieldPropagationObservables.TRestAxionEvent) (b0 b1 : TVector3)
        (lo hi : R) :
  GetFieldBoundaries (FieldPropagationObservables.GetPosition ev)
                     (FieldPropagationObservables.GetDirection ev) = [b0; b1] ->
  GetTransversalComponentAlongPath b0 b1 fIntegrationStep <> [] ->
  Forall (fun x => lo <= x <= hi)
         (GetTransversalComponentAlongPath b0 b1 fIntegrationStep) ->
  exists average,
    FieldPropagationObservables.fieldAverage
      (FieldPropagationObservables.ProcessEvent
         GetFieldBoundaries GetTransversalComponentAlongPath
         AxionField_GammaTransmissionProbability units_cm
         fBufferGas fBufferGasAdditionalLength fIntegrationStep ev) = Ok average /\
    lo <= average <= hi.
Proof.
  intros Hb Hne Hall. unfold FieldPropagationObservables.ProcessEvent.
  rewrite Hb. cbv zeta. cbn [FieldPropagationObservables.fieldAverage].
  set (bProfile := GetTransversalComponentAlongPath b0 b1 fIntegrationStep) in *.
  assert (Hpos : 0 < INR (length bProfile)).
  { destruct bProfile as [| x l]; [contradiction |].
    change (length (x :: l)) with (S (length l)). rewrite S_INR.
    pose proof (pos_INR (length l)). lra. }
  rewrite fdiv_ok by lra. eexists. split; [reflexivity |].
  destruct (fold_left_Rplus_bounds lo hi bProfile Hall 0) as [H1 H2].
  unfold FieldPropagationObservables.accumulate.
  split.
  - apply (Rmult_le_reg_r (INR (length bProfile))); [exact Hpos |].
    unfold Rdiv. rewrite Rmult_assoc, Rinv_l, Rmult_1_r by lra. lra.
  - apply (Rmult_le_reg_r (INR (length bProfile))); [exact Hpos |].
    unfold Rdiv. rewrite Rmult_assoc, Rinv_l, Rmult_1_r by lra. lra.
Qed.

(** X24. For a track with two boundary points and a field profile of
    [n >= 1] samples ([n <= 2^64]), the observable coherenceLength is
    [(n - 1) * fIntegrationStep]. *)
Theorem ProcessEvent_coherence_length
        (ev : FieldPropagationObservables.TRestAxionEvent) (b0 b1 : TVector3) :
  GetFieldBoundaries (FieldPropagationObservables.GetPosition ev)
                     (FieldPropagationObservables.GetDirection ev) = [b0; b1] ->
  GetTransversalComponentAlongPath b0 b1 fIntegrationStep <> [] ->
  (Z.of_nat (length (GetTransversalComponentAlongPath b0 b1 fIntegrationStep)) <= 2 ^ 64)%Z ->
  FieldPropagationObservables.coherenceLength
    (FieldPropagationObservables.ProcessEvent
       GetFieldBoundaries GetTransversalComponentAlongPath
       AxionField_GammaTransmissionProbability units_cm
       fBufferGas fBufferGasAdditionalLength fIntegrationStep ev) =
  (INR (length (GetTransversalComponentAlongPath b0 b1 fIntegrationStep)) - 1) *
  fIntegrationStep.
Proof.
  intros Hb Hne Hsize. unfold FieldPropagationObservables.ProcessEvent.
  rewrite Hb. cbv zeta. cbn [FieldPropagationObservables.coherenceLength].
  set (bProfile := GetTransversalComponentAlongPath b0 b1 fIntegrationStep) in *.
  f_equal.
  assert (Hlen : (1 <= length bProfile)%nat).
  { destruct bProfile as [| x l]; [contradiction | cbn [length]; lia]. }
  unfold FieldPropagationObservables.size_minus_1.
  rewrite Z.mod_small by lia.
  rewrite minus_IZR, <- INR_IZR_INZ. reflexivity.
Qed.

End ObservablesMore.

(** A track with two boundary points on which the field profile has no
    sample. *)
Lemma empty_profile_run :
  FieldPropagationObservables.ProcessEvent
    track_0_100 no_profile (fun _ _ _ _ => Err NonFinite) 0.1 (Some absorbing_gas) 30 50
    (FieldPropagationObservables.mkEvent (mkVector3 0 0 0) (mkVector3 1 0 0) 4.2 0) =
  FieldPropagationObservables.mkObservables
    (Err NonFinite) (Err NonFinite) ((2 ^ 64 - 1) * 50)
    (exp (- (1 * ((2 ^ 64 - 1) * 50) * 0.1))).
Proof.
  unfold FieldPropagationObservables.ProcessEvent, track_0_100, no_profile.
  cbv zeta.
  assert (Hs : FieldPropagationObservables.size_minus_1 [] = 2 ^ 64 - 1).
  { unfold FieldPropagationObservables.size_minus_1. cbn [length Z.of_nat].
    change ((0 - 1) mod 2 ^ 64)%Z with (2 ^ 64 - 1)%Z.
    rewrite minus_IZR, pow_IZR. reflexivity. }
  rewrite Hs. cbn [length INR absorbing_gas GetPhotonAbsorptionLength
                   FieldPropagationObservables.GetEnergy].
  rewrite fdiv_zero, (Rltb_true 0 30) by lra. reflexivity.
Qed.

(** X22, at a concrete input: absorption 1 cm-1, additional length 30 mm
    and a step of 50 mm. *)
Lemma ProcessEvent_empty_profile_witness :
  track_0_100 (mkVector3 0 0 0) (mkVector3 1 0 0) = [mkVector3 0 0 0; mkVector3 100 0 0] /\
  no_profile (mkVector3 0 0 0) (mkVector3 100 0 0) 50 = [] /\
  FieldPropagationObservables.ProcessEvent
    track_0_100 no_profile (fun _ _ _ _ => Err NonFinite) 0.1 (Some absorbing_gas) 30 50
    (FieldPropagationObservables.mkEvent (mkVector3 0 0 0) (mkVector3 1 0 0) 4.2 0) =
  FieldPropagationObservables.mkObservables
    (Err NonFinite) (Err NonFinite) ((2 ^ 64 - 1) * 50)
    (exp (- (1 * ((2 ^ 64 - 1) * 50) * 0.1))) /\
  (let obs :=
     FieldPropagationObservables.ProcessEvent
       track_0_100 no_profile (fun _ _ _ _ => Err NonFinite) 0.1 (Some absorbing_gas) 30 50
       (FieldPropagationObservables.mkEvent (mkVector3 0 0 0) (mkVector3 1 0 0) 4.2 0) in
   FieldPropagationObservables.fieldAverage obs = Err NonFinite /\
   FieldPropagationObservables.coherenceLength obs = (2 ^ 64 - 1) * 50 /\
   (forall gas, Some absorbing_gas = Some gas -> 0 < 30 ->
      FieldPropagationObservables.transmission obs =
      exp (- (GetPhotonAbsorptionLength gas
                (FieldPropagationObservables.GetEnergy
                   (FieldPropagationObservables.mkEvent
                      (mkVector3 0 0 0) (mkVector3 1 0 0) 4.2 0)) *
              ((2 ^ 64 - 1) * 50) * 0.1)))).
Proof.
  split; [reflexivity | split; [reflexivity | split; [exact empty_profile_run |]]].
  exact (ProcessEvent_empty_profile
           track_0_100 no_profile (fun _ _ _ _ => Err NonFinite) 0.1 (Some absorbing_gas) 30 50
           (FieldPropagationObservables.mkEvent (mkVector3 0 0 0) (mkVector3 1 0 0) 4.2 0)
           (mkVector3 0 0 0) (mkVector3 100 0 0) eq_refl eq_refl).
Defined.

(** X23, at a concrete input: three samples of 2 T. *)
Lemma ProcessEvent_field_average_bounds_witness :
  track_0_100 (mkVector3 0 0 0) (mkVector3 1 0 0) = [mkVector3 0 0 0; mkVector3 100 0 0] /\
  profile_2T (mkVector3 0 0 0) (mkVector3 100 0 0) 50 <> [] /\
  Forall (fun x => 2 <= x <= 2) (profile_2T (mkVector3 0 0 0) (mkVector3 100 0 0) 50) /\
  exists average,
    FieldPropagationObservables.fieldAverage
      (FieldPropagationObservables.ProcessEvent
         track_0_100 profile_2T (fun _ _ _ _ => Ok 0) 0.1 (Some absorbing_gas) 30 50
         (FieldPropagationObservables.mkEvent (mkVector3 0 0 0) (mkVector3 1 0 0) 4.2 0)) =
    Ok average /\
    2 <= average <= 2.
Proof.
  assert (H0 : profile_2T (mkVector3 0 0 0) (mkVector3 100 0 0) 50 <> [])
    by (unfold profile_2T; discriminate).
  assert (H : Forall (fun x => 2 <= x <= 2)
                     (profile_2T (mkVector3 0 0 0) (mkVector3 100 0 0) 50)).
  { unfold profile_2T. repeat constructor; lra. }
  split; [reflexivity | split; [exact H0 | split; [exact H |]]].
  exact (ProcessEvent_field_average_bounds
           track_0_100 profile_2T (fun _ _ _ _ => Ok 0) 0.1 (Some absorbing_gas) 30 50
           (FieldPropagationObservables.mkEvent (mkVector3 0 0 0) (mkVector3 1 0 0) 4.2 0)
           (mkVector3 0 0 0) (mkVector3 100 0 0) 2 2 eq_refl H0 H).
Defined.

(** X24, at the same input: three samples at steps of 50 mm, 100 mm. *)
Lemma ProcessEvent_coherence_length_witness :
  track_0_100 (mkVector3 0 0 0) (mkVector3 1 0 0) = [mkVector3 0 0 0; mkVector3 100 0 0] /\
  profile_2T (mkVector3 0 0 0) (mkVector3 100 0 0) 50 <> [] /\
  (Z.of_nat (length (profile_2T (mkVector3 0 0 0) (mkVector3 100 0 0) 50)) <= 2 ^ 64)%Z /\
  FieldPropagationObservables.coherenceLength
    (FieldPropagationObservables.ProcessEvent
       track_0_100 profile_2T (fun _ _ _ _ => Ok 0) 0.1 (Some absorbing_gas) 30 50
       (FieldPropagationObservables.mkEvent (mkVector3 0 0 0) (mkVector3 1 0 0) 4.2 0)) =
  (INR (length (profile_2T (mkVector3 0 0 0) (mkVector3 100 0 0) 50)) - 1) * 50.
Proof.
  assert (H0 : profile_2T (mkVector3 0 0 0) (mkVector3 100 0 0) 50 <> [])
    by (unfold profile_2T; discriminate).
  assert (H : (Z.of_nat (length (profile_2T (mkVector3 0 0 0) (mkVector3 100 0 0) 50))
               <= 2 ^ 64)%Z).
  { unfold profile_2T. cbn [length]. lia. }
  split; [reflexivity | split; [exact H0 | split; [exact H |]]].
  exact (ProcessEvent_coherence_length
           track_0_100 profile_2T (fun _ _ _ _ => Ok 0) 0.1 (Some absorbing_gas) 30 50
           (FieldPropagationObservables.mkEvent (mkVector3 0 0 0) (mkVector3 1 0 0) 4.2 0)
           (mkVector3 0 0 0) (mkVector3 100 0 0) eq_refl H0 H).
Defined.

(** ** The boundary points and the line of the event *)

Lemma on_line_start (pos dir : TVector3) : on_line pos dir pos.
Proof.
  exists 0. destruct pos as [px py pz], dir as [dx dy dz].
  unfold V3add, V3scale. cbn [fX fY fZ]. f_equal; ring.
Qed.

Lemma on_line_trans (pos dir q p : TVector3) :
  on_line pos dir q -> on_line q dir p -> on_line pos dir p.
Proof.
  intros [t ->] [s ->]. exists (t + s).
  destruct pos as [px py pz], dir as [dx dy dz].
  unfold V3add, V3scale. cbn [fX fY fZ]. f_equal; ring.
Qed.

Lemma on_line_axis_step (k : nat) (pos dir p : TVector3) (x s : R) :
  along_axis k dir -> x = p.[k] + dir.[k] * s ->
  on_line pos dir p -> on_line pos dir (set_coord p k x).
Proof.
  intros Hk -> [t ->]. exists (t + s).
  destruct pos as [px py pz], dir as [dx dy dz].
  unfold V3add, V3scale.
  destruct Hk as [(-> & H1 & H2) | (-> & H1 & H2 & _)];
    cbn [coord set_coord fX fY fZ] in *; subst; f_equal; ring.
Qed.

Lemma on_line_move_to_y (pos dir p p' : TVector3) (y : R) :
  FieldPropagationProcess.move_to_y dir p y = Ok p' ->
  on_line pos dir p -> on_line pos dir p'.
Proof.
  unfold FieldPropagationProcess.move_to_y, fdiv.
  destruct (Reqb dir.[1] 0) eqn:Hd; [discriminate |].
  cbn [bind]. intros H [t ->]. injection H as <-.
  assert (Hd' : dir.[1] <> 0).
  { intros E. rewrite (Reqb_true _ _ E) in Hd. discriminate. }
  destruct pos as [px py pz], dir as [dx dy dz].
  cbn [coord fX fY fZ] in Hd'.
  exists (t + (y - (py + dy * t)) / dy).
  unfold V3add, V3scale. cbn [coord set_coord fX fY fZ]. f_equal; field; assumption.
Qed.

Section OnTheLine.

Variable GetMagneticField : R -> R -> R -> TVector3.

Local Abbreviation scan_to_field := (FieldPropagationProcess.scan_to_field GetMagneticField).
Local Abbreviation scan_out_of_field :=
  (FieldPropagationProcess.scan_out_of_field GetMagneticField).
Local Abbreviation FindOneVolume_axis_loop :=
  (FieldPropagationProcess.FindOneVolume_axis_loop GetMagneticField).
Local Abbreviation scan_to_field_y :=
  (FieldPropagationProcess.scan_to_field_y GetMagneticField).
Local Abbreviation scan_out_of_field_y :=
  (FieldPropagationProcess.scan_out_of_field_y GetMagneticField).
Local Abbreviation FindOneVolume_general_loop :=
  (FieldPropagationProcess.FindOneVolume_general_loop GetMagneticField).
Local Abbreviation FindOneVolume := (FieldPropagationProcess.FindOneVolume GetMagneticField).
Local Abbreviation FindFieldBoundaries :=
  (FieldPropagationProcess.FindFieldBoundaries GetMagneticField).

Lemma FindOneVolume_along_axis
      (k : nat) (fuel : nat) (pos dir : TVector3) (minStep : R) :
  along_axis k dir ->
  FindOneVolume fuel pos dir minStep =
  FieldPropagationProcess.FindOneVolume_axis GetMagneticField k fuel pos dir minStep.
Proof.
  unfold FieldPropagationProcess.FindOneVolume.
  intros [(-> & H1 & H2) | (-> & H0 & H1 & H2)].
  - now rewrite (Reqb_true _ _ H1), (Reqb_true _ _ H2).
  - now rewrite (Reqb_true _ _ H1), (Reqb_false _ _ H2), (Reqb_true _ _ H0).
Qed.

Lemma scan_to_field_on_line (k : nat) (pos dir : TVector3) (dr : R) :
  along_axis k dir ->
  forall fuel p p',
    scan_to_field k dir dr fuel p = Ok p' -> on_line pos dir p -> on_line pos dir p'.
Proof.
  intros Hk. induction fuel as [| fuel IH]; intros p p' H Hp; [discriminate |].
  cbn [FieldPropagationProcess.scan_to_field] in H.
  destruct (_ && _ && _).
  - apply (IH _ _ H). now apply (on_line_axis_step k pos dir p _ dr).
  - now injection H as <-.
Qed.

Lemma scan_out_of_field_on_line (k : nat) (pos dir : TVector3) (dr : R) :
  along_axis k dir ->
  forall fuel p p',
    scan_out_of_field k dir dr fuel p = Ok p' -> on_line pos dir p -> on_line pos dir p'.
Proof.
  intros Hk. induction fuel as [| fuel IH]; intros p p' H Hp; [discriminate |].
  cbn [FieldPropagationProcess.scan_out_of_field] in H.
  destruct (negb _).
  - apply (IH _ _ H). now apply (on_line_axis_step k pos dir p _ dr).
  - now injection H as <-.
Qed.

Lemma FindOneVolume_axis_loop_on_line
      (k : nat) (pos dir : TVector3) (minStep : R) (fuel : nat) :
  along_axis k dir ->
  forall n dr p b,
    FindOneVolume_axis_loop k dir minStep fuel n dr p = Ok b ->
    on_line pos dir p ->
    on_line pos dir (fst b) /\
    ((FieldPropagationProcess.outside_axis k (fst b) = true /\ snd b = zero3) \/
     on_line pos dir (snd b)).
Proof.
  intros Hk. induction n as [| n IH]; intros dr p b H Hp; [discriminate |].
  rewrite FindOneVolume_axis_loop_round in H.
  destruct (Rltb minStep dr).
  - destruct (scan_to_field k dir dr fuel p) as [p1 |] eqn:Hscan; [| discriminate].
    cbn [bind] in H.
    pose proof (scan_to_field_on_line k pos dir dr Hk _ _ _ Hscan Hp) as Hp1.
    destruct (Rltb p1.[k] (-40000) || Rltb 40000 p1.[k]) eqn:Hout.
    + injection H as <-. cbn [fst snd]. split; [exact Hp1 |]. left.
      split; [exact Hout | reflexivity].
    + apply (IH _ _ _ H).
      apply (on_line_axis_step k pos dir p1 _ (- dr)); [exact Hk | ring | exact Hp1].
  - cbv zeta in H.
    assert (Hin : on_line pos dir (set_coord p k (p.[k] + dir.[k] * dr * 2))).
    { apply (on_line_axis_step k pos dir p _ (dr * 2)); [exact Hk | ring | exact Hp]. }
    destruct (scan_out_of_field k dir dr fuel _) as [p2 |] eqn:Hscan; [| discriminate].
    cbn [bind] in H. injection H as <-. cbn [fst snd]. split; [exact Hin |]. right.
    exact (scan_out_of_field_on_line k pos dir dr Hk _ _ _ Hscan Hin).
Qed.

Lemma FindOneVolume_axis_on_line
      (k : nat) (fuel : nat) (pos dir : TVector3) (minStep : R) (b : boundary) :
  along_axis k dir ->
  FieldPropagationProcess.FindOneVolume_axis GetMagneticField k fuel pos dir minStep = Ok b ->
  on_line pos dir (fst b) /\
  ((FieldPropagationProcess.outside_axis k (fst b) = true /\ snd b = zero3) \/
   on_line pos dir (snd b)).
Proof.
  intros Hk H. unfold FieldPropagationProcess.FindOneVolume_axis in H.
  apply (FindOneVolume_axis_loop_on_line k pos dir minStep fuel Hk _ _ _ _ H).
  apply (on_line_axis_step k pos dir pos _ (minStep / 2));
    [exact Hk | unfold Rdiv; ring | apply on_line_start].
Qed.

Lemma scan_to_field_y_on_line (pos dir : TVector3) (dr : R) :
  forall fuel p p',
    scan_to_field_y dir dr fuel p = Ok p' -> on_line pos dir p -> on_line pos dir p'.
Proof.
  induction fuel as [| fuel IH]; intros p p' H Hp; [discriminate |].
  cbn [FieldPropagationProcess.scan_to_field_y] in H.
  destruct (_ && _).
  - destruct (FieldPropagationProcess.move_to_y dir p (p.[1] - dr)) as [p1 |] eqn:Hm;
      [| discriminate].
    cbn [bind] in H. apply (IH _ _ H). exact (on_line_move_to_y _ _ _ _ _ Hm Hp).
  - now injection H as <-.
Qed.

Lemma scan_out_of_field_y_on_line (pos dir : TVector3) (dr : R) :
  forall fuel p p',
    scan_out_of_field_y dir dr fuel p = Ok p' -> on_line pos dir p -> on_line pos dir p'.
Proof.
  induction fuel as [| fuel IH]; intros p p' H Hp; [discriminate |].
  cbn [FieldPropagationProcess.scan_out_of_field_y] in H.
  destruct (negb _).
  - destruct (FieldPropagationProcess.move_to_y dir p (p.[1] - dr)) as [p1 |] eqn:Hm;
      [| discriminate].
    cbn [bind] in H. apply (IH _ _ H). exact (on_line_move_to_y _ _ _ _ _ Hm Hp).
  - now injection H as <-.
Qed.

Lemma FindOneVolume_general_loop_on_line
      (pos dir : TVector3) (minStep : R) (fuel : nat) :
  forall n dr p b,
    FindOneVolume_general_loop dir minStep fuel n dr p = Ok b ->
    on_line pos dir p ->
    on_line pos dir (fst b) /\ (snd b = zero3 \/ on_line pos dir (snd b)).
Proof.
  induction n as [| n IH]; intros dr p b H Hp; [discriminate |].
  cbn [FieldPropagationProcess.FindOneVolume_general_loop] in H.
  destruct (Rltb minStep dr).
  - destruct (scan_to_field_y dir dr fuel p) as [p1 |] eqn:Hscan; [| discriminate].
    cbn [bind] in H.
    pose proof (scan_to_field_y_on_line pos dir dr _ _ _ Hscan Hp) as Hp1.
    destruct (Rleb p1.[1] 0).
    + injection H as <-. cbn [fst snd]. split; [exact Hp1 | now left].
    + cbv zeta in H.
      destruct (FieldPropagationProcess.move_to_y dir p1 (p1.[1] + dr)) as [p2 |] eqn:Hm;
        [| discriminate].
      cbn [bind] in H. apply (IH _ _ _ H). exact (on_line_move_to_y _ _ _ _ _ Hm Hp1).
  - cbv zeta in H.
    destruct (FieldPropagationProcess.move_to_y dir p (p.[1] - dr * 2)) as [p1 |] eqn:Hm;
      [| discriminate].
    cbn [bind] in H.
    pose proof (on_line_move_to_y _ _ _ _ _ Hm Hp) as Hp1.
    destruct (scan_out_of_field_y dir dr fuel p1) as [p2 |] eqn:Hscan; [| discriminate].
    cbn [bind] in H. injection H as <-. cbn [fst snd]. split; [exact Hp1 |]. right.
    exact (scan_out_of_field_y_on_line pos dir dr _ _ _ Hscan Hp1).
Qed.


(** X26. In the general case, for a direction that is not along y and
    [minStep <> 0], the entry point returned by FindOneVolume is not on the
    line through the position given: the search starts from a point moved
    in y alone. *)
Theorem FindOneVolume_general_off_the_line
        (fuel : nat) (pos dir : TVector3) (minStep : R) (bIn bOut : TVector3) :
  dir.[1] <> 0 -> dir.[0] <> 0 \/ dir.[2] <> 0 -> minStep <> 0 ->
  FindOneVolume fuel pos dir minStep = Ok (bIn, bOut) ->
  ~ on_line pos dir bIn.
Proof.
  intros H1 H02 Hms H Hon.
  unfold FieldPropagationProcess.FindOneVolume in H.
  rewrite (Reqb_false _ _ H1), andb_false_r in H. cbn [andb] in H.
  unfold FieldPropagationProcess.FindOneVolume_general in H.
  destruct (FindOneVolume_general_loop_on_line
              (set_coord pos 1 (pos.[1] - minStep / 2)) dir minStep fuel _ _ _ _ H
              (on_line_start _ _)) as [[t Ht] _].
  destruct Hon as [s Hs]. cbn [fst] in Ht. rewrite Hs in Ht.
  destruct pos as [px py pz], dir as [dx dy dz].
  unfold V3add, V3scale in Ht. cbn [coord set_coord fX fY fZ] in *.
  injection Ht as Ex Ey Ez.
  assert (Hd : s - t <> 0) by (intros E; assert (s = t) by lra; subst; lra).
  destruct H02 as [Hdx | Hdz].
  - apply Hdx. apply (Rmult_eq_reg_r (s - t)); [| exact Hd]. lra.
  - apply Hdz. apply (Rmult_eq_reg_r (s - t)); [| exact Hd]. lra.
Qed.

Lemma FindFieldBoundaries_loop_on_line
      (k : nat) (pos direction : TVector3) (minStep : R) (fuel : nat) :
  along_axis k direction ->
  forall n bInt acc segs,
    on_line pos direction (fst bInt) ->
    (FieldPropagationProcess.outside_axis k (fst bInt) = true /\ snd bInt = zero3) \/
    on_line pos direction (snd bInt) ->
    Forall (fun b => on_line pos direction (fst b) /\ on_line pos direction (snd b)) acc ->
    FieldPropagationProcess.FindFieldBoundaries_loop
      GetMagneticField (FieldPropagationProcess.inside_axis k) direction minStep
      fuel n bInt acc = Ok segs ->
    Forall (fun b => on_line pos direction (fst b) /\ on_line pos direction (snd b)) segs.
Proof.
  intros Hk. induction n as [| n IH]; intros bInt acc segs Hfst Hsnd Hacc H; [discriminate |].
  cbn [FieldPropagationProcess.FindFieldBoundaries_loop] in H.
  destruct (FieldPropagationProcess.inside_axis k (fst bInt)) eqn:Hin.
  - apply inside_axis_not_outside in Hin.
    destruct Hsnd as [[Ho _] | Hsnd]; [congruence |].
    destruct (FindOneVolume fuel (snd bInt) direction minStep) as [b' |] eqn:Hnext;
      [| discriminate].
    cbn [bind] in H.
    assert (Hb' : on_line (snd bInt) direction (fst b') /\
                  ((FieldPropagationProcess.outside_axis k (fst b') = true /\
                    snd b' = zero3) \/
                   on_line (snd bInt) direction (snd b'))).
    { rewrite (FindOneVolume_along_axis k) in Hnext by exact Hk.
      exact (FindOneVolume_axis_on_line k fuel _ _ minStep _ Hk Hnext). }
    destruct Hb' as [Hf' Hs'].
    apply (IH _ _ _ (on_line_trans _ _ _ _ Hsnd Hf')) in H; [exact H | |].
    + destruct Hs' as [Hs' | Hs']; [now left | right].
      exact (on_line_trans _ _ _ _ Hsnd Hs').
    + apply Forall_app. split; [exact Hacc |]. constructor; [| constructor].
      split; assumption.
  - now injection H as <-.
Qed.

Lemma FindFieldBoundaries_from_on_line
      (k : nat) (fuel : nat) (pos posInitial direction : TVector3) (minStep : R)
      (segs : list boundary) :
  along_axis k direction ->
  on_line pos direction posInitial ->
  FieldPropagationProcess.FindFieldBoundaries_from
    GetMagneticField (FieldPropagationProcess.outside_axis k)
    (FieldPropagationProcess.inside_axis k) fuel posInitial direction minStep = Ok segs ->
  Forall (fun b => on_line pos direction (fst b) /\ on_line pos direction (snd b)) segs.
Proof.
  intros Hk Hpos H. unfold FieldPropagationProcess.FindFieldBoundaries_from in H.
  destruct (FindOneVolume fuel posInitial direction minStep) as [b1 |] eqn:H1;
    [| discriminate].
  cbn [bind] in H.
  rewrite (FindOneVolume_along_axis k) in H1 by exact Hk.
  destruct (FindOneVolume_axis_on_line k fuel _ _ minStep _ Hk H1) as [Hf1 Hs1].
  destruct (FieldPropagationProcess.outside_axis k (fst b1)) eqn:Ho.
  - injection H as <-. constructor.
  - destruct Hs1 as [[Ho' _] | Hs1]; [congruence |].
    destruct (FindOneVolume fuel (snd b1) direction minStep) as [b2 |] eqn:H2;
      [| discriminate].
    cbn [bind] in H.
    rewrite (FindOneVolume_along_axis k) in H2 by exact Hk.
    destruct (FindOneVolume_axis_on_line k fuel _ _ minStep _ Hk H2) as [Hf2 Hs2].
    pose proof (on_line_trans _ _ _ _ Hpos Hf1) as Hf1'.
    pose proof (on_line_trans _ _ _ _ Hpos Hs1) as Hs1'.
    apply (FindFieldBoundaries_loop_on_line k pos direction minStep fuel Hk) in H.
    + exact H.
    + exact (on_line_trans _ _ _ _ Hs1' Hf2).
    + destruct Hs2 as [Hs2 | Hs2]; [now left | right].
      exact (on_line_trans _ _ _ _ Hs1' Hs2).
    + cbn [app]. constructor; [| constructor]. split; assumption.
Qed.

(** X27. For an event along x or along z, every boundary point that
    FindFieldBoundaries returns lies on the line through the position of
    the event along its direction. *)
Theorem FindFieldBoundaries_on_the_line
        (k : nat) (fuel : nat) (posInitial direction : TVector3) (minStep : R)
        (segs : list boundary) :
  along_axis k direction ->
  FindFieldBoundaries fuel posInitial direction minStep = Ok segs ->
  Forall (fun b => on_line posInitial direction (fst b) /\
                   on_line posInitial direction (snd b)) segs.
Proof.
  intros Hk H.
  destruct (Req_dec_T direction.[k] 0) as [Hz | Hnz].
  { assert (E : direction = zero3).
    { destruct direction as [dx dy dz].
      destruct Hk as [(-> & H1 & H2) | (-> & H0 & H1 & H2)];
        cbn [coord fX fY fZ] in *; [| contradiction].
      subst. reflexivity. }
    rewrite E, FindFieldBoundaries_no_direction in H. discriminate. }
  unfold FieldPropagationProcess.FindFieldBoundaries in H.
  assert (Hstart : on_line posInitial direction
                     (set_coord posInitial k (- direction.[k] * 25000))).
  { apply (on_line_axis_step k _ _ posInitial _
             ((- direction.[k] * 25000 - posInitial.[k]) / direction.[k]));
      [exact Hk | field; exact Hnz | apply on_line_start]. }
  destruct Hk as [(-> & H1 & H2) | (-> & H0 & H1 & H2)].
  - rewrite (Reqb_true _ _ H1), (Reqb_true _ _ H2) in H. cbn [andb] in H.
    eapply (FindFieldBoundaries_from_on_line 0 fuel posInitial);
      [left; auto | exact Hstart | exact H].
  - rewrite (Reqb_true _ _ H1), (Reqb_false _ _ H2), (Reqb_true _ _ H0) in H.
    cbn [andb] in H.
    eapply (FindFieldBoundaries_from_on_line 2 fuel posInitial);
      [right; auto | exact Hstart | exact H].
Qed.

End OnTheLine.


(** A ray that descends along the diagonal of x and y from
    [(0, 20, 0)], with [minStep = 4]: the search starts at [(0, 18, 0)],
    three coarse steps lead into the layer at [(15, 3, 0)], and the exit
    scan ends at [(17.5, 0.5, 0)]. *)
Lemma layer_field_in (x y z : R) : 3 <= y < 8 -> layer_field x y z <> zero3.
Proof.
  intros H. unfold layer_field. rewrite Rleb_true, Rltb_true by lra. cbn [andb].
  unfold zero3. intros E. injection E. lra.
Qed.

Lemma layer_field_out (x y z : R) : y < 3 \/ 8 <= y -> layer_field x y z = zero3.
Proof.
  intros [H | H]; unfold layer_field.
  - now rewrite Rleb_false by lra.
  - rewrite (Rltb_false y 8) by lra. now rewrite andb_false_r.
Qed.

Lemma move_to_y_value (dir pos : TVector3) (y : R) :
  dir.[1] <> 0 ->
  FieldPropagationProcess.move_to_y dir pos y =
  Ok (mkVector3 (pos.[0] + (y - pos.[1]) / dir.[1] * dir.[0]) y
                (pos.[2] + (y - pos.[1]) / dir.[1] * dir.[2])).
Proof.
  intros Hd. unfold FieldPropagationProcess.move_to_y. rewrite fdiv_ok by exact Hd.
  cbn [bind]. destruct pos as [px py pz]. reflexivity.
Qed.

Lemma layer_step (x y x' y' : R) :
  x' = x + (y' - y) / -1 * 1 ->
  FieldPropagationProcess.move_to_y (mkVector3 1 (-1) 0) (mkVector3 x y 0) y' =
  Ok (mkVector3 x' y' 0).
Proof.
  intros ->. rewrite move_to_y_value by (cbn [coord fY]; lra).
  cbn [coord fX fY fZ]. do 2 f_equal. lra.
Qed.

Lemma layer_field_volume :
  FieldPropagationProcess.FindOneVolume
    layer_field 4 (mkVector3 0 20 0) (mkVector3 1 (-1) 0) 4 =
  Ok (mkVector3 15 3 0, mkVector3 17.5 0.5 0).
Proof.
  unfold FieldPropagationProcess.FindOneVolume,
    FieldPropagationProcess.FindOneVolume_general.
  cbn [coord set_coord fX fY fZ].
  repeat R_test. cbn [andb].
  replace (20 - 4 / 2) with 18 by lra.
  cbn [FieldPropagationProcess.FindOneVolume_general_loop]. R_test.
  assert (Hscan : FieldPropagationProcess.scan_to_field_y
                    layer_field (mkVector3 1 (-1) 0) 5 4 (mkVector3 0 18 0) =
                  Ok (mkVector3 15 3 0)).
  { cbn [FieldPropagationProcess.scan_to_field_y].
    unfold FieldPropagationProcess.field_at. cbn [coord fX fY fZ].
    rewrite (layer_field_out 0 18 0) by lra. rewrite V3eqb_refl. R_test. cbn [andb].
    rewrite (layer_step 0 18 5 (18 - 5)) by lra. cbn [bind coord fX fY fZ].
    rewrite (layer_field_out 5 (18 - 5) 0) by lra. rewrite V3eqb_refl. R_test. cbn [andb].
    rewrite (layer_step 5 (18 - 5) 10 (18 - 5 - 5)) by lra. cbn [bind coord fX fY fZ].
    rewrite (layer_field_out 10 (18 - 5 - 5) 0) by lra. rewrite V3eqb_refl. R_test.
    cbn [andb].
    rewrite (layer_step 10 (18 - 5 - 5) 15 (18 - 5 - 5 - 5)) by lra.
    cbn [bind coord fX fY fZ].
    assert (E : V3eqb (layer_field 15 (18 - 5 - 5 - 5) 0) zero3 = false).
    { apply V3eqb_neq. apply layer_field_in. lra. }
    rewrite E. cbn [andb]. do 2 f_equal. lra. }
  rewrite Hscan. cbn [bind coord fX fY fZ]. R_test.
  rewrite (layer_step 15 3 10 (3 + 5)) by lra. cbn [bind]. R_test.
  cbn [coord fX fY fZ].
  rewrite (layer_step 10 (3 + 5) 15 (3 + 5 - 5 / 2 * 2)) by lra. cbn [bind].
  cbn [FieldPropagationProcess.scan_out_of_field_y].
  unfold FieldPropagationProcess.field_at. cbn [coord fX fY fZ].
  assert (E1 : V3eqb (layer_field 15 (3 + 5 - 5 / 2 * 2) 0) zero3 = false).
  { apply V3eqb_neq. apply layer_field_in. lra. }
  rewrite E1. cbn [negb].
  rewrite (layer_step 15 (3 + 5 - 5 / 2 * 2) 17.5 (3 + 5 - 5 / 2 * 2 - 5 / 2)) by lra.
  cbn [bind coord fX fY fZ].
  rewrite (layer_field_out 17.5 (3 + 5 - 5 / 2 * 2 - 5 / 2) 0) by lra.
  rewrite V3eqb_refl. cbn [negb].
  cbn [bind]. f_equal. f_equal; f_equal; lra.
Qed.

(** X26, at a concrete input: the entry point [(15, 3, 0)] of the layer
    [3 <= y < 8] is not on the line of the event, which meets [y = 3] at
    [x = 17]. *)
Lemma FindOneVolume_general_off_the_line_witness :
  (mkVector3 1 (-1) 0).[1] <> 0 /\
  ((mkVector3 1 (-1) 0).[0] <> 0 \/ (mkVector3 1 (-1) 0).[2] <> 0) /\
  4 <> 0 /\
  FieldPropagationProcess.FindOneVolume
    layer_field 4 (mkVector3 0 20 0) (mkVector3 1 (-1) 0) 4 =
  Ok (mkVector3 15 3 0, mkVector3 17.5 0.5 0) /\
  ~ on_line (mkVector3 0 20 0) (mkVector3 1 (-1) 0) (mkVector3 15 3 0).
Proof.
  assert (H1 : (mkVector3 1 (-1) 0).[1] <> 0) by (cbn [coord fY]; lra).
  assert (H2 : (mkVector3 1 (-1) 0).[0] <> 0 \/ (mkVector3 1 (-1) 0).[2] <> 0)
    by (left; cbn [coord fX]; lra).
  assert (H3 : 4 <> 0) by lra.
  split; [exact H1 | split; [exact H2 | split; [exact H3 |]]].
  split; [exact layer_field_volume |].
  exact (FindOneVolume_general_off_the_line
           layer_field 4 (mkVector3 0 20 0) (mkVector3 1 (-1) 0) 4
           (mkVector3 15 3 0) (mkVector3 17.5 0.5 0) H1 H2 H3 layer_field_volume).
Defined.

(** X27, at a concrete input: the field on the half space [x < -39990] and
    an event along x. *)
Lemma FindFieldBoundaries_on_the_line_witness :
  along_axis 0 (mkVector3 1.6 0 0) /\
  FieldPropagationProcess.FindFieldBoundaries
    edge_field (S crossing_steps) (mkVector3 0 0 0) (mkVector3 1.6 0 0) 4 =
  Ok [(mkVector3 (-39996.8) 0 0, mkVector3 (-39988.8) 0 0)] /\
  Forall (fun b => on_line (mkVector3 0 0 0) (mkVector3 1.6 0 0) (fst b) /\
                   on_line (mkVector3 0 0 0) (mkVector3 1.6 0 0) (snd b))
         [(mkVector3 (-39996.8) 0 0, mkVector3 (-39988.8) 0 0)].
Proof.
  assert (H : along_axis 0 (mkVector3 1.6 0 0))
    by (left; split; [reflexivity | split; reflexivity]).
  split; [exact H | split; [exact edge_field_boundaries |]].
  exact (FindFieldBoundaries_on_the_line
           edge_field 0 (S crossing_steps) (mkVector3 0 0 0) (mkVector3 1.6 0 0) 4 _
           H edge_field_boundaries).
Defined.
